(** * Bitbucket Pipelines Local Runner: a shallow embedding of the engine

    The development follows the TypeScript sources:
    - [Js]          plain JavaScript objects, truthiness, promises;
    - [Environment] managers/environment-manager.ts;
    - [Loader]      core/yaml-parser.ts;
    - [Runner]      core/runner.ts (selection, listing, scheduling);
    - [Artifacts]   managers/artifact-manager.ts ([sanitizeStepName]);
    - [Cache]       managers/cache-manager.ts ([saveCache], [restoreCache]);
    - [CacheDirectory] managers/cache-manager.ts ([listCaches], [clearCache]);
    - [EnvironmentChecks] managers/environment-manager.ts (validation,
      statistics);
    - [Docker]      managers/docker-manager.ts (container environment,
      memory limits);
    - [Limits], [Config] managers/config-manager.ts;
    - [Commands], [Reports] core/runner.ts ([clearCache], step results);
    - [Validator]   core/validator.ts.

    Part I holds the definitions, Part II the properties. *)

From Stdlib Require Import Ascii.
From stdpp Require Import base strings list gmap pretty.

Local Open Scope string_scope.
Local Open Scope list_scope.
#[local] Set Warnings "-register-all".

(* ===================================================================== *)
(** * Part I: the model                                                   *)
(* ===================================================================== *)

(** ** interfaces/index.ts: errors *)

Inductive ErrorType : Type :=
| YAML_PARSE_ERROR
| DOCKER_ERROR
| CONTAINER_ERROR
| NETWORK_ERROR
| FILE_SYSTEM_ERROR
| VALIDATION_ERROR
| TIMEOUT_ERROR
| USER_CANCELLED.

(** What [throw] carries: a [PipelineError], another [Error] with its
    message, or a value that is not an [Error]. *)
Inductive Thrown : Type :=
| PipelineError (type : ErrorType) (message : string)
| JsError (message : string)
| NotAnError.

(** [error instanceof Error ? error : new Error(fallback)] *)
Definition asError (fallback : string) (e : Thrown) : Thrown :=
  match e with
  | NotAnError => JsError fallback
  | _ => e
  end.

(** Code that may throw. *)
Definition Exc (A : Type) : Type := Thrown + A.

Definition ret {A} (a : A) : Exc A := inr a.
Definition throw {A} (e : Thrown) : Exc A := inl e.
Definition bind {A B} (m : Exc A) (k : A -> Exc B) : Exc B :=
  match m with
  | inl e => inl e
  | inr a => k a
  end.

Notation "'let!' x ':=' m 'in' k" := (bind m (fun x => k))
  (at level 10, x pattern, m at level 100, k at level 200).

(** [try { body } catch (e) { handler(e) }] *)
Definition try_catch {A} (body : Exc A) (handler : Thrown -> Exc A) : Exc A :=
  match body with
  | inl e => handler e
  | inr a => inr a
  end.

Fixpoint mapM {A B} (f : A -> Exc B) (l : list A) : Exc (list B) :=
  match l with
  | [] => ret []
  | a :: l' => let! b := f a in let! bs := mapM f l' in ret (b :: bs)
  end.

(** [s] between double quotes. *)
Definition quoted (s : string) : string :=
  String (Ascii.ascii_of_nat 34) (s +:+ String (Ascii.ascii_of_nat 34) EmptyString).

(** [path.join(dir, file)] for a normalised directory and a plain name. *)
Definition path_join (dir file : string) : string := dir +:+ "/" +:+ file.

(** ** JavaScript values and objects *)

Module Js.

(** A plain object, as the list of its own enumerable properties in the
    order [Object.keys] / [Object.entries] enumerate them (insertion
    order for the non-numeric keys used here). [get] reads an own
    property; where the code reads an object under a name that the user
    gives ([Runner.lookup]), the names that JavaScript resolves through
    the prototype are looked at as well, see [inheritedNames]. *)
Section Object.
Context {V : Type}.

(** [o[k]] *)
Fixpoint get (o : list (string * V)) (k : string) : option V :=
  match o with
  | [] => None
  | (k', v) :: o' => if String.eqb k' k then Some v else get o' k
  end.

(** [o[k] = v]: an existing property keeps its place, a new one is
    appended. *)
Fixpoint set (o : list (string * V)) (k : string) (v : V) : list (string * V) :=
  match o with
  | [] => [(k, v)]
  | (k', v') :: o' =>
      if String.eqb k' k then (k', v) :: o' else (k', v') :: set o' k v
  end.

(** [Object.keys(o)] *)
Definition keys (o : list (string * V)) : list string := map fst o.

(** [Object.entries(o)] *)
Definition entries (o : list (string * V)) : list (string * V) := o.

(** [Object.assign(target, source)] for one source. *)
Definition assign (target source : list (string * V)) : list (string * V) :=
  foldl (fun t kv => set t (fst kv) (snd kv)) target (entries source).
End Object.

(** The properties that a plain object inherits from [Object.prototype]
    (ECMAScript, with its annex B): [o[k]] for an object [o] without an
    own property [k] is the inherited member when [k] is one of these
    names, a function, or for [__proto__] the prototype itself. *)
Definition inheritedNames : list string :=
  [ "constructor"; "__defineGetter__"; "__defineSetter__"; "hasOwnProperty";
    "__lookupGetter__"; "__lookupSetter__"; "isPrototypeOf"; "propertyIsEnumerable";
    "toString"; "valueOf"; "__proto__"; "toLocaleString" ].

(** What [YAML.parse] can return. Numbers are the integers and [NaN]
    ([.nan] in a document): the code copies a number, tests whether it
    is truthy and compares it with integer constants, and in all of
    these a fraction behaves as the next integer above it and an
    infinity as an integer beyond the constants. *)
Inductive Value : Type :=
| Undefined
| Null
| Bool (b : bool)
| Num (n : Z)
| NaN
| Str (s : string)
| Arr (items : list Value)
| Object (fields : list (string * Value)).

(** [ToBoolean] *)
Definition truthy (v : Value) : bool :=
  match v with
  | Undefined | Null | NaN => false
  | Bool b => b
  | Num n => negb (Z.eqb n 0)
  | Str s => negb (String.eqb s "")
  | Arr _ | Object _ => true
  end.

(** [a || b] *)
Definition or (a b : Value) : Value := if truthy a then a else b.

(** [v !== false] *)
Definition not_false (v : Value) : bool :=
  match v with
  | Bool false => false
  | _ => true
  end.

(** [fields[k]], [undefined] when there is no such property. *)
Definition field (fields : list (string * Value)) (k : string) : Value :=
  from_option id Undefined (get fields k).

(** [v.k] and [v[k]] for the property names the loader reads. Reading a
    property of [undefined] or [null] throws a [TypeError]; a primitive
    or an array has none of these names. *)
Definition prop (v : Value) (k : string) : Exc Value :=
  match v with
  | Undefined | Null =>
      inl (JsError ("Cannot read properties of undefined (reading '" +:+ k +:+ "')"))
  | Object fields => inr (field fields k)
  | _ => inr Undefined
  end.

(** [s || fallback] on an optional string. *)
Definition str_or (s : option string) (fallback : string) : string :=
  match s with
  | Some x => if String.eqb x "" then fallback else x
  | None => fallback
  end.

(** Truthiness of an optional string ([undefined] and [''] are falsy). *)
Definition given (s : option string) : bool :=
  match s with
  | Some x => negb (String.eqb x "")
  | None => false
  end.

(** *** Promises, by the instant at which they settle *)

Inductive Settled (A : Type) : Type :=
| Fulfilled (value : A)
| Rejected (reason : Thrown).
Arguments Fulfilled {A} value.
Arguments Rejected {A} reason.

Record Promise (A : Type) : Type := mkPromise {
  settledAt : nat;
  outcome : Settled A
}.
Arguments mkPromise {A} settledAt outcome.
Arguments settledAt {A} p.
Arguments outcome {A} p.

(** [p.catch(handler)] with a handler that returns a value. *)
Definition catch {A} (p : Promise A) (handler : Thrown -> A) : Promise A :=
  match outcome p with
  | Fulfilled _ => p
  | Rejected e => mkPromise (settledAt p) (Fulfilled (handler e))
  end.

Definition latest {A} (ps : list (Promise A)) : nat :=
  foldr (fun p t => Nat.max (settledAt p) t) 0 ps.

(** The rejection that happens first (the lowest index among equals). *)
Fixpoint first_rejection {A} (ps : list (Promise A)) : option (nat * Thrown) :=
  match ps with
  | [] => None
  | p :: ps' =>
      match outcome p, first_rejection ps' with
      | Rejected e, Some (t, e') =>
          if Nat.leb (settledAt p) t then Some (settledAt p, e) else Some (t, e')
      | Rejected e, None => Some (settledAt p, e)
      | Fulfilled _, r => r
      end
  end.

Fixpoint values {A} (ps : list (Promise A)) : list A :=
  match ps with
  | [] => []
  | p :: ps' =>
      match outcome p with
      | Fulfilled v => v :: values ps'
      | Rejected _ => values ps'
      end
  end.

(** [Promise.all(ps)]: rejects as soon as one input rejects, otherwise
    fulfils when the last input has fulfilled. *)
Definition all {A} (ps : list (Promise A)) : Promise (list A) :=
  match first_rejection ps with
  | Some (t, e) => mkPromise t (Rejected e)
  | None => mkPromise (latest ps) (Fulfilled (values ps))
  end.

(** [Promise.allSettled(ps)]: fulfils when every input has settled. *)
Definition allSettled {A} (ps : list (Promise A)) : Promise (list (Settled A)) :=
  mkPromise (latest ps) (Fulfilled (map outcome ps)).

(** [await p] at instant [now]: execution resumes no earlier than the
    instant [p] settles. *)
Definition await {A} (now : nat) (p : Promise A) : nat * Settled A :=
  (Nat.max now (settledAt p), outcome p).

End Js.

(** ** managers/environment-manager.ts *)

Module Environment.

(** A value found in a [Record<string, string>] at run time. *)
Inductive EnvValue : Type :=
| EnvUndefined
| EnvNull
| EnvStr (s : string).

Abbreviation Env := (list (string * EnvValue)).

(** [value !== undefined && value !== null && value !== ''] *)
Definition bindable (value : EnvValue) : bool :=
  match value with
  | EnvUndefined | EnvNull => false
  | EnvStr s => negb (String.eqb s "")
  end.

(** [mergeEnvironments(...envs)] *)
Definition mergeEnvironments (envs : list Env) : Env :=
  foldl
    (fun merged env =>
       foldl
         (fun merged kv =>
            if bindable (snd kv) then Js.set merged (fst kv) (snd kv) else merged)
         merged (Js.entries env))
    [] envs.

(** The inner loop of [mergeEnvironments]. *)
Definition mergeInto (merged env : Env) : Env :=
  foldl (fun merged kv => if bindable (snd kv) then Js.set merged (fst kv) (snd kv) else merged)
        merged (Js.entries env).

(** An object built by [mergeEnvironments]: no key twice, no empty value. *)
Definition merged_shape (merged : Env) : Prop :=
  NoDup (Js.keys merged) ∧ Forall (fun kv => bindable (snd kv) = true) merged.

(** The value that counts for [key] in a sequence of entries read in
    order: that of the last entry for [key] that [mergeEnvironments] does
    not skip. *)
Fixpoint effective (key : string) (entries : Env) : option EnvValue :=
  match entries with
  | [] => None
  | (k, v) :: rest =>
      match effective key rest with
      | Some v' => Some v'
      | None => if String.eqb k key && bindable v then Some v else None
      end
  end.

(** [env] has an entry for [key], whatever its value. *)
Definition mentions (key : string) (env : Env) : bool :=
  existsb (fun kv => String.eqb (fst kv) key) env.

(** [EnvironmentConfig] *)
Record EnvironmentConfig : Type := {
  bitbucketVariables : option Env;
  secureVariables : option Env;
  envFile : option string
}.

(** [PipelineContext] *)
Record PipelineContext : Type := {
  branch : string;
  commit : string;
  buildNumber : Z;
  repoName : string;
  workspace : string;
  repoSlug : string;
  repoUuid : string;
  stepName : option string
}.

(** What the process hands to the manager: [process.env],
    [process.cwd()] and the environment-file reader ([fs.access] and
    [dotenv], [None] for a file that is absent or does not parse). *)
Record Host : Type := {
  processEnv : Env;
  cwd : string;
  loadEnvFile : string -> option Env
}.

Definition push_if_loaded (environments : list Env) (loaded : option Env) : list Env :=
  match loaded with
  | Some env => environments ++ [env]
  | None => environments
  end.

(** The array [environments] that [loadEnvironment(envFile)] builds. *)
Definition environments (config : EnvironmentConfig) (host : Host)
    (envFile : option string) : list Env :=
  (* 1. process environment *)
  let environments := [processEnv host] in
  (* 2. default .env file *)
  let environments :=
    push_if_loaded environments (loadEnvFile host (path_join (cwd host) ".env")) in
  (* 3. the given .env file *)
  let environments :=
    match envFile with
    | Some file =>
        if Js.given envFile
        then push_if_loaded environments (loadEnvFile host file)
        else environments
    | None => environments
    end in
  (* 4. the pipeline .env file *)
  let environments :=
    push_if_loaded environments (loadEnvFile host (path_join (cwd host) ".env.pipelines")) in
  (* 5. the variables of the runner configuration *)
  push_if_loaded environments (bitbucketVariables config).

(** [loadEnvironment(envFile)] *)
Definition loadEnvironment (config : EnvironmentConfig) (host : Host)
    (envFile : option string) : Env :=
  mergeEnvironments (environments config host envFile).

(** The values [generateUUID], [generateExecutionId] and [new Date()]
    produce during one call of [getBitbucketVariables]. *)
Record Generated : Type := {
  pipelineUuid : string;
  stepUuid : string;
  triggererUuid : string;
  executionId : string;
  executionTime : string
}.

(** [getBitbucketVariables(context)] *)
Definition getBitbucketVariables (config : EnvironmentConfig) (gen : Generated)
    (context : PipelineContext) : Env :=
  let variables : Env :=
    [ ("BITBUCKET_WORKSPACE", EnvStr (workspace context));
      ("BITBUCKET_REPO_SLUG", EnvStr (repoSlug context));
      ("BITBUCKET_REPO_UUID", EnvStr (repoUuid context));
      ("BITBUCKET_REPO_FULL_NAME", EnvStr (workspace context +:+ "/" +:+ repoSlug context));
      ("BITBUCKET_BUILD_NUMBER", EnvStr (pretty (buildNumber context)));
      ("BITBUCKET_COMMIT", EnvStr (commit context));
      ("BITBUCKET_BRANCH", EnvStr (branch context));
      ("BITBUCKET_PIPELINE_UUID", EnvStr ("{" +:+ pipelineUuid gen +:+ "}"));
      ("BITBUCKET_STEP_UUID",
        EnvStr (if Js.given (stepName context) then "{" +:+ stepUuid gen +:+ "}" else ""));
      ("BITBUCKET_STEP_TRIGGERER_UUID", EnvStr ("{" +:+ triggererUuid gen +:+ "}"));
      ("BITBUCKET_TAG", EnvStr "");
      ("BITBUCKET_BOOKMARK", EnvStr "");
      ("BITBUCKET_PR_ID", EnvStr "");
      ("BITBUCKET_PR_DESTINATION_BRANCH", EnvStr "");
      ("BITBUCKET_DEPLOYMENT_ENVIRONMENT", EnvStr "");
      ("BITBUCKET_CLONE_DIR", EnvStr "/opt/atlassian/pipelines/agent/build");
      ("BITBUCKET_PARALLEL_STEP", EnvStr "false");
      ("BITBUCKET_PARALLEL_STEP_COUNT", EnvStr "1");
      ("BITBUCKET_PIPELINES_LOCAL", EnvStr "true");
      ("BBPL_EXECUTION_ID", EnvStr (executionId gen));
      ("BBPL_EXECUTION_TIME", EnvStr (executionTime gen)) ] in
  match bitbucketVariables config with
  | Some defaults =>
      (* Object.assign(variables, defaults, variables): the target is
         updated in place, so the last source is the updated target *)
      let variables := Js.assign variables defaults in
      Js.assign variables variables
  | None => variables
  end.

End Environment.

(** ** interfaces/index.ts: the pipeline document *)

(** [Pipelines], over the representation [P] of one pipeline. *)
Record Pipelines (P : Type) : Type := mkPipelines {
  default : option P;
  branches : option (list (string * P));
  tags : option (list (string * P));
  bookmarks : option (list (string * P));
  pullrequests : option (list (string * P));
  custom : option (list (string * P))
}.
Arguments mkPipelines {P}.
Arguments default {P}.
Arguments branches {P}.
Arguments tags {P}.
Arguments bookmarks {P}.
Arguments pullrequests {P}.
Arguments custom {P}.

(** ** core/yaml-parser.ts *)

Module Loader.
Import Js.

(** The canonical model, with the values the parser copies untouched
    kept as it found them. *)
Record ImageObject : Type := {
  image_name : Value;
  image_username : Value;
  image_password : Value;
  image_aws : Value;
  image_runAsUser : Value
}.

Inductive Image : Type :=
| ImageString (s : string)
| ImageOf (o : ImageObject).

Record Options : Type := {
  options_maxTime : Value;
  options_size : Value;
  options_docker : Value
}.

Record Clone : Type := {
  clone_enabled : bool;
  clone_depth : Value;
  clone_lfs : Value
}.

(** [download] is [None] when the object has no such property. *)
Record Artifacts : Type := {
  paths : Value;
  download : option bool
}.

Record Changesets : Type := {
  includePaths : Value;
  excludePaths : Value
}.

Record Condition : Type := {
  changesets : option Changesets
}.

Record Step : Type := {
  name : Value;
  image : option Image;
  script : list Value;
  size : Value;
  maxTime : Value;
  caches : Value;
  artifacts : option Artifacts;
  services : Value;
  trigger : Value;
  condition : option Condition;
  afterScript : Value;
  variables : Value;
  deployment : Value
}.

Record Parallel : Type := {
  failFast : bool;
  steps : list Step
}.

Inductive Item : Type :=
| ItemStep (s : Step)
| ItemParallel (p : Parallel).

Record Service : Type := {
  service_image : Value;
  service_variables : Value;
  service_ports : Value;
  service_memory : Value
}.

Record Definitions : Type := {
  definitions_caches : option Value;
  definitions_services : option (list (string * Service));
  definitions_steps : option (list (string * Step))
}.

Record PipelineConfig : Type := {
  config_image : option Image;
  config_options : option Options;
  config_clone : option Clone;
  config_definitions : option Definitions;
  config_pipelines : Pipelines (list Item)
}.

(** [typeof v === 'object'] *)
Definition typeof_object (v : Value) : bool :=
  match v with
  | Null | Arr _ | Object _ => true
  | _ => false
  end.

(** [Object.entries(v)] for a truthy [v]. *)
Definition entriesOf (v : Value) : list (string * Value) :=
  match v with
  | Object fields => fields
  | Arr items => imap (fun i x => (pretty i, x)) items
  | Str s => imap (fun i c => (pretty i, Str (String c ""))) (String.list_ascii_of_string s)
  | _ => []
  end.

(** [Object.entries(v).forEach(([key, x]) => { result[key] = f(x) })] *)
Definition forEntries {A} (f : Value -> Exc A) (v : Value) : Exc (list (string * A)) :=
  foldl
    (fun acc kx =>
       let! result := acc in
       let! y := f (snd kx) in
       ret (set result (fst kx) y))
    (ret []) (entriesOf v).

(** [v ? f(v) : undefined] *)
Definition whenTruthy {A} (v : Value) (f : Value -> Exc A) : Exc (option A) :=
  if truthy v then (let! a := f v in ret (Some a)) else ret None.

(** [transformImage(image)] *)
Definition transformImage (image : Value) : Exc Image :=
  match image with
  | Str s => ret (ImageString s)
  | _ =>
      let! name := (if typeof_object image then prop image "name" else ret Undefined) in
      if typeof_object image && truthy name then
        let! username := prop image "username" in
        let! password := prop image "password" in
        let! aws := prop image "aws" in
        let! hyphen := prop image "run-as-user" in
        let! camel := prop image "runAsUser" in
        ret (ImageOf {|
          image_name := name;
          image_username := username;
          image_password := password;
          image_aws := aws;
          image_runAsUser := or hyphen camel |})
      else throw (PipelineError VALIDATION_ERROR "Invalid image configuration")
  end.

(** [transformOptions(options)] *)
Definition transformOptions (options : Value) : Exc Options :=
  let! hyphen := prop options "max-time" in
  let! camel := prop options "maxTime" in
  let! size := prop options "size" in
  let! docker := prop options "docker" in
  ret {| options_maxTime := or hyphen camel; options_size := size; options_docker := docker |}.

(** [transformClone(clone)] *)
Definition transformClone (clone : Value) : Exc Clone :=
  let! enabled := prop clone "enabled" in
  let! depth := prop clone "depth" in
  let! lfs := prop clone "lfs" in
  ret {| clone_enabled := not_false enabled; clone_depth := depth; clone_lfs := lfs |}.

(** [transformArtifacts(artifacts)] *)
Definition transformArtifacts (artifacts : Value) : Exc Artifacts :=
  match artifacts with
  | Arr _ => ret {| paths := artifacts; download := None |}
  | _ =>
      let! p := prop artifacts "paths" in
      let! d := prop artifacts "download" in
      ret {| paths := or p (Arr []); download := Some (not_false d) |}
  end.

(** [transformCondition(condition)] *)
Definition transformCondition (condition : Value) : Exc Condition :=
  let! cs := prop condition "changesets" in
  let! changesets :=
    whenTruthy cs (fun cs =>
      let! includeCamel := prop cs "includePaths" in
      let! includeHyphen := prop cs "include-paths" in
      let! excludeCamel := prop cs "excludePaths" in
      let! excludeHyphen := prop cs "exclude-paths" in
      ret {| includePaths := or includeCamel includeHyphen;
             excludePaths := or excludeCamel excludeHyphen |}) in
  ret {| changesets := changesets |}.

Section Transform.
(** [JSON.stringify(step, null, 2)], used in one error message. *)
Variable stringify : Value -> string.

(** [transformStep(step)] *)
Definition transformStep (step : Value) : Exc Step :=
  let! script := prop step "script" in
  if negb (truthy script) then
    throw (PipelineError VALIDATION_ERROR
             ("Step must contain script. Got: " +:+ stringify step))
  else
    let! name := prop step "name" in
    let! image := prop step "image" in
    let! image := whenTruthy image transformImage in
    let! size := prop step "size" in
    let! maxTimeHyphen := prop step "max-time" in
    let! maxTimeCamel := prop step "maxTime" in
    let! caches := prop step "caches" in
    let! artifacts := prop step "artifacts" in
    let! artifacts := whenTruthy artifacts transformArtifacts in
    let! services := prop step "services" in
    let! trigger := prop step "trigger" in
    let! condition := prop step "condition" in
    let! condition := whenTruthy condition transformCondition in
    let! afterHyphen := prop step "after-script" in
    let! afterCamel := prop step "afterScript" in
    let! variables := prop step "variables" in
    let! deployment := prop step "deployment" in
    ret {|
      name := name;
      image := image;
      script := match script with Arr lines => lines | _ => [script] end;
      size := size;
      maxTime := or maxTimeHyphen maxTimeCamel;
      caches := caches;
      artifacts := artifacts;
      services := services;
      trigger := trigger;
      condition := condition;
      afterScript := or afterHyphen afterCamel;
      variables := variables;
      deployment := deployment |}.

(** [xs.map(f)] on a value that must be an array. *)
Definition mapArray {A} (what : string) (f : Value -> Exc A) (xs : Value) : Exc (list A) :=
  match xs with
  | Arr items => mapM f items
  | Undefined | Null =>
      throw (JsError "Cannot read properties of undefined (reading 'map')")
  | _ => throw (JsError (what +:+ ".map is not a function"))
  end.

(** The callback of [transformPipeline]. *)
Definition transformItem (item : Value) : Exc Item :=
  let! script := prop item "script" in
  let! name := prop item "name" in
  if truthy (or script name) then
    let! s := transformStep item in ret (ItemStep s)
  else
    let! inner := prop item "step" in
    if truthy inner then
      let! s := transformStep inner in ret (ItemStep s)
    else
      let! parallel := prop item "parallel" in
      if truthy parallel then
        let! ff := prop parallel "fail-fast" in
        let! steps := prop parallel "steps" in
        let! steps :=
          mapArray "item.parallel.steps"
            (fun step =>
               let! inner := prop step "step" in
               if truthy inner then transformStep inner else transformStep step)
            steps in
        ret (ItemParallel {| failFast := not_false ff; steps := steps |})
      else
        throw (PipelineError VALIDATION_ERROR
                 ("Pipeline item must contain either " +:+ quoted "step" +:+ " or " +:+ quoted "parallel")).

(** [transformPipeline(pipeline)] *)
Definition transformPipeline (pipeline : Value) : Exc (list Item) :=
  mapArray "pipeline" transformItem pipeline.

(** [transformPipelines(pipelines)] *)
Definition transformPipelines (pipelines : Value) : Exc (Pipelines (list Item)) :=
  let! d := prop pipelines "default" in
  let! d := whenTruthy d transformPipeline in
  let! b := prop pipelines "branches" in
  let! b := whenTruthy b (forEntries transformPipeline) in
  let! t := prop pipelines "tags" in
  let! t := whenTruthy t (forEntries transformPipeline) in
  let! pr := prop pipelines "pull-requests" in
  let! pr := whenTruthy pr (forEntries transformPipeline) in
  let! c := prop pipelines "custom" in
  let! c := whenTruthy c (forEntries transformPipeline) in
  ret {| default := d; branches := b; tags := t; bookmarks := None;
         pullrequests := pr; custom := c |}.

(** [transformDefinitions(definitions)] *)
Definition transformDefinitions (definitions : Value) : Exc Definitions :=
  let! c := prop definitions "caches" in
  let! sv := prop definitions "services" in
  let! sv :=
    whenTruthy sv (forEntries (fun service =>
      let! i := prop service "image" in
      let! v := prop service "variables" in
      let! p := prop service "ports" in
      let! m := prop service "memory" in
      ret {| service_image := i; service_variables := v;
             service_ports := p; service_memory := m |})) in
  let! st := prop definitions "steps" in
  let! st := whenTruthy st (forEntries transformStep) in
  ret {| definitions_caches := if truthy c then Some c else None;
         definitions_services := sv;
         definitions_steps := st |}.

(** [transformConfig(parsed)] *)
Definition transformConfig (parsed : Value) : Exc PipelineConfig :=
  let! i := prop parsed "image" in
  let! i := whenTruthy i transformImage in
  let! o := prop parsed "options" in
  let! o := whenTruthy o transformOptions in
  let! c := prop parsed "clone" in
  let! c := whenTruthy c transformClone in
  let! d := prop parsed "definitions" in
  let! d := whenTruthy d transformDefinitions in
  let! p := prop parsed "pipelines" in
  let! p := transformPipelines p in
  ret {| config_image := i; config_options := o; config_clone := c;
         config_definitions := d; config_pipelines := p |}.

(** [parse(yamlContent)], from what [YAML.parse(yamlContent)] gives. *)
Definition parse (yaml : Exc Value) : Exc PipelineConfig :=
  try_catch
    (let! parsed := yaml in
     if negb (truthy parsed) then
       throw (PipelineError YAML_PARSE_ERROR "Empty or invalid YAML content")
     else if negb (typeof_object parsed) then
       throw (PipelineError YAML_PARSE_ERROR "YAML root must be an object")
     else
       let! pipelines := prop parsed "pipelines" in
       if negb (truthy pipelines) then
         throw (PipelineError VALIDATION_ERROR "pipelines section is required")
       else transformConfig parsed)
    (fun error =>
       match error with
       | PipelineError _ _ => throw error
       | JsError message =>
           throw (PipelineError YAML_PARSE_ERROR ("YAML parse error: " +:+ message))
       | NotAnError => throw (PipelineError YAML_PARSE_ERROR "Unknown YAML parse error")
       end).
End Transform.

End Loader.

(** ** interfaces/index.ts: steps, results, options *)

Module Interfaces.

Record ImageConfig : Type := {
  image_name : string;
  username : option string;
  password : option string;
  runAsUser : option Z
}.

Record ArtifactConfig : Type := {
  paths : list string;
  download : option bool
}.

Record ConditionConfig : Type := {
  includePaths : option (list string);
  excludePaths : option (list string)
}.

Inductive Trigger : Type := automatic | manual.

Record Step : Type := {
  name : option string;
  image : option (string + ImageConfig);
  script : list string;
  size : option string;
  maxTime : option Z;
  caches : option (list string);
  artifacts : option ArtifactConfig;
  services : option (list string);
  trigger : option Trigger;
  condition : option ConditionConfig;
  afterScript : option (list string);
  variables : option (list (string * string));
  deployment : option string
}.

Record ParallelSteps : Type := {
  failFast : option bool;
  steps : list Step
}.

(** [Step | ParallelSteps], told apart by [isStep] and [isParallelSteps]. *)
Inductive PipelineItem : Type :=
| ItemStep (step : Step)
| ItemParallel (parallel : ParallelSteps).

Abbreviation Pipeline := (list PipelineItem).

Record CLIOptions : Type := {
  cli_pipeline : option string;
  cli_branch : option string;
  cli_custom : option string;
  cli_verbose : option bool;
  cli_dryRun : option bool;
  cli_configFile : option string;
  cli_envFile : option string;
  cli_clearCache : option bool
}.

Record ExecutionOptions : Type := {
  dryRun : bool;
  verbose : bool
}.

Record ExecutionContext : Type := {
  workspaceDir : string;
  artifactsDir : string;
  cacheDir : string;
  environment : list (string * Environment.EnvValue);
  network : option string
}.

Record ContainerResult : Type := {
  container_exitCode : Z;
  container_output : list string;
  container_error : option string;
  container_duration : nat
}.

Record StepResult : Type := {
  result_name : string;
  success : bool;
  exitCode : Z;
  duration : nat;
  logs : list string;
  error : option Thrown
}.

Record ExecutionResult : Type := {
  execution_success : bool;
  execution_steps : list StepResult;
  execution_duration : nat;
  execution_error : option Thrown
}.

Record LocalRunnerConfig : Type := {
  docker_networkName : option string;
  docker_defaultImage : option string;
  cache_path : string;
  artifacts_baseDir : string;
  environmentConfig : Environment.EnvironmentConfig
}.

End Interfaces.

(** ** core/runner.ts *)

Module Runner.
Import Interfaces.

(** What [record[key]] gives for a record of pipelines, when it is not
    [undefined]: the pipeline stored under [key], or the member that the
    record, a plain object whose prototype is [Object.prototype],
    inherits under that name. Both are truthy. *)
Inductive Selected (P : Type) : Type :=
| Own (pipeline : P)
| Inherited (name : string).
Arguments Own {P} pipeline.
Arguments Inherited {P} name.

(** [record && record[key]] *)
Definition lookup {P} (record : option (list (string * P))) (key : string)
    : option (Selected P) :=
  match record with
  | Some r =>
      match Js.get r key with
      | Some pipeline => Some (Own pipeline)
      | None =>
          if bool_decide (key ∈ Js.inheritedNames) then Some (Inherited key) else None
      end
  | None => None
  end.

(** [selectPipeline(config, options)], over [config.pipelines]. *)
Definition selectPipeline {P} (pipelines : Pipelines P) (options : CLIOptions)
    : Exc (Selected P) :=
  if Js.given (cli_custom options) then
    let name := Js.str_or (cli_custom options) EmptyString in
    match lookup (custom pipelines) name with
    | None =>
        throw (PipelineError VALIDATION_ERROR ("Custom pipeline not found: " +:+ name))
    | Some _ =>
        match lookup (custom pipelines) name with
        | None =>
            throw (PipelineError VALIDATION_ERROR ("Custom pipeline not found: " +:+ name))
        | Some member => ret member
        end
    end
  else if Js.given (cli_branch options) then
    let name := Js.str_or (cli_branch options) EmptyString in
    match lookup (branches pipelines) name with
    | None =>
        match default pipelines with
        | None =>
            throw (PipelineError VALIDATION_ERROR
                     ("No pipeline found for branch " +:+ name +:+ " and no default pipeline"))
        | Some pipeline => ret (Own pipeline)
        end
    | Some _ =>
        match lookup (branches pipelines) name with
        | None =>
            throw (PipelineError VALIDATION_ERROR ("Branch pipeline not found: " +:+ name))
        | Some member => ret member
        end
    end
  else if Js.given (cli_pipeline options) then
    let name := Js.str_or (cli_pipeline options) EmptyString in
    if String.eqb name "default" then
      match default pipelines with
      | None => throw (PipelineError VALIDATION_ERROR "Default pipeline not found")
      | Some pipeline => ret (Own pipeline)
      end
    else throw (PipelineError VALIDATION_ERROR ("Unknown pipeline: " +:+ name))
  else
    match default pipelines with
    | None => throw (PipelineError VALIDATION_ERROR "No default pipeline found")
    | Some pipeline => ret (Own pipeline)
    end.

(** [Object.keys(record).forEach(key => { pipelines.push(prefix + key) })] *)
Definition pushKeys {P} (prefix : string) (record : option (list (string * P)))
    (pipelines : list string) : list string :=
  match record with
  | Some r => foldl (fun acc key => acc ++ [prefix +:+ key]) pipelines (Js.keys r)
  | None => pipelines
  end.

(** [listPipelines()], from what [loadPipelineConfig()] gives. *)
Definition listPipelines {P} (loaded : Exc (Pipelines P)) : list string :=
  match loaded with
  | inr config =>
      let pipelines := [] in
      let pipelines :=
        match default config with
        | Some _ => pipelines ++ ["default"]
        | None => pipelines
        end in
      let pipelines := pushKeys "branches/" (branches config) pipelines in
      let pipelines := pushKeys "custom/" (custom config) pipelines in
      let pipelines := pushKeys "tags/" (tags config) pipelines in
      pipelines
  | inl _ => []
  end.

(** [Object.keys(record)] of an optional record. *)
Definition recordKeys {P} (record : option (list (string * P))) : list string :=
  match record with
  | Some r => Js.keys r
  | None => []
  end.

(** The list is in the order [Array.prototype.sort()] would give it. *)
Fixpoint sorted (labels : list string) : bool :=
  match labels with
  | a :: rest =>
      match rest with
      | b :: _ => String.leb a b && sorted rest
      | [] => true
      end
  | [] => true
  end.

(** The [pipelineContext] of [createExecutionContext]: [buildNumber] is
    [Date.now()], [basename] is [path.basename(process.cwd())]. *)
Definition pipelineContext (buildNumber : Z) (basename : string) (options : CLIOptions)
    : Environment.PipelineContext :=
  {| Environment.branch := Js.str_or (cli_branch options) "local";
     Environment.commit := "local-commit";
     Environment.buildNumber := buildNumber;
     Environment.repoName := basename;
     Environment.workspace := "local-workspace";
     Environment.repoSlug := basename;
     Environment.repoUuid := "{00000000-0000-0000-0000-000000000000}";
     Environment.stepName := None |}.

(** [createExecutionContext(config, options)]: the environment is
    computed once, before any step is looked at. *)
Definition createExecutionContext (config : LocalRunnerConfig) (host : Environment.Host)
    (gen : Environment.Generated) (buildNumber : Z) (basename : string)
    (options : CLIOptions) : ExecutionContext :=
  let workspaceDir := Environment.cwd host in
  let environment :=
    Environment.loadEnvironment (environmentConfig config) host (cli_envFile options) in
  let bitbucketVars :=
    Environment.getBitbucketVariables (environmentConfig config) gen
      (pipelineContext buildNumber basename options) in
  let mergedEnv := Environment.mergeEnvironments [environment; bitbucketVars] in
  {| workspaceDir := workspaceDir;
     artifactsDir := path_join (artifacts_baseDir config) "current";
     cacheDir := cache_path config;
     environment := mergedEnv;
     network := Some (Js.str_or (docker_networkName config) "bbpl-network") |}.

(** The [environment] of the [ContainerConfig] that
    [DockerManager.runStepContainer(step, context)] builds. *)
Definition containerEnvironment (step : Step) (context : ExecutionContext)
    : list (string * Environment.EnvValue) :=
  environment context.

(** The sources of a step's environment, lowest precedence first: the
    five that [loadEnvironment] reads, then the system variables. *)
Definition sources (config : LocalRunnerConfig) (host : Environment.Host)
    (gen : Environment.Generated) (buildNumber : Z) (basename : string)
    (options : CLIOptions) : list (list (string * Environment.EnvValue)) :=
  Environment.environments (environmentConfig config) host (cli_envFile options)
  ++ [Environment.getBitbucketVariables (environmentConfig config) gen
        (pipelineContext buildNumber basename options)].

(** *** The scheduler *)

(** What the collaborators do during one call of [executeStep]: how long
    the call takes, what [runStepContainer] returns or throws, and whether
    [saveCaches] and [saveArtifacts] throw. [restoreCaches] and
    [restoreArtifacts] catch their own errors. *)
Record StepEffects : Type := {
  elapsed : nat;
  runStepContainer : Exc ContainerResult;
  saveCaches : Exc unit;
  saveArtifacts : Exc unit
}.

(** A run: the clock, and the steps [executeStep] was called with so far,
    in call order. *)
Record Run : Type := mkRun {
  clock : nat;
  started : list Step
}.

Definition at_clock (now : nat) (run : Run) : Run :=
  mkRun now (started run).

Section Scheduler.
(** The collaborators, by the number of [executeStep] calls made before. *)
Variable behaviour : nat -> Step -> StepEffects.

(** The [try] block of [executeStep]. *)
Definition executeStep_body (stepName : string) (step : Step) (options : ExecutionOptions)
    (fx : StepEffects) : Exc StepResult :=
  if dryRun options then
    ret {| result_name := stepName; success := true; exitCode := 0;
           duration := elapsed fx;
           logs := ["Dry run - no actual execution"]; error := None |}
  else
    let! containerResult := runStepContainer fx in
    let! _ := (match caches step with Some _ => saveCaches fx | None => ret tt end) in
    let! _ := (match artifacts step with Some _ => saveArtifacts fx | None => ret tt end) in
    ret {| result_name := stepName;
           success := Z.eqb (container_exitCode containerResult) 0;
           exitCode := container_exitCode containerResult;
           duration := elapsed fx;
           logs := container_output containerResult;
           error := if Js.given (container_error containerResult)
                    then JsError <$> container_error containerResult
                    else None |}.

(** What [executeStep(step, context, options)] resolves to: the result
    of its [try] block, or the one its [catch] block builds. *)
Definition executeStep_result (step : Step) (options : ExecutionOptions) (fx : StepEffects)
    : StepResult :=
  let stepName := Js.str_or (name step) "Unnamed Step" in
  match executeStep_body stepName step options fx with
  | inr result => result
  | inl error =>
      {| result_name := stepName; success := false; exitCode := 1;
         duration := elapsed fx; logs := [];
         error := Some (asError "Unknown error" error) |}
  end.

(** [executeStep(step, context, options)]: the call is recorded, and the
    promise it returns settles [elapsed] later. *)
Definition executeStep (step : Step) (options : ExecutionOptions) (run : Run)
    : Js.Promise StepResult * Run :=
  let fx := behaviour (length (started run)) step in
  (Js.mkPromise (clock run + elapsed fx) (Js.Fulfilled (executeStep_result step options fx)),
   mkRun (clock run) (started run ++ [step])).

(** The result built for a promise that rejected. *)
Definition rejectedResult (step : Step) (index : nat) (fallback : string) (reason : Thrown)
    : StepResult :=
  {| result_name := Js.str_or (name step) ("Parallel Step " +:+ pretty (index + 1));
     success := false; exitCode := 1; duration := 0; logs := [];
     error := Some (asError fallback reason) |}.

(** [steps.map((step, index) => this.executeStep(...).catch(...))] *)
Fixpoint launch (steps : list Step) (index : nat) (options : ExecutionOptions) (run : Run)
    : list (Js.Promise StepResult) * Run :=
  match steps with
  | [] => ([], run)
  | step :: rest =>
      let '(p, run) := executeStep step options run in
      let p := Js.catch p (rejectedResult step index "Unknown error") in
      let '(ps, run) := launch rest (S index) options run in
      (p :: ps, run)
  end.

(** The two loops over [settledResults]. *)
Definition fulfilledOnly (settled : list (Js.Settled StepResult)) : list StepResult :=
  omap (fun r => match r with Js.Fulfilled v => Some v | Js.Rejected _ => None end) settled.

Definition settledOrFailed (steps : list Step) (settled : list (Js.Settled StepResult))
    : list StepResult :=
  imap
    (fun i r =>
       match r with
       | Js.Fulfilled v => v
       | Js.Rejected reason =>
           {| result_name :=
                Js.str_or (from_option name None (steps !! i))
                          ("Parallel Step " +:+ pretty (i + 1));
              success := false; exitCode := 1; duration := 0; logs := [];
              error := Some (asError "Step execution failed" reason) |}
       end)
    settled.

(** [executeParallelSteps(parallelSteps, context, options)]: what the
    returned promise settles to, and the run at that instant. *)
Definition executeParallelSteps (parallelSteps : ParallelSteps) (options : ExecutionOptions)
    (run : Run) : Exc (list StepResult) * Run :=
  let '(stepPromises, run) := launch (steps parallelSteps) 0 options run in
  if bool_decide (failFast parallelSteps = Some true) then
    match Js.await (clock run) (Js.all stepPromises) with
    | (now, Js.Fulfilled _) =>
        match Js.await now (Js.allSettled stepPromises) with
        | (now, Js.Fulfilled settledResults) =>
            (ret (fulfilledOnly settledResults), at_clock now run)
        | (now, Js.Rejected e) => (throw e, at_clock now run)
        end
    | (now, Js.Rejected _) =>
        match Js.await now (Js.allSettled stepPromises) with
        | (now, Js.Fulfilled settledResults) =>
            (ret (settledOrFailed (steps parallelSteps) settledResults), at_clock now run)
        | (now, Js.Rejected e) => (throw e, at_clock now run)
        end
    end
  else
    match Js.await (clock run) (Js.all stepPromises) with
    | (now, Js.Fulfilled results) => (ret results, at_clock now run)
    | (now, Js.Rejected e) => (throw e, at_clock now run)
    end.

(** The promises of the children of a group launched at instant [now]
    after [calls] earlier calls of [executeStep], and their results. *)
Fixpoint ownPromises (steps : list Step) (calls now : nat) (options : ExecutionOptions)
    : list (Js.Promise StepResult) :=
  match steps with
  | [] => []
  | step :: rest =>
      Js.mkPromise (now + elapsed (behaviour calls step))
        (Js.Fulfilled (executeStep_result step options (behaviour calls step)))
      :: ownPromises rest (S calls) now options
  end.

Fixpoint ownResults (steps : list Step) (calls : nat) (options : ExecutionOptions)
    : list StepResult :=
  match steps with
  | [] => []
  | step :: rest =>
      executeStep_result step options (behaviour calls step)
      :: ownResults rest (S calls) options
  end.

(** [await new Promise(resolve => setTimeout(resolve, 100))] *)
Definition spacing (run : Run) : Run := at_clock (clock run + 100) run.

(** The variables [success], [stepResults] and [error] of
    [executePipeline]. *)
Record Progress : Type := {
  progress_success : bool;
  stepResults : list StepResult;
  progress_error : option Thrown
}.

(** The [for] loop of [executePipeline] from item [pipeline[i]] on, with
    its [try]/[catch]: [items] are the items not yet visited. *)
Fixpoint executeItems (items : list PipelineItem) (options : ExecutionOptions)
    (results : list StepResult) (run : Run) : Progress * Run :=
  match items with
  | [] => ({| progress_success := true; stepResults := results; progress_error := None |}, run)
  | ItemStep step :: rest =>
      let '(promise, run) := executeStep step options run in
      match Js.await (clock run) promise with
      | (now, Js.Fulfilled result) =>
          let run := at_clock now run in
          let results := results ++ [result] in
          if negb (success result) then
            ({| progress_success := false; stepResults := results;
                progress_error := error result |}, run)
          else
            executeItems rest options results
              (match rest with [] => run | _ => spacing run end)
      | (now, Js.Rejected err) =>
          ({| progress_success := false; stepResults := results;
              progress_error := Some (asError "Unknown error" err) |}, at_clock now run)
      end
  | ItemParallel parallel :: rest =>
      match executeParallelSteps parallel options run with
      | (inr groupResults, run) =>
          let results := results ++ groupResults in
          let failedResults := filter (fun r => success r = false) groupResults in
          match failedResults with
          | failed :: _ =>
              ({| progress_success := false; stepResults := results;
                  progress_error := error failed |}, run)
          | [] =>
              executeItems rest options results
                (match rest with [] => run | _ => spacing run end)
          end
      | (inl err, run) =>
          ({| progress_success := false; stepResults := results;
              progress_error := Some (asError "Unknown error" err) |}, run)
      end
  end.

(** [executePipeline(pipeline, context, options)] *)
Definition executePipeline (pipeline : Pipeline) (options : ExecutionOptions) (run : Run)
    : ExecutionResult * Run :=
  let startTime := clock run in
  let '(progress, run) := executeItems pipeline options [] run in
  ({| execution_success := progress_success progress;
      execution_steps := stepResults progress;
      execution_duration := clock run - startTime;
      execution_error := progress_error progress |}, run).

End Scheduler.

(** The steps [executeStep] is called with when an item runs. *)
Definition itemSteps (item : PipelineItem) : list Step :=
  match item with
  | ItemStep step => [step]
  | ItemParallel parallel => steps parallel
  end.

(** A result says [success] exactly when its exit code is 0. *)
Definition consistent (r : StepResult) : Prop := success r = Z.eqb (exitCode r) 0.

(** The result the [catch] handlers build for a child that did not
    resolve by itself: a failure with exit code 1 and nothing measured. *)
Definition syntheticFailure (r : StepResult) : Prop :=
  success r = false ∧ exitCode r = 1%Z ∧ duration r = 0 ∧ logs r = [].

End Runner.

(** ** managers/artifact-manager.ts *)

Module Artifacts.

(** Strings are read as their UTF-8 bytes. A character outside ASCII is
    one or two UTF-16 units for the regular expression and two to four
    bytes here; either way it turns into a run of underscores, which the
    second replacement collapses to one. *)

Definition between (lo hi : nat) (c : ascii) : bool :=
  (lo <=? Ascii.nat_of_ascii c)%nat && (Ascii.nat_of_ascii c <=? hi)%nat.

Definition is_lower (c : ascii) : bool := between 97 122 c.
Definition is_upper (c : ascii) : bool := between 65 90 c.
Definition is_digit (c : ascii) : bool := between 48 57 c.
Definition is_underscore (c : ascii) : bool := Ascii.eqb c "_".
Definition is_hyphen (c : ascii) : bool := Ascii.eqb c "-".

(** The class [[a-zA-Z0-9_-]]. *)
Definition allowed (c : ascii) : bool :=
  is_lower c || is_upper c || is_digit c || is_underscore c || is_hyphen c.

(** [.replace(/[^a-zA-Z0-9_-]/g, '_')] *)
Fixpoint replaceDisallowed (s : string) : string :=
  match s with
  | EmptyString => EmptyString
  | String c s' => String (if allowed c then c else "_"%char) (replaceDisallowed s')
  end.

(** [.replace(/_{2,}/g, '_')]: an underscore followed by another one goes. *)
Fixpoint collapseUnderscores (s : string) : string :=
  match s with
  | EmptyString => EmptyString
  | String c s' =>
      match s' with
      | String c' _ =>
          if is_underscore c && is_underscore c'
          then collapseUnderscores s'
          else String c (collapseUnderscores s')
      | EmptyString => String c EmptyString
      end
  end.

(** The alternative [^_+] of the third replacement. *)
Fixpoint trimLeading (s : string) : string :=
  match s with
  | EmptyString => EmptyString
  | String c s' => if is_underscore c then trimLeading s' else s
  end.

(** The alternative [_+$] of the third replacement. *)
Fixpoint trimTrailing (s : string) : string :=
  match s with
  | EmptyString => EmptyString
  | String c s' =>
      match trimTrailing s' with
      | EmptyString => if is_underscore c then EmptyString else String c EmptyString
      | t => String c t
      end
  end.

(** [.replace(/^_+|_+$/g, '')] *)
Definition trimUnderscores (s : string) : string := trimTrailing (trimLeading s).

(** [.toLowerCase()], on the ASCII letters: after the first replacement
    the string holds no other letter. *)
Definition lowerChar (c : ascii) : ascii :=
  if is_upper c then Ascii.ascii_of_nat (Ascii.nat_of_ascii c + 32) else c.

Fixpoint toLowerCase (s : string) : string :=
  match s with
  | EmptyString => EmptyString
  | String c s' => String (lowerChar c) (toLowerCase s')
  end.

(** [sanitizeStepName(stepName)] *)
Definition sanitizeStepName (stepName : string) : string :=
  toLowerCase (trimUnderscores (collapseUnderscores (replaceDisallowed stepName))).

(** A string of the language [[a-z0-9_-]*]. *)
Definition is_slug_char (c : ascii) : bool :=
  is_lower c || is_digit c || is_underscore c || is_hyphen c.

Fixpoint all_chars (p : ascii -> bool) (s : string) : bool :=
  match s with
  | EmptyString => true
  | String c s' => p c && all_chars p s'
  end.

Fixpoint any_char (p : ascii -> bool) (s : string) : bool :=
  match s with
  | EmptyString => false
  | String c s' => p c || any_char p s'
  end.

(** [s] matches [^[a-z0-9_-]+$]. *)
Definition matches_slug (s : string) : bool :=
  all_chars is_slug_char s && negb (String.eqb s EmptyString).

(** A letter, a digit or a hyphen: what survives the trimming. *)
Definition is_name_char (c : ascii) : bool := allowed c && negb (is_underscore c).

(** No two underscores in a row. *)
Fixpoint no_double_underscore (s : string) : bool :=
  match s with
  | EmptyString => true
  | String c s' =>
      match s' with
      | String c' _ => negb (is_underscore c && is_underscore c') && no_double_underscore s'
      | EmptyString => true
      end
  end.

Definition starts_with_underscore (s : string) : bool :=
  match s with
  | String c _ => is_underscore c
  | EmptyString => false
  end.

Fixpoint ends_with_underscore (s : string) : bool :=
  match s with
  | EmptyString => false
  | String c s' =>
      match s' with
      | EmptyString => is_underscore c
      | _ => ends_with_underscore s'
      end
  end.

(** What every result of [sanitizeStepName] looks like. *)
Definition tidy (s : string) : bool :=
  all_chars is_slug_char s && no_double_underscore s
  && negb (starts_with_underscore s) && negb (ends_with_underscore s).

End Artifacts.

(** ** managers/cache-manager.ts *)

Module Cache.

Abbreviation Bytes := (list Byte.byte).

(** [getCachePath(cacheName)] *)
Definition getCachePath (dir cacheName : string) : string :=
  path_join dir (cacheName +:+ ".tar.gz").

(** [`${cacheFilePath}.tmp`] *)
Definition tempCacheFilePath (dir cacheName : string) : string :=
  getCachePath dir cacheName +:+ ".tmp".

(** [path.join(this.config.path, '.metadata.json')] *)
Definition metadataPath (dir : string) : string :=
  path_join dir ".metadata.json".

(** One call [saveCache(cacheName, sourcePath)]: [tarball] is what
    [tar.create] writes for [sourcePath] when it runs to its end, [None]
    when [fs.access(sourcePath)] fails; [sidecar] is the text
    [saveCacheMetadata] writes at the end of the call. *)
Record SaveCall : Type := {
  sourcePath : string;
  tarball : option Bytes;
  sidecar : Bytes
}.

(** Where a [saveCache] call stands: each constructor is the operation
    the call awaits next. *)
Inductive SavePoint : Type :=
| SaveAccess                          (* fs.access(sourcePath) *)
| SaveMkdir (archive : Bytes)         (* fs.mkdir(this.config.path) *)
| SaveOpen (archive : Bytes)          (* tar.create: open the temporary file *)
| SaveWrite (archive : Bytes) (written : nat)  (* tar.create: write the next chunk *)
| SaveRename (archive : Bytes)        (* fs.rename(temp, final) *)
| SaveMetadata                        (* fs.stat, hashes, saveCacheMetadata *)
| SaveReturned
| SaveThrew.

(** Where the [restoreCache] call stands, and what it has extracted.
    [tar.extract] reads the archive through the file it has opened: a
    rename of the path while it reads leaves it on the file it has. *)
Inductive RestorePoint : Type :=
| RestoreAccess                       (* fs.access(cacheFilePath) *)
| RestoreMkdir                        (* fs.mkdir(targetDir) *)
| RestoreExtract                      (* tar.extract *)
| RestoreMetadata (extracted : Bytes) (* getCacheMetadata, saveCacheMetadata *)
| RestoreReturned (result : bool) (extracted : option Bytes).

(** The files by path, the save call in flight and those still to come,
    the restore call, and the calls whose rename has happened. *)
Record World : Type := mkWorld {
  files : gmap string Bytes;
  saving : option (SaveCall * SavePoint);
  queue : list SaveCall;
  restoring : RestorePoint;
  published : list SaveCall
}.

(** One turn of the event loop: which call runs up to its next [await],
    whether the operation it awaited failed, and, for [tar.create], how
    many bytes the next chunk holds; for the restorer, the sidecar text
    [saveCacheMetadata] writes when the cache has metadata. *)
Inductive Tick : Type :=
| TickSave (chunk : nat) (ioError : bool)
| TickRestore (ioError : bool) (sidecar : option Bytes).

Section Steps.
(** [this.config.path] and the cache name of every call. *)
Variable dir : string.
Variable cacheName : string.

Definition stepSave (call : SaveCall) (point : SavePoint) (chunk : nat) (ioError : bool)
    (w : World) : World :=
  let at_point p := mkWorld (files w) (Some (call, p)) (queue w) (restoring w) (published w) in
  match point with
  | SaveAccess =>
      match tarball call with
      | None => at_point SaveReturned
      | Some archive => at_point (SaveMkdir archive)
      end
  | SaveMkdir archive =>
      if ioError then at_point SaveThrew else at_point (SaveOpen archive)
  | SaveOpen archive =>
      if ioError then at_point SaveThrew
      else
        mkWorld (<[tempCacheFilePath dir cacheName := []]> (files w))
                (Some (call, SaveWrite archive 0)) (queue w) (restoring w) (published w)
  | SaveWrite archive written =>
      if (length archive <=? written)%nat then at_point (SaveRename archive)
      else if ioError then at_point SaveThrew
      else
        let written := written + S chunk in
        mkWorld (<[tempCacheFilePath dir cacheName := take written archive]> (files w))
                (Some (call, SaveWrite archive written)) (queue w) (restoring w) (published w)
  | SaveRename archive =>
      if ioError then at_point SaveThrew
      else
        match files w !! tempCacheFilePath dir cacheName with
        | None => at_point SaveThrew
        | Some content =>
            mkWorld (<[getCachePath dir cacheName := content]>
                       (delete (tempCacheFilePath dir cacheName) (files w)))
                    (Some (call, SaveMetadata)) (queue w) (restoring w)
                    (published w ++ [call])
        end
  | SaveMetadata =>
      if ioError then at_point SaveThrew
      else
        mkWorld (<[metadataPath dir := sidecar call]> (files w))
                (Some (call, SaveReturned)) (queue w) (restoring w) (published w)
  | SaveReturned | SaveThrew => w
  end.

Definition stepRestore (point : RestorePoint) (ioError : bool) (sidecar : option Bytes)
    (w : World) : World :=
  let at_point p := mkWorld (files w) (saving w) (queue w) p (published w) in
  match point with
  | RestoreAccess =>
      match files w !! getCachePath dir cacheName with
      | None => at_point (RestoreReturned false None)
      | Some _ => at_point RestoreMkdir
      end
  | RestoreMkdir =>
      if ioError then at_point (RestoreReturned false None) else at_point RestoreExtract
  | RestoreExtract =>
      match files w !! getCachePath dir cacheName with
      | None => at_point (RestoreReturned false None)
      | Some content =>
          if ioError then at_point (RestoreReturned false None)
          else at_point (RestoreMetadata content)
      end
  | RestoreMetadata extracted =>
      mkWorld
        (match sidecar with
         | Some text => <[metadataPath dir := text]> (files w)
         | None => files w
         end)
        (saving w) (queue w) (RestoreReturned true (Some extracted)) (published w)
  | RestoreReturned _ _ => w
  end.

(** One turn. The saver takes the next call of its queue when the call in
    flight has returned or thrown. *)
Definition step (w : World) (t : Tick) : World :=
  match t with
  | TickSave chunk ioError =>
      match saving w with
      | Some (_, SaveReturned) | Some (_, SaveThrew) | None =>
          match queue w with
          | next :: rest =>
              mkWorld (files w) (Some (next, SaveAccess)) rest (restoring w) (published w)
          | [] => w
          end
      | Some (call, point) => stepSave call point chunk ioError w
      end
  | TickRestore ioError sidecar => stepRestore (restoring w) ioError sidecar w
  end.

(** The turns of a schedule, in order. *)
Definition run (schedule : list Tick) (w : World) : World := foldl step w schedule.

(** The process starts with [calls] to make and a restore to run, over
    the files [files0]. *)
Definition start (files0 : gmap string Bytes) (calls : list SaveCall) : World :=
  mkWorld files0 None calls RestoreAccess [].

End Steps.

(** The last character of a path. *)
Fixpoint last_char (s : string) : option ascii :=
  match s with
  | EmptyString => None
  | String c s' =>
      match last_char s' with
      | Some c' => Some c'
      | None => Some c
      end
  end.

(** [b] is the whole archive of a save that has been moved into place:
    the one found at the start of the process, left by an earlier run, or
    the tarball of a call whose rename has happened. *)
Definition complete (initial : option Bytes) (w : World) (b : Bytes) : Prop :=
  initial = Some b ∨ ∃ call, call ∈ published w ∧ tarball call = Some b.

(** What holds of the files while calls are in flight. *)
Definition consistent_files (dir cacheName : string) (w : World) : Prop :=
  match saving w with
  | Some (call, SaveMkdir archive) | Some (call, SaveOpen archive) =>
      tarball call = Some archive
  | Some (call, SaveWrite archive written) =>
      tarball call = Some archive ∧
      files w !! tempCacheFilePath dir cacheName = Some (take written archive)
  | Some (call, SaveRename archive) =>
      tarball call = Some archive ∧
      files w !! tempCacheFilePath dir cacheName = Some archive
  | _ => True
  end.

Definition consistent_restore (initial : option Bytes) (w : World) : Prop :=
  match restoring w with
  | RestoreMetadata extracted => complete initial w extracted
  | RestoreReturned true (Some extracted) => complete initial w extracted
  | RestoreReturned true None => False
  | RestoreReturned false (Some _) => False
  | _ => True
  end.

Definition consistent_calls (calls : list SaveCall) (w : World) : Prop :=
  (∀ call, call ∈ published w → call ∈ calls) ∧
  (∀ call point, saving w = Some (call, point) → call ∈ calls) ∧
  (∀ call, call ∈ queue w → call ∈ calls).

(** The invariant of the cache directory. *)
Definition invariant (dir cacheName : string) (initial : option Bytes)
    (calls : list SaveCall) (w : World) : Prop :=
  (∀ b, files w !! getCachePath dir cacheName = Some b → complete initial w b) ∧
  consistent_files dir cacheName w ∧
  consistent_restore initial w ∧
  consistent_calls calls w.

End Cache.

(** ** Scenarios *)

Module Scenarios.
Import Interfaces.

(** A runner configuration without default variables. *)
Definition plainConfig : LocalRunnerConfig :=
  {| docker_networkName := None; docker_defaultImage := None;
     cache_path := "/home/dev/.bitbucket-pipelines-local/cache";
     artifacts_baseDir := "/home/dev/.bitbucket-pipelines-local/artifacts";
     environmentConfig :=
       {| Environment.bitbucketVariables := None;
          Environment.secureVariables := None;
          Environment.envFile := None |} |}.

(** A process started with [BITBUCKET_TAG=v1.0] and no environment file. *)
Definition taggedHost : Environment.Host :=
  {| Environment.processEnv := [("BITBUCKET_TAG", Environment.EnvStr "v1.0")];
     Environment.cwd := "/repo";
     Environment.loadEnvFile := fun _ => None |}.

Definition someGenerated : Environment.Generated :=
  {| Environment.pipelineUuid := "11111111-1111-4111-8111-111111111111";
     Environment.stepUuid := "22222222-2222-4222-8222-222222222222";
     Environment.triggererUuid := "33333333-3333-4333-8333-333333333333";
     Environment.executionId := "1700000000000-abc123";
     Environment.executionTime := "2023-11-14T22:13:20.000Z" |}.

Definition noOptions : CLIOptions :=
  {| cli_pipeline := None; cli_branch := None; cli_custom := None;
     cli_verbose := None; cli_dryRun := None; cli_configFile := None;
     cli_envFile := None; cli_clearCache := None |}.

(** A step running [script], with nothing else set. *)
Definition scriptStep (stepName : string) (script : list string) : Step :=
  {| name := Some stepName; image := None; script := script; size := None;
     maxTime := None; caches := None; artifacts := None; services := None;
     trigger := None; condition := None; afterScript := None; variables := None;
     deployment := None |}.

(** A step that sets [GREETING] among its own variables. *)
Definition greetingStep : Step :=
  {| name := Some "greet"; image := None; script := ["echo $GREETING"]; size := None;
     maxTime := None; caches := None; artifacts := None; services := None;
     trigger := None; condition := None; afterScript := None;
     variables := Some [("GREETING", "hello")];
     deployment := None |}.

(** A call of [executeStep] whose container exits with [code] after
    [after] milliseconds, the saves going well. *)
Definition exits (code : Z) (after : nat) : Runner.StepEffects :=
  {| Runner.elapsed := after;
     Runner.runStepContainer :=
       ret {| container_exitCode := code; container_output := [];
              container_error :=
                if Z.eqb code 0 then None
                else Some ("Container exited with code " +:+ pretty code);
              container_duration := after |};
     Runner.saveCaches := ret tt;
     Runner.saveArtifacts := ret tt |}.

(** The first call fails after 20 ms, every other call succeeds. *)
Definition firstCallFails (calls : nat) (step : Step) : Runner.StepEffects :=
  match calls with
  | 0 => exits 1 20
  | _ => exits 0 30
  end.

(** S3: the first child sleeps for 5 s and succeeds, the second fails at
    once. *)
Definition sleeperAndFailure (calls : nat) (step : Step) : Runner.StepEffects :=
  match calls with
  | 0 => exits 0 5000
  | _ => exits 1 10
  end.

(** The first child fails with exit code 2 after 5 s, the second fails
    with exit code 1 at once. *)
Definition lateAndEarlyFailure (calls : nat) (step : Step) : Runner.StepEffects :=
  match calls with
  | 0 => exits 2 5000
  | _ => exits 1 10
  end.

Definition twoChildren : ParallelSteps :=
  {| failFast := Some true;
     steps := [scriptStep "slow" ["sleep 5; true"]; scriptStep "quick" ["false"]] |}.

Definition realRun : ExecutionOptions := {| dryRun := false; verbose := false |}.

Definition freshRun : Runner.Run := Runner.mkRun 0 [].

(** S2: a failing step, then a step that must not run. *)
Definition shortCircuitPipeline : Pipeline :=
  [ItemStep (scriptStep "first" ["false"]); ItemStep (scriptStep "second" ["echo never"])].

(** S6: [custom.release] and [default] are defined, no branch pipeline. *)
Definition releaseAndDefault : Pipelines Pipeline :=
  {| default := Some [ItemStep (scriptStep "build" ["make"])];
     branches := None; tags := None; bookmarks := None; pullrequests := None;
     custom := Some [("release", [ItemStep (scriptStep "release" ["make release"])])] |}.

(** The intent [{custom: name}]. *)
Definition customOption (name : string) : CLIOptions :=
  {| cli_pipeline := None; cli_branch := None; cli_custom := Some name;
     cli_verbose := None; cli_dryRun := None; cli_configFile := None;
     cli_envFile := None; cli_clearCache := None |}.

(** A default pipeline and one for the branch [main]. *)
Definition defaultAndMain : Pipelines Pipeline :=
  {| default := Some [ItemStep (scriptStep "build" ["make"])];
     branches := Some [("main", [ItemStep (scriptStep "deploy" ["make deploy"])])];
     tags := None; bookmarks := None; pullrequests := None; custom := None |}.

(** A step of the document that gives [max-time] and [maxTime], and
    [after-script] and [afterScript]. *)
Definition bothSpellingsFields : list (string * Js.Value) :=
  [ ("script", Js.Arr [Js.Str "make"]);
    ("max-time", Js.Num 10);
    ("maxTime", Js.Num 20);
    ("after-script", Js.Arr [Js.Str "echo hyphen"]);
    ("afterScript", Js.Arr [Js.Str "echo camel"]) ].

Definition bothSpellings : Js.Value := Js.Object bothSpellingsFields.

(** A step of the document whose artifacts are a bare list. *)
Definition bareArtifactsFields : list (string * Js.Value) :=
  [ ("script", Js.Arr [Js.Str "make"]);
    ("artifacts", Js.Arr [Js.Str "dist/**"]) ].

Definition bareArtifacts : Js.Value := Js.Object bareArtifactsFields.

(** S3 as a document: a parallel group of two steps under [default]. *)
Definition parallelDocument : Js.Value :=
  Js.Object
    [ ("image", Js.Str "node:18");
      ("pipelines",
        Js.Object
          [ ("default",
              Js.Arr
                [ Js.Object
                    [ ("parallel",
                        Js.Object
                          [ ("steps",
                              Js.Arr
                                [ Js.Object
                                    [("step", Js.Object
                                        [("script", Js.Arr [Js.Str "sleep 5; true"])])];
                                  Js.Object
                                    [("step", Js.Object
                                        [("script", Js.Str "false")])] ]) ]) ] ]) ]) ].

(** [JSON.stringify] is only called on a step without a script. *)
Definition noStringify (v : Js.Value) : string := EmptyString.

(** Two saves of the cache [node], and the schedule that runs the first
    to its end, the second up to its first chunk, and then the restore. *)
Definition firstSave : Cache.SaveCall :=
  {| Cache.sourcePath := "/repo/node_modules";
     Cache.tarball := Some [Byte.x01; Byte.x02; Byte.x03];
     Cache.sidecar := [Byte.x7b; Byte.x7d] |}.

Definition secondSave : Cache.SaveCall :=
  {| Cache.sourcePath := "/repo/node_modules";
     Cache.tarball := Some [Byte.x04; Byte.x05; Byte.x06; Byte.x07];
     Cache.sidecar := [Byte.x7b; Byte.x7d] |}.

Definition restoreDuringSecondSave : list Cache.Tick :=
  replicate 9 (Cache.TickSave 1 false)
  ++ replicate 5 (Cache.TickSave 0 false)
  ++ replicate 4 (Cache.TickRestore false None).

(** Two saves of the same cache that overlap, which a sequence of saves
    never does: the first has written its whole archive when the second
    opens the same temporary file and writes its first byte; then the
    first renames, and a restore runs. *)
Definition overlappingSaves : Cache.World :=
  let first := [Byte.x01; Byte.x02; Byte.x03] in
  let second := [Byte.x04; Byte.x05; Byte.x06; Byte.x07] in
  let w := Cache.start ∅ [] in
  let w := Cache.stepSave "/cache" "node" firstSave (Cache.SaveOpen first) 0 false w in
  let w := Cache.stepSave "/cache" "node" firstSave (Cache.SaveWrite first 0) 2 false w in
  let w := Cache.stepSave "/cache" "node" secondSave (Cache.SaveOpen second) 0 false w in
  let w := Cache.stepSave "/cache" "node" secondSave (Cache.SaveWrite second 0) 0 false w in
  let w := Cache.stepSave "/cache" "node" firstSave (Cache.SaveRename first) 0 false w in
  Cache.run "/cache" "node" (replicate 4 (Cache.TickRestore false None)) w.

End Scenarios.

(** ** String methods *)

Module Text.

(** [s.startsWith(prefix)] *)
Definition startsWith (prefix s : string) : bool := String.prefix prefix s.

(** [s.slice(n)] *)
Fixpoint slice (n : nat) (s : string) : string :=
  match n, s with
  | 0, _ => s
  | S n, String _ rest => slice n rest
  | S _, EmptyString => EmptyString
  end.

(** [s.endsWith(suffix)] *)
Definition endsWith (suffix s : string) : bool :=
  (String.length suffix <=? String.length s)%nat
  && String.eqb (slice (String.length s - String.length suffix) s) suffix.

(** [s.includes(pattern)] *)
Fixpoint includes (pattern s : string) : bool :=
  startsWith pattern s
  || match s with
     | EmptyString => false
     | String _ rest => includes pattern rest
     end.

(** [s.replace(pattern, replacement)] for a string [pattern]: the first
    occurrence is replaced. *)
Fixpoint replace (pattern replacement s : string) : string :=
  if startsWith pattern s then replacement +:+ slice (String.length pattern) s
  else
    match s with
    | EmptyString => EmptyString
    | String c rest => String c (replace pattern replacement rest)
    end.

End Text.

(** ** managers/cache-manager.ts: the cache directory *)

Module CacheDirectory.

(** What [fs.readdir(this.config.path)] gives: the names in the
    directory, or an error with the code [ENOENT] or another one. *)
Inductive Readdir : Type :=
| Entries (files : list string)
| NoEntry (e : Thrown)
| ReadFailed (e : Thrown).

(** The name of the file [getCachePath(cacheName)] inside the cache
    directory, and of the temporary file [saveCache] writes first. *)
Definition archiveName (cacheName : string) : string := cacheName +:+ ".tar.gz".
Definition temporaryName (cacheName : string) : string := archiveName cacheName +:+ ".tmp".
Definition metadataName : string := ".metadata.json".

(** [listCaches()] *)
Definition listCaches (readdir : Readdir) : Exc (list string) :=
  match readdir with
  | Entries cacheFiles =>
      ret (map (Text.replace ".tar.gz" "")
             (List.filter (Text.endsWith ".tar.gz") cacheFiles))
  | NoEntry _ => ret []
  | ReadFailed e => throw e
  end.

(** What [fs.unlink] does to one file. *)
Inductive Unlink : Type :=
| Removed
| Missing (e : Thrown)
| UnlinkFailed (e : Thrown).

(** The loop of [clearCache()] over [files]: the names left in the
    directory, and the error that ended the loop, if one did. *)
Fixpoint unlinkAll (unlink : string -> Unlink) (files : list string)
    : list string * option Unlink :=
  match files with
  | [] => ([], None)
  | file :: rest =>
      if Text.endsWith ".tar.gz" file then
        match unlink file with
        | Removed => unlinkAll unlink rest
        | Missing e => (rest, Some (Missing e))
        | UnlinkFailed e => (file :: rest, Some (UnlinkFailed e))
        end
      else
        let '(kept, failure) := unlinkAll unlink rest in (file :: kept, failure)
  end.

(** [clearCache()] without a cache name: the names left in the
    directory. An error of [fs.readdir] or [fs.unlink] ends the loop; it
    is dropped when its code is [ENOENT] and wrapped otherwise.
    [saveCacheMetadata] then leaves the sidecar in the directory unless
    it fails, which it does silently. *)
Definition clearCache (readdir : Readdir) (unlink : string -> Unlink)
    (metadataSaved : bool) : Exc (list string) :=
  let wrapped (e : Thrown) : Thrown :=
    PipelineError FILE_SYSTEM_ERROR
      ("Failed to clear cache: "
       +:+ match e with
           | PipelineError _ message | JsError message => message
           | NotAnError => "Unknown error"
           end) in
  let withMetadata (files : list string) : list string :=
    if metadataSaved && negb (bool_decide (metadataName ∈ files))
    then files ++ [metadataName] else files in
  match readdir with
  | Entries files =>
      match unlinkAll unlink files with
      | (kept, None) | (kept, Some Removed) | (kept, Some (Missing _)) =>
          ret (withMetadata kept)
      | (_, Some (UnlinkFailed e)) => throw (wrapped e)
      end
  | NoEntry _ => ret (withMetadata [])
  | ReadFailed e => throw (wrapped e)
  end.

End CacheDirectory.

(** ** managers/environment-manager.ts: validation and statistics *)

Module EnvironmentChecks.
Import Environment.

Definition is_letter (c : ascii) : bool := Artifacts.is_lower c || Artifacts.is_upper c.

Definition is_word (c : ascii) : bool :=
  is_letter c || Artifacts.is_digit c || Artifacts.is_underscore c.

(** [isValidVariableName(name)]: [/^[A-Z_][A-Z0-9_]*$/i] *)
Definition isValidVariableName (name : string) : bool :=
  match name with
  | String c rest =>
      (is_letter c || Artifacts.is_underscore c) && Artifacts.all_chars is_word rest
  | EmptyString => false
  end.

Definition requiredVars : list string :=
  ["BITBUCKET_WORKSPACE"; "BITBUCKET_REPO_SLUG"; "BITBUCKET_BUILD_NUMBER"].

(** [!env[varName]] *)
Definition missing (env : Env) (varName : string) : bool :=
  match Js.get env varName with
  | Some value => negb (bindable value)
  | None => true
  end.

(** [validateEnvironmentVariables(env)] *)
Definition validateEnvironmentVariables (env : Env) : list string :=
  let errors : list string := [] in
  let errors :=
    foldl
      (fun errors varName =>
         if missing env varName
         then errors ++ ["Required variable " +:+ varName +:+ " is missing"]
         else errors)
      errors requiredVars in
  foldl
    (fun errors varName =>
       if negb (isValidVariableName varName)
       then errors ++ ["Invalid variable name: " +:+ varName]
       else errors)
    errors (Js.keys env).

(** [EnvironmentStats] *)
Record EnvironmentStats : Type := {
  totalVariables : nat;
  bitbucketVariables : nat;
  systemVariables : nat;
  customVariables : nat
}.

(** [getEnvironmentStats(env)] *)
Definition getEnvironmentStats (env : Env) : EnvironmentStats :=
  let bitbucketVars := List.filter (Text.startsWith "BITBUCKET_") (Js.keys env) in
  let systemVars := List.filter (Text.startsWith "BBPL_") (Js.keys env) in
  let customVars :=
    List.filter
      (fun key =>
         negb (Text.startsWith "BITBUCKET_" key) && negb (Text.startsWith "BBPL_" key)
         && negb (Text.startsWith "PATH" key))
      (Js.keys env) in
  {| totalVariables := length (Js.keys env);
     bitbucketVariables := length bitbucketVars;
     systemVariables := length systemVars;
     customVariables := length customVars |}.

End EnvironmentChecks.

(** ** managers/docker-manager.ts *)

Module Docker.
Import Environment.

(** [`${value}`] *)
Definition valueText (value : EnvValue) : string :=
  match value with
  | EnvStr s => s
  | EnvUndefined => "undefined"
  | EnvNull => "null"
  end.

(** The [Env] of the container that [createContainer(config)] creates:
    [Object.entries(config.environment).map(([key, value]) => `${key}=${value}`)] *)
Definition containerEnv (environment : Env) : list string :=
  map (fun kv => fst kv +:+ "=" +:+ valueText (snd kv)) (Js.entries environment).

(** [\d+] *)
Definition digits (s : string) : bool :=
  Artifacts.all_chars Artifacts.is_digit s && negb (String.eqb s "").

(** [[kmg]] under the flag [i] *)
Definition is_unit (c : ascii) : bool :=
  bool_decide (c ∈ ["k"; "m"; "g"; "K"; "M"; "G"]%char).

(** The last character of [s] as a string, and what comes before it. *)
Fixpoint splitLast (s : string) : string * string :=
  match s with
  | EmptyString => (EmptyString, EmptyString)
  | String c EmptyString => (EmptyString, String c EmptyString)
  | String c rest => let '(body, last) := splitLast rest in (String c body, last)
  end.

(** The two groups of [limit.match(/^(\d+)([kmg]?)$/i)]. *)
Definition limitGroups (limit : string) : option (string * string) :=
  if digits limit then Some (limit, EmptyString)
  else
    match splitLast limit with
    | (body, String c EmptyString) =>
        if digits body && is_unit c then Some (body, String c EmptyString) else None
    | _ => None
    end.

(** [parseInt(s, 10)] of a string of digits. The number is the exact one
    as long as it is below [2^53]. *)
Definition parseInt (s : string) : Z :=
  foldl (fun value c => value * 10 + (Z.of_nat (Ascii.nat_of_ascii c) - 48))%Z 0%Z
        (String.list_ascii_of_string s).

(** [parseMemoryLimit(limit)] *)
Definition parseMemoryLimit (limit : string) : Z :=
  match limitGroups limit with
  | None => 0
  | Some (number, unit) =>
      let value := parseInt number in
      let unit := Artifacts.toLowerCase unit in
      if String.eqb unit "k" then value * 1024
      else if String.eqb unit "m" then value * 1024 * 1024
      else if String.eqb unit "g" then value * 1024 * 1024 * 1024
      else value
  end%Z.

End Docker.

(** ** managers/config-manager.ts: limits *)

Module Limits.

(** After a digit of [/^\d+[kmg]?$/i]: more digits, then at most one
    unit, then the end. *)
Fixpoint afterDigit (s : string) : bool :=
  match s with
  | EmptyString => true
  | String c rest =>
      if Artifacts.is_digit c then afterDigit rest
      else Docker.is_unit c && String.eqb rest ""
  end.

(** [isValidMemoryLimit(limit)]: [/^\d+[kmg]?$/i.test(limit)] *)
Definition isValidMemoryLimit (limit : string) : bool :=
  match limit with
  | String c rest => Artifacts.is_digit c && afterDigit rest
  | EmptyString => false
  end.

End Limits.

(** ** core/runner.ts: the [clear] command *)

Module Commands.

(** The argument of [clearCache]: each flag is [true], [false] or absent. *)
Record ClearOptions : Type := {
  clear_cache : option bool;
  clear_artifacts : option bool
}.

(** [options?.cache] and [options?.artifacts] *)
Definition cacheFlag (options : option ClearOptions) : option bool :=
  match options with
  | Some o => clear_cache o
  | None => None
  end.

Definition artifactsFlag (options : option ClearOptions) : option bool :=
  match options with
  | Some o => clear_artifacts o
  | None => None
  end.

(** [flag === b] *)
Definition flagIs (b : bool) (flag : option bool) : bool :=
  match flag with
  | Some b' => Bool.eqb b' b
  | None => false
  end.

(** [!flag] *)
Definition flagNot (flag : option bool) : bool :=
  match flag with
  | Some true => false
  | _ => true
  end.

(** The constants [clearCache] and [clearArtifacts] of the method. *)
Definition clearCache_flag (options : option ClearOptions) : bool :=
  negb (flagIs false (cacheFlag options))
  && (flagIs true (cacheFlag options)
      || (flagNot (cacheFlag options) && flagNot (artifactsFlag options))).

Definition clearArtifacts_flag (options : option ClearOptions) : bool :=
  negb (flagIs false (artifactsFlag options))
  && (flagIs true (artifactsFlag options)
      || (flagNot (cacheFlag options) && flagNot (artifactsFlag options))).

(** What a call of [clearCache] did to the stores. *)
Inductive Cleared : Type :=
| ClearedCache
| ClearedArtifacts.

(** [clearCache(options)], over what [cacheManager.clearCache()] and
    [artifactManager.clearArtifacts()] do when they are called; the
    [catch] block rethrows. *)
Definition clearCache (options : option ClearOptions)
    (cacheManager_clearCache artifactManager_clearArtifacts : Exc unit)
    : Exc (list Cleared) :=
  let cleared : list Cleared := [] in
  let! cleared :=
    (if clearCache_flag options
     then let! _ := cacheManager_clearCache in ret (cleared ++ [ClearedCache])
     else ret cleared) in
  let! cleared :=
    (if clearArtifacts_flag options
     then let! _ := artifactManager_clearArtifacts in ret (cleared ++ [ClearedArtifacts])
     else ret cleared) in
  ret cleared.

End Commands.

(** ** core/runner.ts: what [executeStep] reports *)

Module Reports.
Import Interfaces.

(** [step.name || 'Unnamed Step'] *)
Definition displayName (step : Step) : string := Js.str_or (name step) "Unnamed Step".

(** The result [executeStep] returns in a dry run. *)
Definition is_dry (r : StepResult) : Prop :=
  success r = true ∧ exitCode r = 0%Z ∧ logs r = ["Dry run - no actual execution"]
  ∧ error r = None.

End Reports.

(** ** core/yaml-parser.ts: reading the document *)

Module Document.
Import Js.

(** [v[k]] where the read does not throw, [undefined] otherwise. *)
Definition field_of (v : Value) (k : string) : Value :=
  match prop v k with
  | inr x => x
  | inl _ => Undefined
  end.


(** The two kinds of error met while a document is transformed: a
    validation error that the parser throws itself, and the [TypeError]
    of a read or of a call that the document does not allow. *)
Definition transformError (e : Thrown) : Prop :=
  (∃ message, e = PipelineError VALIDATION_ERROR message) ∨ (∃ message, e = JsError message).

(** [m] throws nothing else. *)
Definition safe {A} (m : Exc A) : Prop :=
  ∀ e, m = inl e → transformError e.

End Document.

(** ** core/validator.ts *)

Module Validator.
Import Js Loader.

(** [ValidationError] and [ValidationWarning] *)
Record Diagnostic : Type := {
  diagnostic_path : string;
  diagnostic_message : string;
  diagnostic_type : string
}.

(** The arrays [errors] and [warnings] that the methods push onto. *)
Record Report : Type := mkReport {
  errors : list Diagnostic;
  warnings : list Diagnostic
}.

(** [ValidationResult] *)
Record ValidationResult : Type := {
  valid : bool;
  result_errors : list Diagnostic;
  result_warnings : list Diagnostic
}.

(** A method that pushes onto the two arrays, or throws. *)
Definition Check : Type := Report -> Exc Report.

(** [errors.push({ path, message, type })] *)
Definition pushError (path message type : string) : Check :=
  fun r =>
    ret (mkReport
           (errors r ++ [{| diagnostic_path := path; diagnostic_message := message;
                            diagnostic_type := type |}])
           (warnings r)).

(** [warnings.push({ path, message, type })] *)
Definition pushWarning (path message type : string) : Check :=
  fun r =>
    ret (mkReport (errors r)
           (warnings r ++ [{| diagnostic_path := path; diagnostic_message := message;
                              diagnostic_type := type |}])).

Definition skip : Check := fun r => ret r.

(** Statements in sequence. *)
Fixpoint allOf (checks : list Check) : Check :=
  match checks with
  | [] => skip
  | c :: rest => fun r => let! r := c r in allOf rest r
  end.

(** [if (b) { c }] *)
Definition when (b : bool) (c : Check) : Check := if b then c else skip.

(** [xs.forEach((x, index) => f(x, index))], from [index] on. *)
Fixpoint forEachFrom {A} (f : A -> nat -> Check) (xs : list A) (index : nat) : Check :=
  match xs with
  | [] => skip
  | x :: rest => fun r => let! r := f x index r in forEachFrom f rest (S index) r
  end.

Definition forEach {A} (f : A -> nat -> Check) (xs : list A) : Check :=
  forEachFrom f xs 0.

(** [v.forEach(f)] for a truthy [v]: only an array has the method. *)
Definition forEachOf (what : string) (f : Value -> nat -> Check) (v : Value) : Check :=
  match v with
  | Arr items => forEach f items
  | _ => fun _ => throw (JsError (what +:+ ".forEach is not a function"))
  end.

(** [Object.entries(record).forEach(([key, x]) => f(key, x))] *)
Fixpoint forEntriesOf {A} (f : string -> A -> Check) (record : list (string * A)) : Check :=
  match record with
  | [] => skip
  | (key, x) :: rest => fun r => let! r := f key x r in forEntriesOf f rest r
  end.

(** [typeof v === 'string'] and [typeof v === 'number'] *)
Definition typeof_string (v : Value) : bool :=
  match v with
  | Str _ => true
  | _ => false
  end.

Definition typeof_number (v : Value) : bool :=
  match v with
  | Num _ | NaN => true
  | _ => false
  end.


(** [names.includes(v)] for an array of strings. *)
Definition includes (names : list string) (v : Value) : bool :=
  match v with
  | Str s => bool_decide (s ∈ names)
  | _ => false
  end.

(** [names.join(', ')] *)
Fixpoint join (names : list string) : string :=
  match names with
  | [] => ""
  | [a] => a
  | a :: rest => a +:+ ", " +:+ join rest
  end.

Definition SUPPORTED_SIZES : list string := ["1x"; "2x"; "4x"; "8x"; "16x"].
Definition SUPPORTED_TRIGGERS : list string := ["automatic"; "manual"].
Definition MAX_SCRIPT_LINES : nat := 100.
Definition MAX_STEP_TIME : Z := 120.

(** The UTF-8 form of the code point [n], for [n] below [0x10000]. *)
Definition utf8 (n : N) : string :=
  if (n <? 128)%N then String (Ascii.ascii_of_N n) ""
  else if (n <? 2048)%N then
    String (Ascii.ascii_of_N (192 + n / 64))
      (String (Ascii.ascii_of_N (128 + n mod 64)) "")
  else
    String (Ascii.ascii_of_N (224 + n / 4096))
      (String (Ascii.ascii_of_N (128 + (n / 64) mod 64))
         (String (Ascii.ascii_of_N (128 + n mod 64)) "")).

(** The code points of WhiteSpace and LineTerminator, which [trim]
    removes. *)
Definition whiteSpace : list N :=
  [ 9; 10; 11; 12; 13; 32; 160; 5760;
    8192; 8193; 8194; 8195; 8196; 8197; 8198; 8199; 8200; 8201; 8202;
    8232; 8233; 8239; 8287; 12288; 65279 ]%N.

(** [s] with one white-space character taken off its front, if it starts
    with one. *)
Definition dropWhiteSpace (s : string) : option string :=
  foldr
    (fun n found =>
       match found with
       | Some rest => Some rest
       | None =>
           if String.prefix (utf8 n) s
           then Some (String.substring (String.length (utf8 n))
                        (String.length s - String.length (utf8 n)) s)
           else None
       end)
    None whiteSpace.

(** [s.trim() === '']: [s] holds white space only. The fuel is the
    length of [s]. *)
Fixpoint blankWithin (fuel : nat) (s : string) : bool :=
  match s with
  | EmptyString => true
  | _ =>
      match fuel with
      | 0 => false
      | S fuel =>
          match dropWhiteSpace s with
          | Some rest => blankWithin fuel rest
          | None => false
          end
      end
  end.

Definition blank (s : string) : bool := blankWithin (String.length s) s.

(** [s.length], in UTF-16 units, of a string held as UTF-8: one unit per
    character, two for a character of four bytes. *)
Fixpoint utf16_length (s : string) : nat :=
  match s with
  | EmptyString => 0
  | String c rest =>
      let b := Ascii.nat_of_ascii c in
      (if (b <? 128)%nat || (192 <=? b)%nat then 1 else 0)
      + (if (240 <=? b)%nat then 1 else 0)
      + utf16_length rest
  end.

(** [v.length] *)
Definition lengthOf (v : Value) : Value :=
  match v with
  | Str s => Num (Z.of_nat (utf16_length s))
  | Arr items => Num (Z.of_nat (length items))
  | Object fields => field fields "length"
  | _ => Undefined
  end.

(** [image] is truthy. *)
Definition givenImage (image : option Image) : bool :=
  match image with
  | Some (ImageString s) => negb (String.eqb s "")
  | Some (ImageOf _) => true
  | None => false
  end.

(** [/^[a-zA-Z0-9_-]+$/.test(name)] *)
Definition plainName (name : string) : bool :=
  Artifacts.all_chars Artifacts.allowed name && negb (String.eqb name "").

Definition is_given {A} (x : option A) : bool :=
  match x with
  | Some _ => true
  | None => false
  end.

Section Checks.
(** The conversion of a value inside a template literal. *)
Variable toString : Value -> string.
(** [v > n] for a value [v] that is neither a number nor [undefined]. *)
Variable exceeds : Value -> Z -> bool.

(** [v > n] *)
Definition greaterThan (v : Value) (n : Z) : bool :=
  match v with
  | Num m => (n <? m)%Z
  | NaN | Undefined => false
  | _ => exceeds v n
  end.

(** [validateImage(image, path, errors, warnings)]: the canonical model
    holds a string or an object. *)
Definition validateImage (image : Image) (path : string) : Check :=
  match image with
  | ImageString s =>
      when (blank s) (pushError path "Image name cannot be empty" "required")
  | ImageOf o =>
      allOf
        [ when (negb (truthy (image_name o)))
            (pushError (path +:+ ".name") "Image name is required" "required");
          when (truthy (image_username o) && negb (truthy (image_password o)))
            (pushWarning (path +:+ ".password")
               "Username specified without password. Authentication may fail."
               "best-practice") ]
  end.

(** [validateArtifacts(artifacts, path, errors, _warnings)] *)
Definition validateArtifacts (artifacts : Artifacts) (path : string) : Check :=
  if negb (truthy (paths artifacts)) then
    pushError (path +:+ ".paths") "artifacts.paths is required" "required"
  else
    match paths artifacts with
    | Arr items =>
        forEach
          (fun artifactPath index =>
             when (negb (typeof_string artifactPath))
               (pushError (path +:+ ".paths[" +:+ pretty index +:+ "]")
                  "Artifact path must be a string" "type"))
          items
    | _ => pushError (path +:+ ".paths") "artifacts.paths must be an array" "type"
    end.

(** [validateSingleStep(step, path, errors, warnings)] *)
Definition validateSingleStep (step : Step) (path : string) : Check :=
  allOf
    [ (* script *)
      (if (length (script step) =? 0)%nat then
         pushError (path +:+ ".script") "script is required and cannot be empty" "required"
       else
         allOf
           [ when (MAX_SCRIPT_LINES <? length (script step))%nat
               (pushWarning (path +:+ ".script")
                  ("Script has " +:+ pretty (length (script step))
                   +:+ " lines. Consider breaking long scripts into smaller functions.")
                  "best-practice");
             forEach
               (fun line index =>
                  match line with
                  | Str text =>
                      when (blank text)
                        (pushWarning (path +:+ ".script[" +:+ pretty index +:+ "]")
                           "Empty script line" "best-practice")
                  | _ =>
                      pushError (path +:+ ".script[" +:+ pretty index +:+ "]")
                        "Script line must be a string" "type"
                  end)
               (script step) ]);
      (* size *)
      when (truthy (size step) && negb (includes SUPPORTED_SIZES (size step)))
        (pushError (path +:+ ".size")
           ("Invalid size: " +:+ toString (size step) +:+ ". Supported sizes: "
            +:+ join SUPPORTED_SIZES)
           "constraint");
      (* maxTime: [NaN <= 0] and [NaN > MAX_STEP_TIME] are both false *)
      match maxTime step with
      | Undefined => skip
      | Num n =>
          if (n <=? 0)%Z then
            pushError (path +:+ ".maxTime") "maxTime must be a positive number" "type"
          else
            when (MAX_STEP_TIME <? n)%Z
              (pushWarning (path +:+ ".maxTime")
                 ("maxTime is set to " +:+ toString (maxTime step)
                  +:+ " minutes. Very long-running steps may impact performance.")
                 "performance")
      | NaN => skip
      | _ => pushError (path +:+ ".maxTime") "maxTime must be a positive number" "type"
      end;
      (* trigger *)
      when (truthy (trigger step) && negb (includes SUPPORTED_TRIGGERS (trigger step)))
        (pushError (path +:+ ".trigger")
           ("Invalid trigger: " +:+ toString (trigger step) +:+ ". Supported triggers: "
            +:+ join SUPPORTED_TRIGGERS)
           "constraint");
      (* caches *)
      when (truthy (caches step))
        (forEachOf "step.caches"
           (fun cache index =>
              when (negb (typeof_string cache))
                (pushError (path +:+ ".caches[" +:+ pretty index +:+ "]")
                   "Cache name must be a string" "type"))
           (caches step));
      (* artifacts *)
      match artifacts step with
      | Some artifacts => validateArtifacts artifacts (path +:+ ".artifacts")
      | None => skip
      end;
      (* services *)
      when (truthy (services step))
        (forEachOf "step.services"
           (fun service index =>
              when (negb (typeof_string service))
                (pushError (path +:+ ".services[" +:+ pretty index +:+ "]")
                   "Service name must be a string" "type"))
           (services step));
      (* image *)
      match image step with
      | Some image =>
          when (givenImage (Some image)) (validateImage image (path +:+ ".image"))
      | None => skip
      end;
      (* name *)
      when (truthy (name step))
        (when (greaterThan (lengthOf (name step)) 50)
           (pushWarning (path +:+ ".name")
              "Step name is quite long. Consider using shorter, descriptive names."
              "best-practice")) ].

(** [validateParallelSteps(parallelSteps, path, errors, warnings)]: in
    the canonical model [parallel.steps] is an array. *)
Definition validateParallelSteps (parallel : Parallel) (path : string) : Check :=
  if (length (steps parallel) =? 0)%nat then
    pushWarning (path +:+ ".parallel.steps") "Empty parallel steps" "best-practice"
  else
    allOf
      [ when (length (steps parallel) =? 1)%nat
          (pushWarning (path +:+ ".parallel.steps")
             "Only one step in parallel block. Consider removing parallel wrapper."
             "best-practice");
        forEach
          (fun step index =>
             validateSingleStep step (path +:+ ".parallel.steps[" +:+ pretty index +:+ "]"))
          (steps parallel);
        when (10 <? length (steps parallel))%nat
          (pushWarning (path +:+ ".parallel.steps")
             (pretty (length (steps parallel))
              +:+ " parallel steps may consume significant resources. Consider reducing concurrency.")
             "performance") ].

(** [validatePipeline(pipeline, path, errors, warnings)]: in the
    canonical model a pipeline is an array whose items are steps or
    groups, told apart by [isStep] and [isParallelSteps]. *)
Definition validatePipeline (pipeline : list Item) (path : string) : Check :=
  if (length pipeline =? 0)%nat then
    pushWarning path "Pipeline is empty" "best-practice"
  else
    allOf
      [ forEach
          (fun item index =>
             let itemPath := path +:+ "[" +:+ pretty index +:+ "]" in
             match item with
             | ItemStep step => validateSingleStep step itemPath
             | ItemParallel parallel => validateParallelSteps parallel itemPath
             end)
          pipeline;
        when (100 <? length pipeline)%nat
          (pushWarning path
             "Pipeline has many steps. Consider breaking it into smaller pipelines for better maintainability."
             "performance") ].

(** The loop over one section of [validatePipelines]. *)
Definition validateSection (prefix : string) (section : option (list (string * list Item)))
    : Check :=
  match section with
  | Some record =>
      forEntriesOf (fun key pipeline => validatePipeline pipeline (prefix +:+ key)) record
  | None => skip
  end.

(** [validatePipelines(pipelines, errors, warnings)] *)
Definition validatePipelines (pipelines : Pipelines (list Item)) : Check :=
  allOf
    [ match default pipelines with
      | Some pipeline => validatePipeline pipeline "pipelines.default"
      | None => skip
      end;
      validateSection "pipelines.branches." (branches pipelines);
      validateSection "pipelines.tags." (tags pipelines);
      validateSection "pipelines.pullrequests." (pullrequests pipelines);
      match custom pipelines with
      | Some record =>
          forEntriesOf
            (fun name pipeline =>
               allOf
                 [ validatePipeline pipeline ("pipelines.custom." +:+ name);
                   when (negb (plainName name))
                     (pushWarning ("pipelines.custom." +:+ name)
                        "Custom pipeline names should only contain alphanumeric characters, hyphens, and underscores"
                        "best-practice") ])
            record
      | None => skip
      end ].

(** [validateServiceDefinition(service, path, errors, _warnings)] *)
Definition validateServiceDefinition (service : Service) (path : string) : Check :=
  allOf
    [ when (negb (truthy (service_image service)))
        (pushError (path +:+ ".image") "Service image is required" "required");
      when (truthy (service_variables service)
            && negb (typeof_object (service_variables service)))
        (pushError (path +:+ ".variables") "Service variables must be an object" "type");
      when (truthy (service_ports service))
        (match service_ports service with
         | Arr ports =>
             forEach
               (fun port index =>
                  when (negb (typeof_string port))
                    (pushError (path +:+ ".ports[" +:+ pretty index +:+ "]")
                       "Port must be a string" "type"))
               ports
         | _ => pushError (path +:+ ".ports") "Service ports must be an array" "type"
         end) ].

(** [validateDefinitions(definitions, errors, warnings)] *)
Definition validateDefinitions (definitions : Definitions) : Check :=
  allOf
    [ match definitions_services definitions with
      | Some services =>
          forEntriesOf
            (fun name service =>
               validateServiceDefinition service ("definitions.services." +:+ name))
            services
      | None => skip
      end;
      match definitions_caches definitions with
      | Some caches =>
          when (truthy caches)
            (forEntriesOf
               (fun name path =>
                  when (negb (typeof_string path))
                    (pushError ("definitions.caches." +:+ name)
                       "Cache path must be a string" "type"))
               (entriesOf caches))
      | None => skip
      end ].

(** [validateGlobalOptions(options, errors, _warnings)] *)
Definition validateGlobalOptions (options : Options) : Check :=
  allOf
    [ when (truthy (options_size options)
            && negb (includes SUPPORTED_SIZES (options_size options)))
        (pushError "options.size"
           ("Invalid global size: " +:+ toString (options_size options)
            +:+ ". Supported sizes: " +:+ join SUPPORTED_SIZES)
           "constraint");
      match options_maxTime options with
      | Undefined => skip
      | Num n =>
          when (n <=? 0)%Z
            (pushError "options.maxTime" "Global maxTime must be a positive number" "type")
      | NaN => skip
      | _ => pushError "options.maxTime" "Global maxTime must be a positive number" "type"
      end ].

Definition resultOf (r : Report) : ValidationResult :=
  {| valid := (length (errors r) =? 0)%nat;
     result_errors := errors r;
     result_warnings := warnings r |}.

(** [validate(config)]: the canonical model always has its [pipelines]. *)
Definition validate (config : PipelineConfig) : Exc ValidationResult :=
  let! r :=
    allOf
      [ when (negb (is_given (default (config_pipelines config)))
              && negb (is_given (branches (config_pipelines config)))
              && negb (is_given (custom (config_pipelines config))))
          (pushWarning "pipelines"
             "No default pipeline defined. Consider adding a default pipeline for easier usage."
             "best-practice");
        validatePipelines (config_pipelines config);
        match config_definitions config with
        | Some definitions => validateDefinitions definitions
        | None => skip
        end;
        match config_options config with
        | Some options => validateGlobalOptions options
        | None => skip
        end;
        match config_image config with
        | Some image => when (givenImage (Some image)) (validateImage image "image")
        | None => skip
        end ]
      (mkReport [] []) in
  ret (resultOf r).

(** [validateStep(step)] *)
Definition validateStep (step : Step) : Exc ValidationResult :=
  let! r := validateSingleStep step "step" (mkReport [] []) in
  ret (resultOf r).

End Checks.

(** The steps of a pipeline, the children of its groups included. *)
Definition stepsOf (pipeline : list Item) : list Step :=
  concat (map (fun item =>
                 match item with
                 | ItemStep step => [step]
                 | ItemParallel parallel => steps parallel
                 end) pipeline).

Definition sectionPipelines (section : option (list (string * list Item)))
    : list (list Item) :=
  match section with
  | Some record => map snd record
  | None => []
  end.

(** The pipelines [validatePipelines] visits. *)
Definition visited (pipelines : Pipelines (list Item)) : list (list Item) :=
  match default pipelines with Some pipeline => [pipeline] | None => [] end
  ++ sectionPipelines (branches pipelines)
  ++ sectionPipelines (tags pipelines)
  ++ sectionPipelines (pullrequests pipelines)
  ++ sectionPipelines (custom pipelines).

(** A list of strings, as an array value. *)
Definition stringArray (v : Value) : Prop :=
  ∃ items, v = Arr items ∧ Forall (fun x => typeof_string x = true) items.

(** What validation requires of a step. Its [maxTime] is to be
    [undefined] or a number that is not [<= 0]: a positive number, or
    [NaN], which no comparison holds of. *)
Definition wellFormed (step : Step) : Prop :=
  script step ≠ []
  ∧ Forall (fun line => typeof_string line = true) (script step)
  ∧ (truthy (size step) = true → ∃ s, size step = Str s ∧ s ∈ SUPPORTED_SIZES)
  ∧ (maxTime step = Undefined ∨ maxTime step = NaN ∨ ∃ n, maxTime step = Num n ∧ (0 < n)%Z)
  ∧ (truthy (trigger step) = true → ∃ s, trigger step = Str s ∧ s ∈ SUPPORTED_TRIGGERS)
  ∧ (truthy (caches step) = true → stringArray (caches step))
  ∧ (∀ a, artifacts step = Some a → stringArray (paths a))
  ∧ (truthy (services step) = true → stringArray (services step))
  ∧ (∀ s, image step = Some (ImageString s) → s ≠ "" → blank s = false)
  ∧ (∀ o, image step = Some (ImageOf o) → truthy (image_name o) = true).

(** A check adds no error exactly when [P] holds. *)
Definition checks (c : Check) (P : Prop) : Prop :=
  ∀ r r', c r = inr r' → ∃ more, errors r' = errors r ++ more ∧ (more = [] ↔ P).

(** A check removes no error. *)
Definition grows (c : Check) : Prop :=
  ∀ r r', c r = inr r' → ∃ more, errors r' = errors r ++ more.


(** When there is no error after a check, there was none before it and
    [P] holds. *)
Definition ensures (c : Check) (P : Prop) : Prop :=
  ∀ r r', c r = inr r' → errors r' = [] → errors r = [] ∧ P.

End Validator.

(** ** managers/config-manager.ts *)

Module Config.
Import Js.

(** [{ ...target }] *)
Definition spread (target : Value) : list (string * Value) :=
  match target with
  | Object fields => fields
  | Arr _ | Str _ => Loader.entriesOf target
  | _ => []
  end.

(** One turn of the loop of [deepMerge], for the key [key] of the source
    and its value; [rec] is [deepMerge] itself. *)
Definition mergeKey (rec : Value -> Value -> Exc Value) (result : list (string * Value))
    (key : string) (value : Value) : Exc (list (string * Value)) :=
  match value with
  | Object _ =>
      let! merged := rec (or (field result key) (Object [])) value in
      ret (set result key merged)
  | _ => ret (set result key value)
  end.

(** The loop of [deepMerge] over the entries of an object. *)
Definition mergeEntries (rec : Value -> Value -> Exc Value)
    : list (string * Value) -> list (string * Value) -> Exc (list (string * Value)) :=
  fix each entries result :=
    match entries with
    | [] => ret result
    | (key, value) :: rest =>
        let! result := mergeKey rec result key value in
        each rest result
    end.

(** The loop of [deepMerge] over the items of an array, whose keys are
    the indices. *)
Definition mergeItems (rec : Value -> Value -> Exc Value)
    : list Value -> nat -> list (string * Value) -> Exc (list (string * Value)) :=
  fix each items index result :=
    match items with
    | [] => ret result
    | value :: rest =>
        let! result := mergeKey rec result (pretty index) value in
        each rest (S index) result
    end.

(** [deepMerge(target, source)]. Only what a key holds in the result is
    modelled: a key that is new goes last, where JavaScript puts a key
    that is an array index first. *)
Fixpoint deepMerge (target source : Value) {struct source} : Exc Value :=
  match source with
  | Undefined | Null => throw (JsError "Cannot convert undefined or null to object")
  | Object fields =>
      let! result := mergeEntries deepMerge fields (spread target) in
      ret (Object result)
  | Arr items =>
      let! result := mergeItems deepMerge items 0 (spread target) in
      ret (Object result)
  | Str _ =>
      ret (Object (foldl (fun result kv => set result (fst kv) (snd kv))
                         (spread target) (Loader.entriesOf source)))
  | Bool _ | Num _ | NaN => ret (Object (spread target))
  end.

(** An object literal whose values are strings. *)
Definition strings (fields : list (string * string)) : Value :=
  Object (map (fun kv => (fst kv, Str (snd kv))) fields).

(** The [docker] section of [getDefaultConfig()]. *)
Definition defaultDocker : list (string * Value) :=
  [ ("defaultImage", Str "atlassian/default-image:latest");
    ("networkName", Str "bbpl-network");
    ("volumePrefix", Str "bbpl");
    ("socketPath", Str "/var/run/docker.sock");
    ("resourceLimits",
      Object
        [ ("memory",
            strings [("1x", "4g"); ("2x", "8g"); ("4x", "16g"); ("8x", "32g");
                     ("16x", "64g")]);
          ("cpu",
            strings [("1x", "2"); ("2x", "4"); ("4x", "8"); ("8x", "16");
                     ("16x", "32")]) ]) ].

(** The object that the three branches of [loadConfigFromEnv] assign to
    [config.logging]. *)
Definition loggingAt (level : string) : Value :=
  Object
    [ ("level", Str level);
      ("format", Str "text");
      ("showDockerCommands", Bool false);
      ("showTimestamps", Bool true) ].

(** [getDefaultConfig()], with [os.homedir()] given. *)
Definition getDefaultConfig (homedir : string) : Value :=
  Object
    [ ("docker", Object defaultDocker);
      ("cache",
        Object
          [ ("name", Str "cache");
            ("path", Str (path_join (path_join homedir ".bitbucket-pipelines-local")
                            "cache")) ]);
      ("artifacts",
        Object
          [ ("baseDir", Str (path_join (path_join homedir ".bitbucket-pipelines-local")
                               "artifacts"));
            ("enabled", Bool true) ]);
      ("logging",
        Object
          [ ("level", Str "info");
            ("format", Str "text");
            ("showDockerCommands", Bool false);
            ("showTimestamps", Bool true) ]);
      ("environment",
        Object
          [ ("bitbucketVariables",
              strings
                [ ("BITBUCKET_WORKSPACE", "local-workspace");
                  ("BITBUCKET_REPO_SLUG", "local-repo");
                  ("BITBUCKET_REPO_UUID", "{00000000-0000-0000-0000-000000000000}");
                  ("BITBUCKET_BUILD_NUMBER", "1");
                  ("BITBUCKET_COMMIT", "local-commit");
                  ("BITBUCKET_BRANCH", "local");
                  ("BITBUCKET_TAG", "");
                  ("BITBUCKET_BOOKMARK", "");
                  ("BITBUCKET_PR_ID", "");
                  ("BITBUCKET_PR_DESTINATION_BRANCH", "");
                  ("BITBUCKET_DEPLOYMENT_ENVIRONMENT", "");
                  ("BITBUCKET_STEP_UUID", "");
                  ("BITBUCKET_STEP_TRIGGERER_UUID", "") ]) ]) ].

(** [mergeConfigs(...configs)] *)
Definition mergeConfigs (homedir : string) (configs : list Value) : Exc Value :=
  foldl (fun merged config => let! merged := merged in deepMerge merged config)
        (ret (getDefaultConfig homedir)) configs.

(** [s.toLowerCase()], as far as a comparison with a string of ASCII
    characters can tell: the letters [A] to [Z] change, and so does the
    Kelvin sign (the bytes E2 84 AA), the one character outside ASCII
    whose lower case is inside. *)
Fixpoint toLowerCase (s : string) : string :=
  match s with
  | EmptyString => EmptyString
  | String c rest =>
      match rest with
      | String c' (String c'' rest') =>
          if Ascii.eqb c (Ascii.ascii_of_nat 226) && Ascii.eqb c' (Ascii.ascii_of_nat 132)
             && Ascii.eqb c'' (Ascii.ascii_of_nat 170)
          then String "k" (toLowerCase rest')
          else String (Artifacts.lowerChar c) (toLowerCase rest)
      | _ => String (Artifacts.lowerChar c) (toLowerCase rest)
      end
  end.

(** [{ ...this.getDefaultConfig().docker, defaultImage: image }] *)
Definition dockerFor (image : string) : Value :=
  Object (set defaultDocker "defaultImage" (Str image)).

(** The callback of the loop of [loadConfigFromEnv], for one entry of
    [process.env]. *)
Definition readVariable (config : list (string * Value))
    (key : string) (value : Environment.EnvValue) : list (string * Value) :=
  match value with
  | Environment.EnvStr value =>
      if negb (Text.startsWith "BBPL_" key) || String.eqb value "" then config
      else
        let configKey := toLowerCase (Text.slice 5 key) in
        if String.eqb configKey "log_level" then
          if bool_decide (value ∈ ["debug"; "info"; "warn"; "error"])
          then set config "logging" (loggingAt value)
          else config
        else if String.eqb configKey "docker_image" then
          set config "docker" (dockerFor value)
        else if String.eqb configKey "verbose" then
          if String.eqb (toLowerCase value) "true"
          then set config "logging" (loggingAt "debug")
          else config
        else config
  | _ => config
  end.

(** [loadConfigFromEnv()] *)
Definition loadConfigFromEnv (processEnv : Environment.Env) : list (string * Value) :=
  foldl (fun config kv => readVariable config (fst kv) (snd kv))
        [] (Js.entries processEnv).

(** The [mergedConfig] of [loadConfig(projectDir)]: [globalConfig] and
    [projectConfig] are what [loadConfigFile] returns for the two files,
    [null] for a file that is missing or does not parse. *)
Definition mergedConfig (homedir : string) (globalConfig projectConfig : Value)
    (processEnv : Environment.Env) : Exc Value :=
  let configs := [getDefaultConfig homedir] in
  let configs := if truthy globalConfig then configs ++ [globalConfig] else configs in
  let configs := if truthy projectConfig then configs ++ [projectConfig] else configs in
  let envConfig := loadConfigFromEnv processEnv in
  let configs :=
    if (0 <? length (Js.keys envConfig))%nat then configs ++ [Object envConfig]
    else configs in
  mergeConfigs homedir configs.

(** [config.section.key], [undefined] where a step of the path is. *)
Definition setting (config : Value) (section key : string) : Value :=
  match config with
  | Object fields =>
      match field fields section with
      | Object inner => field inner key
      | _ => Undefined
      end
  | _ => Undefined
  end.

End Config.

(** ** More scenarios *)

Module Samples.
Import Interfaces.

(** A group whose document says [failFast: false] in camelCase. *)
Definition camelFailFast : Js.Value :=
  Js.Object
    [ ("parallel",
        Js.Object
          [ ("failFast", Js.Bool false);
            ("steps", Js.Arr [Js.Object [("script", Js.Arr [Js.Str "make"])]]) ]) ].



(** A step with a cache whose container exits with code 3 and whose
    cache cannot be saved. *)
Definition cachedStep : Step :=
  {| name := Some "build"; image := None; script := ["make"]; size := None;
     maxTime := None; caches := Some ["node"]; artifacts := None; services := None;
     trigger := None; condition := None; afterScript := None; variables := None;
     deployment := None |}.

Definition saveFails : Runner.StepEffects :=
  {| Runner.elapsed := 40;
     Runner.runStepContainer :=
       ret {| container_exitCode := 3; container_output := ["compiling"];
              container_error := Some "Container exited with code 3";
              container_duration := 40 |};
     Runner.saveCaches :=
       throw (PipelineError FILE_SYSTEM_ERROR "Failed to save cache: EACCES");
     Runner.saveArtifacts := ret tt |}.

Definition dryRun : ExecutionOptions := {| dryRun := true; verbose := false |}.

Definition pipelineOption (label : string) : CLIOptions :=
  {| cli_pipeline := Some label; cli_branch := None; cli_custom := None;
     cli_verbose := None; cli_dryRun := None; cli_configFile := None;
     cli_envFile := None; cli_clearCache := None |}.

(** The conversion of a value in a message is only called for a step
    that is refused or runs for long, and [v > n] only for a name that is
    an object. *)
Definition noToString (v : Js.Value) : string := EmptyString.
Definition neverExceeds (v : Js.Value) (n : Z) : bool := false.

(** A step of the canonical model with everything the validator reads. *)
Definition checkedStep : Loader.Step :=
  {| Loader.name := Js.Str "build";
     Loader.image := Some (Loader.ImageString "node:18");
     Loader.script := [Js.Str "npm ci"; Js.Str "npm test"];
     Loader.size := Js.Str "2x";
     Loader.maxTime := Js.Num 30;
     Loader.caches := Js.Arr [Js.Str "node"];
     Loader.artifacts :=
       Some {| Loader.paths := Js.Arr [Js.Str "dist/**"]; Loader.download := Some true |};
     Loader.services := Js.Undefined;
     Loader.trigger := Js.Str "manual";
     Loader.condition := None;
     Loader.afterScript := Js.Undefined;
     Loader.variables := Js.Undefined;
     Loader.deployment := Js.Undefined |}.

(** A cache directory after two saves and one save that did not finish. *)
Definition savedCaches : list string := ["node"; "pip-cache"].
Definition unfinishedSaves : list string := ["node"].

(** The context of a run in the directory [/repo]. *)
Definition repoContext : Environment.PipelineContext :=
  Runner.pipelineContext 1700000000000 "repo" Scenarios.noOptions.

(** A project configuration that names its own Docker network, and a
    process that sets [BBPL_DOCKER_IMAGE]. *)
Definition projectNetwork : Js.Value :=
  Js.Object [("docker", Js.Object [("networkName", Js.Str "ci-net")])].

Definition imageVariable : Environment.Env :=
  [("BBPL_DOCKER_IMAGE", Environment.EnvStr "node:18")].



(** A document whose default pipeline is [pipeline]. *)
Definition documentOf (pipeline : Js.Value) : Js.Value :=
  Js.Object [("pipelines", Js.Object [("default", pipeline)])].

(** A step with [maxTime: .nan]. *)
Definition nanDocument : Js.Value :=
  documentOf
    (Js.Arr [Js.Object [("step", Js.Object [("script", Js.Arr [Js.Str "make"]);
                                            ("maxTime", Js.NaN)])]]).

(** A step without a script. *)
Definition scriptlessDocument : Js.Value :=
  documentOf (Js.Arr [Js.Object [("step", Js.Object [("image", Js.Str "node:18")])]]).

(** A default pipeline that is a number and not a list. *)
Definition scalarPipelineDocument : Js.Value := documentOf (Js.Num 5).

End Samples.

(* ===================================================================== *)
(** * Part II: properties                                                 *)
(* ===================================================================== *)

(** ** Objects *)

Section ObjectFacts.
Context {V : Type}.
Implicit Types (o : list (string * V)) (k : string) (v : V).

Lemma get_set_same o k v : Js.get (Js.set o k v) k = Some v.
Proof.
  induction o as [|[k' v'] o IH]; simpl.
  - by rewrite String.eqb_refl.
  - destruct (String.eqb k' k) eqn:E; simpl; rewrite E; [done | exact IH].
Qed.

Lemma get_set_other o k k' v : k' ≠ k → Js.get (Js.set o k' v) k = Js.get o k.
Proof.
  intros Hne. induction o as [|[k0 v0] o IH]; simpl.
  - apply String.eqb_neq in Hne. by rewrite Hne.
  - destruct (String.eqb k0 k') eqn:E; simpl.
    + apply String.eqb_eq in E as ->. apply String.eqb_neq in Hne. by rewrite Hne.
    + destruct (String.eqb k0 k); [done | exact IH].
Qed.

Lemma get_None_not_key o k : Js.get o k = None ↔ k ∉ Js.keys o.
Proof.
  induction o as [|[k' v'] o IH]; simpl.
  - split; [intros _; apply not_elem_of_nil | done].
  - destruct (String.eqb k' k) eqn:E.
    + apply String.eqb_eq in E as ->. split; [done |]. intros H. destruct H. left.
    + apply String.eqb_neq in E. rewrite IH, not_elem_of_cons.
      split; [intros H; split; [by intros -> | done] | by intros [_ H]].
Qed.

Lemma get_Some_entry o k v : Js.get o k = Some v → (k, v) ∈ o.
Proof.
  induction o as [|[k' v'] o IH]; simpl; [done |].
  destruct (String.eqb k' k) eqn:E.
  - apply String.eqb_eq in E as ->. intros [= ->]. left.
  - intros H. right. by apply IH.
Qed.

End ObjectFacts.

(** ** Environment variables *)

Section EnvironmentFacts.
Import Environment.
Implicit Types (env merged : Env) (envs : list Env) (key : string).

Lemma mergeEnvironments_unfold envs : mergeEnvironments envs = foldl mergeInto [] envs.
Proof. reflexivity. Qed.

Lemma get_mergeInto merged env key :
  Js.get (mergeInto merged env) key =
  match effective key env with
  | Some v => Some v
  | None => Js.get merged key
  end.
Proof.
  unfold mergeInto, Js.entries. revert merged.
  induction env as [|[k v] env IH]; intros merged; simpl; [done |].
  rewrite IH. destruct (effective key env) as [v'|]; [done |].
  destruct (String.eqb k key) eqn:E; simpl.
  - apply String.eqb_eq in E as ->.
    destruct (bindable v); [apply get_set_same | done].
  - apply String.eqb_neq in E.
    destruct (bindable v); [by apply get_set_other | done].
Qed.

Lemma effective_app key (a b : Env) :
  effective key (a ++ b) =
  match effective key b with
  | Some v => Some v
  | None => effective key a
  end.
Proof.
  induction a as [|[k v] a IH]; simpl.
  - by destruct (effective key b).
  - rewrite IH. by destruct (effective key b).
Qed.

Lemma get_foldl_mergeInto merged envs key :
  Js.get (foldl mergeInto merged envs) key =
  match effective key (concat envs) with
  | Some v => Some v
  | None => Js.get merged key
  end.
Proof.
  revert merged. induction envs as [|env envs IH]; intros merged; simpl; [done |].
  rewrite IH, effective_app, get_mergeInto.
  by destruct (effective key (concat envs)).
Qed.

(** What [mergeEnvironments] binds a key to. *)
Lemma get_mergeEnvironments envs key :
  Js.get (mergeEnvironments envs) key = effective key (concat envs).
Proof.
  rewrite mergeEnvironments_unfold, get_foldl_mergeInto.
  by destruct (effective key (concat envs)).
Qed.

Lemma effective_bindable key (entries : Env) v :
  effective key entries = Some v → bindable v = true ∧ (key, v) ∈ entries.
Proof.
  induction entries as [|[k v'] entries IH]; simpl; [done |].
  destruct (effective key entries) as [v0|] eqn:E0.
  - intros [= ->]. destruct (IH eq_refl) as [? ?]. split; [done | by right].
  - destruct (String.eqb k key) eqn:E; simpl; [|done].
    destruct (bindable v') eqn:B; [|done].
    apply String.eqb_eq in E as ->. intros [= ->]. split; [done | left].
Qed.

Lemma effective_None key (entries : Env) :
  effective key entries = None ↔ ∀ v, (key, v) ∈ entries → bindable v = false.
Proof.
  induction entries as [|[k v'] entries IH]; simpl.
  - split; [intros _ v H; by apply elem_of_nil in H | done].
  - destruct (effective key entries) as [v0|] eqn:E0.
    + split; [done |]. intros H.
      destruct (effective_bindable key entries v0 E0) as [B Hin].
      rewrite (H v0) in B; [done | by right].
    + destruct IH as [IH1 _]. specialize (IH1 eq_refl).
      destruct (String.eqb k key) eqn:E; simpl.
      * apply String.eqb_eq in E as ->. destruct (bindable v') eqn:B.
        -- split; [done |]. intros H. rewrite (H v') in B; [done | left].
        -- split; [|done]. intros _ v Hin.
           apply elem_of_cons in Hin as [[= ->]|Hin]; [done | by apply IH1].
      * apply String.eqb_neq in E. split; [|done]. intros _ v Hin.
        apply elem_of_cons in Hin as [[= ? ?]|Hin]; [by subst | by apply IH1].
Qed.

Lemma elem_of_concat {A} (x : A) (ls : list (list A)) :
  x ∈ concat ls → ∃ l, x ∈ l ∧ l ∈ ls.
Proof.
  induction ls as [|l ls IH]; simpl; [by intros H%elem_of_nil |].
  intros [H|H]%elem_of_app.
  - exists l. split; [done | left].
  - destruct (IH H) as (l' & ? & ?). exists l'. split; [done | by right].
Qed.

(** C10. [mergeEnvironments] never binds a key to the empty string, to
    [null] or to [undefined]: such an entry is skipped. A later source
    whose entries for a key are all empty leaves the binding of the
    earlier sources as it was, and a key that only ever comes with empty
    values is absent from the result. *)
Theorem mergeEnvironments_skips_empty envs key :
  (∀ v, Js.get (mergeEnvironments envs) key = Some v →
        ∃ s, v = EnvStr s ∧ s ≠ EmptyString) ∧
  (∀ later : Env,
      (∀ v, (key, v) ∈ later → v = EnvStr EmptyString ∨ v = EnvNull ∨ v = EnvUndefined) →
      Js.get (mergeEnvironments (envs ++ [later])) key
      = Js.get (mergeEnvironments envs) key) ∧
  ((∀ env v, env ∈ envs → (key, v) ∈ env →
             v = EnvStr EmptyString ∨ v = EnvNull ∨ v = EnvUndefined) →
   Js.get (mergeEnvironments envs) key = None).
Proof.
  repeat split.
  - intros v Hget. rewrite get_mergeEnvironments in Hget.
    apply effective_bindable in Hget as [B _].
    destruct v as [| |s]; simpl in B; try done.
    exists s. split; [done |]. intros ->. done.
  - intros later Hlater. rewrite !get_mergeEnvironments, concat_app, effective_app.
    simpl. rewrite app_nil_r.
    replace (effective key later) with (@None EnvValue); [done |].
    symmetry. apply effective_None. intros v Hin.
    destruct (Hlater v Hin) as [->|[->| ->]]; done.
  - intros Hall. rewrite get_mergeEnvironments. apply effective_None.
    intros v Hin. apply elem_of_concat in Hin as (env & Hin & Henv).
    destruct (Hall env v Henv Hin) as [->|[->| ->]]; done.
Qed.

(** A later source that sets [TOKEN] to the empty string leaves the
    earlier value in force. *)
Lemma mergeEnvironments_skips_empty_witness :
  Js.get (mergeEnvironments [[("TOKEN", EnvStr "abc")]; [("TOKEN", EnvStr "")]]) "TOKEN"
  = Js.get (mergeEnvironments [[("TOKEN", EnvStr "abc")]]) "TOKEN".
Proof.
  apply (proj1 (proj2 (mergeEnvironments_skips_empty [[("TOKEN", EnvStr "abc")]] "TOKEN"))
           [("TOKEN", EnvStr "")]).
  intros v Hin. apply list_elem_of_singleton in Hin. injection Hin as ->. by left.
Defined.

Example mergeEnvironments_example :
  mergeEnvironments
    [ [("A", EnvStr "1"); ("B", EnvStr "2"); ("C", EnvStr "")];
      [("B", EnvStr ""); ("A", EnvStr "3"); ("D", EnvNull)] ]
  = [("A", EnvStr "3"); ("B", EnvStr "2")].
Proof. reflexivity. Qed.

End EnvironmentFacts.

Section EffectiveEnvironment.
Import Environment.
Implicit Types (env merged : Env) (envs : list Env) (key : string).

Lemma keys_set merged key v :
  Js.keys (Js.set merged key v) =
  if bool_decide (key ∈ Js.keys merged) then Js.keys merged else Js.keys merged ++ [key].
Proof.
  induction merged as [|[k v'] merged IH]; simpl; [done |].
  destruct (String.eqb k key) eqn:E; simpl.
  - apply String.eqb_eq in E as ->. rewrite bool_decide_eq_true_2; [done | left].
  - apply String.eqb_neq in E. rewrite IH.
    destruct (bool_decide (key ∈ Js.keys merged)) eqn:D.
    + apply bool_decide_eq_true in D. rewrite bool_decide_eq_true_2; [done | by right].
    + apply bool_decide_eq_false in D. rewrite bool_decide_eq_false_2; [done |].
      rewrite not_elem_of_cons. by split.
Qed.

Lemma set_shape merged key v :
  bindable v = true → merged_shape merged → merged_shape (Js.set merged key v).
Proof.
  intros B [Hnd Hall]. split.
  - rewrite keys_set. case_bool_decide as D; [done |].
    apply NoDup_app. split_and!; [done | | apply NoDup_singleton].
    intros x Hx Hx'. apply list_elem_of_singleton in Hx' as ->. done.
  - clear Hnd. induction merged as [|[k v'] merged IH]; simpl.
    + by repeat constructor.
    + inversion Hall; subst. destruct (String.eqb k key); constructor; auto.
Qed.

Lemma mergeInto_shape merged env : merged_shape merged → merged_shape (mergeInto merged env).
Proof.
  unfold mergeInto, Js.entries. revert merged.
  induction env as [|[k v] env IH]; intros merged Hm; simpl; [done |].
  apply IH. destruct (bindable v) eqn:B; [by apply set_shape | done].
Qed.

Lemma mergeEnvironments_shape envs : merged_shape (mergeEnvironments envs).
Proof.
  rewrite mergeEnvironments_unfold.
  assert (merged_shape []) as H0 by (split; [apply NoDup_nil_2 | constructor]).
  revert H0. generalize (@nil (string * EnvValue)).
  induction envs as [|env envs IH]; intros merged Hm; simpl; [done |].
  apply IH. by apply mergeInto_shape.
Qed.

(** Reading a merged object back entry by entry gives its bindings. *)
Lemma effective_merged merged key :
  merged_shape merged → effective key merged = Js.get merged key.
Proof.
  intros [Hnd Hall]. induction merged as [|[k v] merged IH]; simpl; [done |].
  inversion Hnd as [|? ? Hk Hnd']; subst. inversion Hall as [|? ? Hv Hall']; subst.
  simpl in *. rewrite (IH Hnd' Hall'). destruct (String.eqb k key) eqn:E; simpl.
  - apply String.eqb_eq in E as ->.
    apply get_None_not_key in Hk. rewrite Hk, Hv. done.
  - by destruct (Js.get merged key).
Qed.

Lemma get_merge_twice envs (last : Env) key :
  Js.get (mergeEnvironments [mergeEnvironments envs; last]) key
  = effective key (concat (envs ++ [last])).
Proof.
  rewrite get_mergeEnvironments. simpl. rewrite app_nil_r, concat_app. simpl.
  rewrite app_nil_r, !effective_app.
  rewrite (effective_merged (mergeEnvironments envs)) by apply mergeEnvironments_shape.
  by rewrite get_mergeEnvironments.
Qed.

Lemma effective_concat_last (srcs : list Env) key i src v :
  srcs !! i = Some src →
  effective key src = Some v →
  (∀ j later, i < j → srcs !! j = Some later → effective key later = None) →
  effective key (concat srcs) = Some v.
Proof.
  revert i. induction srcs as [|s0 srcs IH]; intros i Hi Hv Hlater; [done |].
  simpl. rewrite effective_app. destruct i as [|i]; simpl in Hi.
  - injection Hi as ->.
    assert (effective key (concat srcs) = None) as ->; [|done].
    apply effective_None. intros v' Hin.
    apply elem_of_concat in Hin as (l & Hin & Hl).
    apply list_elem_of_lookup in Hl as [j Hj].
    assert (effective key l = None) as Hnone by (apply (Hlater (S j)); [lia | done]).
    by apply (proj1 (effective_None key l) Hnone).
  - rewrite (IH i Hi Hv); [done |].
    intros j later Hij Hj. apply (Hlater (S j)); [lia | done].
Qed.

End EffectiveEnvironment.

Section StepEnvironment.
Import Environment Interfaces.
Implicit Types (env : Env) (key : string).

Lemma effective_of_get env key v :
  NoDup (Js.keys env) → Js.get env key = Some v →
  effective key env = if bindable v then Some v else None.
Proof.
  induction env as [|[k v'] env IH]; simpl; [done |].
  intros Hnd. inversion Hnd as [|? ? Hk Hnd']; subst.
  destruct (String.eqb k key) eqn:E; simpl.
  - apply String.eqb_eq in E as ->. intros [= ->].
    assert (effective key env = None) as ->; [|done].
    apply effective_None. intros v0 Hin. destruct Hk.
    apply list_elem_of_fmap. by exists (key, v0).
  - intros Hget. rewrite (IH Hnd' Hget). by destruct (bindable v).
Qed.

Lemma assign_keys_NoDup (target source : Env) :
  NoDup (Js.keys target) → NoDup (Js.keys (Js.assign target source)).
Proof.
  unfold Js.assign, Js.entries. revert target.
  induction source as [|[k v] source IH]; intros target Hnd; simpl; [done |].
  apply IH. rewrite keys_set. case_bool_decide as D; [done |].
  apply NoDup_app. split_and!; [done | | apply NoDup_singleton].
  intros x Hx Hx'. apply list_elem_of_singleton in Hx' as ->. done.
Qed.

Lemma getBitbucketVariables_keys_NoDup config gen context :
  NoDup (Js.keys (getBitbucketVariables config gen context)).
Proof.
  unfold getBitbucketVariables.
  match goal with
  | |- context [match _ with Some _ => _ | None => ?lit end] =>
      assert (NoDup (Js.keys lit)) as Hlit
        by (apply (bool_decide_unpack _); vm_compute; reflexivity)
  end.
  destruct (bitbucketVariables config); [|exact Hlit].
  by do 2 apply assign_keys_NoDup.
Qed.

(** C2, as the code has it. The environment a step's container gets is
    the one computed before the pipeline starts, whatever the step: its
    own [variables] are not a source. For each name it holds the value of
    the last of the six sources (process environment, [.env], the given
    file, [.env.pipelines], the configured defaults, the system
    variables) that has a non-empty value for the name; in particular a
    system variable with a non-empty value wins over every user-supplied
    one. *)
Theorem step_environment_precedence config host gen buildNumber basename options step key :
  let context := Runner.createExecutionContext config host gen buildNumber basename options in
  let srcs := Runner.sources config host gen buildNumber basename options in
  let system :=
    getBitbucketVariables (environmentConfig config) gen
      (Runner.pipelineContext buildNumber basename options) in
  Js.get (Runner.containerEnvironment step context) key = effective key (concat srcs) ∧
  (∀ i src v,
      srcs !! i = Some src →
      effective key src = Some v →
      (∀ j later, i < j → srcs !! j = Some later → effective key later = None) →
      Js.get (Runner.containerEnvironment step context) key = Some v) ∧
  (∀ s, Js.get system key = Some (EnvStr s) → s ≠ EmptyString →
        Js.get (Runner.containerEnvironment step context) key = Some (EnvStr s)).
Proof.
  intros context srcs system.
  assert (Js.get (Runner.containerEnvironment step context) key = effective key (concat srcs))
    as Hget by apply get_merge_twice.
  split_and!.
  - exact Hget.
  - intros i src v Hi Hv Hlater. rewrite Hget.
    by apply (effective_concat_last srcs key i src v).
  - intros s Hs Hne. rewrite Hget. unfold srcs, Runner.sources.
    rewrite concat_app, effective_app. simpl. rewrite app_nil_r.
    fold system.
    rewrite (effective_of_get system key (EnvStr s));
      [| apply getBitbucketVariables_keys_NoDup | exact Hs].
    simpl. destruct (String.eqb s "") eqn:E; [|done].
    by apply String.eqb_eq in E.
Qed.

(** The system variable [BITBUCKET_BRANCH] of a run with no branch option
    wins over the value found in the process environment. *)
Lemma step_environment_precedence_witness :
  Js.get
    (Runner.containerEnvironment Scenarios.greetingStep
       (Runner.createExecutionContext Scenarios.plainConfig
          {| processEnv := [("BITBUCKET_BRANCH", EnvStr "feature")];
             cwd := "/repo"; loadEnvFile := fun _ => None |}
          Scenarios.someGenerated 1 "repo" Scenarios.noOptions))
    "BITBUCKET_BRANCH"
  = Some (EnvStr "local").
Proof.
  apply (step_environment_precedence Scenarios.plainConfig
           {| processEnv := [("BITBUCKET_BRANCH", EnvStr "feature")];
              cwd := "/repo"; loadEnvFile := fun _ => None |}
           Scenarios.someGenerated 1 "repo" Scenarios.noOptions
           Scenarios.greetingStep "BITBUCKET_BRANCH").
  - reflexivity.
  - discriminate.
Defined.

(** C2 as stated fails twice over. The reserved name [BITBUCKET_TAG] is a
    system variable (set to the empty string), yet the value the user
    supplied in the process environment is the one in force; and the
    variable a step sets for itself is not in the environment its
    container gets. *)
Lemma step_environment_counterexample :
  let context :=
    Runner.createExecutionContext Scenarios.plainConfig Scenarios.taggedHost
      Scenarios.someGenerated 1 "repo" Scenarios.noOptions in
  Js.get
    (getBitbucketVariables (environmentConfig Scenarios.plainConfig) Scenarios.someGenerated
       (Runner.pipelineContext 1 "repo" Scenarios.noOptions))
    "BITBUCKET_TAG" = Some (EnvStr "") ∧
  Js.get (Runner.containerEnvironment Scenarios.greetingStep context) "BITBUCKET_TAG"
  = Some (EnvStr "v1.0") ∧
  variables Scenarios.greetingStep = Some [("GREETING", "hello")] ∧
  Js.get (Runner.containerEnvironment Scenarios.greetingStep context) "GREETING" = None.
Proof. vm_compute. done. Qed.

(** The variables of the runner configuration replace the values computed
    from the pipeline context: [Object.assign] has updated its target
    before it reads it as the last source. *)
Remark configured_defaults_replace_computed :
  Js.get
    (getBitbucketVariables
       {| bitbucketVariables := Some [("BITBUCKET_BRANCH", EnvStr "local")];
          secureVariables := None; envFile := None |}
       Scenarios.someGenerated
       (Runner.pipelineContext 1 "repo"
          {| cli_pipeline := None; cli_branch := Some "main"; cli_custom := None;
             cli_verbose := None; cli_dryRun := None; cli_configFile := None;
             cli_envFile := None; cli_clearCache := None |}))
    "BITBUCKET_BRANCH"
  = Some (EnvStr "local").
Proof. vm_compute. done. Qed.

End StepEnvironment.

(** ** Selecting and listing pipelines *)

Section Selection.
Import Interfaces.
Context {P : Type}.
Implicit Types (pipelines : Pipelines P) (options : CLIOptions).

Lemma given_Some name : name ≠ EmptyString → Js.given (Some name) = true.
Proof.
  intros Hne. simpl. destruct (String.eqb name "") eqn:E; [|done].
  by apply String.eqb_eq in E.
Qed.

Lemma str_or_Some name fallback : name ≠ EmptyString → Js.str_or (Some name) fallback = name.
Proof.
  intros Hne. simpl. destruct (String.eqb name "") eqn:E; [|done].
  by apply String.eqb_eq in E.
Qed.

(** What [record[name]] gives: the pipeline stored under the name, a
    member of [Object.prototype] when the name is one of its names and
    the record has no pipeline of that name, nothing otherwise. *)
Lemma lookup_Some (record : list (string * P)) name :
  Runner.lookup (Some record) name =
  match Js.get record name with
  | Some pipeline => Some (Runner.Own pipeline)
  | None =>
      if bool_decide (name ∈ Js.inheritedNames) then Some (Runner.Inherited name) else None
  end.
Proof. done. Qed.

Lemma lookup_not_inherited (section : option (list (string * P))) name :
  name ∉ Js.inheritedNames →
  Runner.lookup section name = Runner.Own <$> (section ≫= fun record => Js.get record name).
Proof.
  intros Hn. destruct section as [record|]; [|done]. simpl.
  destruct (Js.get record name); [done|]. by rewrite bool_decide_false.
Qed.

(** C5, as the code has it. The selection goes by the first option that
    is set (an option is set when it holds a non-empty string). With
    [custom] set, whatever [branch] says, what the section [custom] gives
    under that name is returned, and there is an error only when it gives
    nothing; otherwise, with [branch] set, what the section [branches]
    gives under that name is returned, the default pipeline when it gives
    nothing, and it is an error only if both are missing. The two
    sections are read with [record[name]]: for a name that the section
    does not define and that is not a name of [Object.prototype] this is
    the error or the fall-back that C5 states, but for a name such as
    [constructor] the inherited member is returned as the pipeline, and
    there is neither an error nor a fall-back. Otherwise, with [pipeline]
    set, only ["default"] is accepted. Otherwise the default pipeline is
    used, and it is an error if there is none. *)
Theorem selectPipeline_resolution pipelines options :
  (∀ name, cli_custom options = Some name → name ≠ EmptyString →
     Runner.selectPipeline pipelines options =
     let missing :=
       throw (PipelineError VALIDATION_ERROR ("Custom pipeline not found: " +:+ name)) in
     match custom pipelines with
     | Some record =>
         match Js.get record name with
         | Some pipeline => ret (Runner.Own pipeline)
         | None =>
             if bool_decide (name ∈ Js.inheritedNames) then ret (Runner.Inherited name)
             else missing
         end
     | None => missing
     end) ∧
  (Js.given (cli_custom options) = false →
   ∀ name, cli_branch options = Some name → name ≠ EmptyString →
     Runner.selectPipeline pipelines options =
     let fallback :=
       match default pipelines with
       | Some pipeline => ret (Runner.Own pipeline)
       | None =>
           throw (PipelineError VALIDATION_ERROR
                    ("No pipeline found for branch " +:+ name +:+ " and no default pipeline"))
       end in
     match branches pipelines with
     | Some record =>
         match Js.get record name with
         | Some pipeline => ret (Runner.Own pipeline)
         | None =>
             if bool_decide (name ∈ Js.inheritedNames) then ret (Runner.Inherited name)
             else fallback
         end
     | None => fallback
     end) ∧
  (Js.given (cli_custom options) = false → Js.given (cli_branch options) = false →
   ∀ name, cli_pipeline options = Some name → name ≠ EmptyString →
     Runner.selectPipeline pipelines options =
     if String.eqb name "default" then
       match default pipelines with
       | Some pipeline => ret (Runner.Own pipeline)
       | None => throw (PipelineError VALIDATION_ERROR "Default pipeline not found")
       end
     else throw (PipelineError VALIDATION_ERROR ("Unknown pipeline: " +:+ name))) ∧
  (Js.given (cli_custom options) = false → Js.given (cli_branch options) = false →
   Js.given (cli_pipeline options) = false →
     Runner.selectPipeline pipelines options =
     match default pipelines with
     | Some pipeline => ret (Runner.Own pipeline)
     | None => throw (PipelineError VALIDATION_ERROR "No default pipeline found")
     end).
Proof.
  unfold Runner.selectPipeline. split_and!.
  - intros name -> Hne. rewrite given_Some, str_or_Some by done.
    destruct (custom pipelines) as [record|]; [|done]. rewrite lookup_Some. simpl.
    destruct (Js.get record name); [done|]. by case_bool_decide.
  - intros -> name -> Hne. rewrite given_Some, str_or_Some by done.
    destruct (branches pipelines) as [record|]; [|done]. rewrite lookup_Some. simpl.
    destruct (Js.get record name); [done|]. by case_bool_decide.
  - intros -> -> name -> Hne. by rewrite given_Some, str_or_Some by done.
  - by intros -> -> ->.
Qed.

End Selection.

(** C5 at a name of [Object.prototype]: the document defines
    [custom.release] and [default] only, and the intent
    [{custom: "constructor"}] selects the constructor that the section
    inherits, where C5 requires a selection error. *)
Lemma selectPipeline_resolution_witness :
  custom Scenarios.releaseAndDefault ≫= (fun record => Js.get record "constructor") = None
  ∧ Runner.selectPipeline Scenarios.releaseAndDefault (Scenarios.customOption "constructor")
    = ret (Runner.Inherited "constructor").
Proof.
  split; [reflexivity|].
  apply (proj1 (selectPipeline_resolution Scenarios.releaseAndDefault
                  (Scenarios.customOption "constructor")) "constructor").
  - reflexivity.
  - discriminate.
Defined.

(** Likewise for a branch: with no pipeline for the branch [toString],
    the default pipeline is not used. *)
Example selectPipeline_inherited_branch :
  Runner.selectPipeline Scenarios.defaultAndMain
    {| Interfaces.cli_pipeline := None; Interfaces.cli_branch := Some "toString";
       Interfaces.cli_custom := None; Interfaces.cli_verbose := None;
       Interfaces.cli_dryRun := None; Interfaces.cli_configFile := None;
       Interfaces.cli_envFile := None; Interfaces.cli_clearCache := None |}
  = ret (Runner.Inherited "toString").
Proof. reflexivity. Qed.

(** S6: with [custom.release] and [default] defined, the intent
    [{custom: "release", branch: "main"}] selects [custom.release]; a
    branch without a pipeline of its own falls back to [default], and a
    pipeline name other than ["default"] is an error. *)
Example selectPipeline_S6 :
  Runner.selectPipeline Scenarios.releaseAndDefault
    {| Interfaces.cli_pipeline := None; Interfaces.cli_branch := Some "main";
       Interfaces.cli_custom := Some "release"; Interfaces.cli_verbose := None;
       Interfaces.cli_dryRun := None; Interfaces.cli_configFile := None;
       Interfaces.cli_envFile := None; Interfaces.cli_clearCache := None |}
  = ret (Runner.Own [Interfaces.ItemStep (Scenarios.scriptStep "release" ["make release"])]) ∧
  Runner.selectPipeline Scenarios.releaseAndDefault
    {| Interfaces.cli_pipeline := None; Interfaces.cli_branch := Some "main";
       Interfaces.cli_custom := None; Interfaces.cli_verbose := None;
       Interfaces.cli_dryRun := None; Interfaces.cli_configFile := None;
       Interfaces.cli_envFile := None; Interfaces.cli_clearCache := None |}
  = ret (Runner.Own [Interfaces.ItemStep (Scenarios.scriptStep "build" ["make"])]) ∧
  Runner.selectPipeline Scenarios.releaseAndDefault
    {| Interfaces.cli_pipeline := Some "feature"; Interfaces.cli_branch := None;
       Interfaces.cli_custom := None; Interfaces.cli_verbose := None;
       Interfaces.cli_dryRun := None; Interfaces.cli_configFile := None;
       Interfaces.cli_envFile := None; Interfaces.cli_clearCache := None |}
  = throw (PipelineError VALIDATION_ERROR "Unknown pipeline: feature").
Proof. split_and!; reflexivity. Qed.

Section Listing.
Context {P : Type}.
Implicit Types (config : Pipelines P) (record : option (list (string * P))).

Lemma foldl_push prefix (ks acc : list string) :
  foldl (fun acc key => acc ++ [prefix +:+ key]) acc ks = acc ++ map (String.append prefix) ks.
Proof.
  revert acc. induction ks as [|k ks IH]; intros acc; simpl.
  - by rewrite app_nil_r.
  - by rewrite IH, <- app_assoc.
Qed.

Lemma pushKeys_app prefix record (acc : list string) :
  Runner.pushKeys prefix record acc
  = acc ++ map (String.append prefix) (Runner.recordKeys record).
Proof.
  destruct record as [r|]; simpl; [apply foldl_push | by rewrite app_nil_r].
Qed.

(** C8, as the code has it. The list holds ["default"] first when a
    default pipeline is defined, then one [branches/<name>] per branch
    pipeline, one [custom/<name>] per custom pipeline and one
    [tags/<name>] per tag pipeline, each group in the order of the keys
    of the document; it is not sorted, and it holds nothing else. *)
Theorem listPipelines_labels config :
  Runner.listPipelines (inr config) =
    (match default config with Some _ => ["default"] | None => [] end)
    ++ map (String.append "branches/") (Runner.recordKeys (branches config))
    ++ map (String.append "custom/") (Runner.recordKeys (custom config))
    ++ map (String.append "tags/") (Runner.recordKeys (tags config))
  ∧ ∀ label,
      label ∈ Runner.listPipelines (inr config) ↔
      (label = "default" ∧ is_Some (default config))
      ∨ (∃ name, label = "branches/" +:+ name ∧ name ∈ Runner.recordKeys (branches config))
      ∨ (∃ name, label = "custom/" +:+ name ∧ name ∈ Runner.recordKeys (custom config))
      ∨ (∃ name, label = "tags/" +:+ name ∧ name ∈ Runner.recordKeys (tags config)).
Proof.
  assert (Runner.listPipelines (inr config) =
    (match default config with Some _ => ["default"] | None => [] end)
    ++ map (String.append "branches/") (Runner.recordKeys (branches config))
    ++ map (String.append "custom/") (Runner.recordKeys (custom config))
    ++ map (String.append "tags/") (Runner.recordKeys (tags config))) as Heq.
  { unfold Runner.listPipelines. rewrite !pushKeys_app, <- !app_assoc.
    by destruct (default config). }
  split; [exact Heq |].
  intros label. rewrite Heq, !elem_of_app, !list_elem_of_fmap.
  assert (label ∈ (match default config with Some _ => ["default"] | None => [] end)
          ↔ label = "default" ∧ is_Some (default config)) as ->; [|done].
  destruct (default config) as [d|].
  - rewrite list_elem_of_singleton. split; [intros ->; eauto | by intros [-> _]].
  - rewrite elem_of_nil. split; [done | intros [_ [? ?]]; done].
Qed.

End Listing.

(** C8 as stated fails: with a default pipeline and one for the branch
    [main], the list is [default] then [branches/main], which is not in
    sorted order. *)
Lemma listPipelines_not_sorted :
  Runner.listPipelines (inr Scenarios.defaultAndMain) = ["default"; "branches/main"] ∧
  Runner.sorted (Runner.listPipelines (inr Scenarios.defaultAndMain)) = false.
Proof. split; reflexivity. Qed.

(** ** The loader *)

Section LoaderFacts.
Import Js Loader.
Variable stringify : Value -> string.

(** Splits a successful sequence of calls into its successful calls. *)
Ltac split_bind H :=
  repeat match type of H with
         | bind ?m _ = inr _ =>
             let E := fresh "E" in
             destruct m eqn:E; simpl in H; [discriminate H |]
         | (if ?b then _ else _) = inr _ =>
             let E := fresh "E" in
             destruct b eqn:E; simpl in H; try discriminate H
         end.

(** C6, as the code has it. Where a step gives both [max-time] and
    [maxTime], or both [after-script] and [afterScript], and where an
    image gives both [run-as-user] and [runAsUser], the canonical model
    takes the hyphenated form whenever its value is truthy, and the
    camel-case form only otherwise. *)
Theorem hyphenated_key_wins fields :
  (∀ s, transformStep stringify (Object fields) = inr s →
     maxTime s = (if truthy (field fields "max-time")
                  then field fields "max-time" else field fields "maxTime") ∧
     afterScript s = (if truthy (field fields "after-script")
                      then field fields "after-script" else field fields "afterScript")) ∧
  (∀ o, transformImage (Object fields) = inr (ImageOf o) →
     image_runAsUser o = (if truthy (field fields "run-as-user")
                          then field fields "run-as-user" else field fields "runAsUser")).
Proof.
  split.
  - intros s H. unfold transformStep in H. simpl in H.
    split_bind H. injection H as <-. simpl. done.
  - intros o H. unfold transformImage in H. simpl in H.
    split_bind H. injection H as <-. simpl. done.
Qed.

(** What [transformArtifacts] does with the object form: [download] is
    [true] unless the document says [false]. *)
Lemma transformArtifacts_object fields :
  transformArtifacts (Object fields)
  = inr {| paths := (if truthy (field fields "paths") then field fields "paths" else Arr []);
           download := Some (not_false (field fields "download")) |}.
Proof. reflexivity. Qed.

Lemma transformArtifacts_bare_list items :
  transformArtifacts (Arr items) = inr {| paths := Arr items; download := None |}.
Proof. reflexivity. Qed.

(** C7, what the code does with a bare list: in the canonical model of a
    step whose [artifacts] is a list, the list becomes [paths] and the
    object has no [download] property at all, where C7 has
    [download: true]; the default is only applied to the object form. *)
Theorem bare_list_artifacts_have_no_download fields items s :
  field fields "artifacts" = Arr items →
  transformStep stringify (Object fields) = inr s →
  artifacts s = Some {| paths := Arr items; download := None |}.
Proof.
  intros Hf H. unfold transformStep in H. simpl in H. rewrite Hf in H. simpl in H.
  split_bind H. injection H as <-. done.
Qed.

End LoaderFacts.

(** A step with both spellings: the hyphenated values are the ones kept. *)
Lemma hyphenated_key_wins_witness :
  ∃ s, Loader.transformStep Scenarios.noStringify Scenarios.bothSpellings = inr s ∧
       Loader.maxTime s = Js.Num 10 ∧
       Loader.afterScript s = Js.Arr [Js.Str "echo hyphen"].
Proof.
  eexists. split; [reflexivity |].
  exact (proj1 (hyphenated_key_wins Scenarios.noStringify Scenarios.bothSpellingsFields)
           _ eq_refl).
Defined.

(** C6 as stated fails: with [max-time: 10] and [maxTime: 20] on one
    step, the canonical [maxTime] is 10, the hyphenated value, and not
    the camel-case 20; likewise for [after-script]. *)
Lemma camelCase_does_not_win :
  ∃ s, Loader.transformStep Scenarios.noStringify Scenarios.bothSpellings = inr s ∧
       Js.field Scenarios.bothSpellingsFields "maxTime" = Js.Num 20 ∧
       Loader.maxTime s ≠ Js.Num 20 ∧
       Loader.afterScript s ≠ Js.Arr [Js.Str "echo camel"].
Proof. eexists. split; [reflexivity |]. split; [reflexivity |]. split; discriminate. Qed.

(** C7 at a document: the artifacts of the step come out without
    [download]. *)
Lemma bare_list_artifacts_of_step :
  ∃ s, Loader.transformStep Scenarios.noStringify Scenarios.bareArtifacts = inr s ∧
       Loader.artifacts s
       = Some {| Loader.paths := Js.Arr [Js.Str "dist/**"]; Loader.download := None |}.
Proof.
  eexists. split; [reflexivity |].
  exact (bare_list_artifacts_have_no_download Scenarios.noStringify
           Scenarios.bareArtifactsFields [Js.Str "dist/**"] _ eq_refl eq_refl).
Defined.

(** The loader on a document: the group fails fast by default, and a
    script given as one string becomes a list of one line. *)
Example parse_parallel_document :
  ∃ config first second,
    Loader.parse Scenarios.noStringify (inr Scenarios.parallelDocument) = inr config ∧
    Loader.config_image config = Some (Loader.ImageString "node:18") ∧
    default (Loader.config_pipelines config)
    = Some [Loader.ItemParallel {| Loader.failFast := true; Loader.steps := [first; second] |}] ∧
    Loader.script first = [Js.Str "sleep 5; true"] ∧
    Loader.script second = [Js.Str "false"] ∧
    Runner.listPipelines (inr (Loader.config_pipelines config)) = ["default"].
Proof. eexists _, _, _. split_and!; reflexivity. Qed.

(** With the object form, and [download] not given, the default applies. *)
Example object_artifacts_default_download :
  Loader.transformArtifacts (Js.Object [("paths", Js.Arr [Js.Str "dist/**"])])
  = inr {| Loader.paths := Js.Arr [Js.Str "dist/**"]; Loader.download := Some true |}.
Proof. reflexivity. Qed.

(** ** Step names *)

Section StepNames.
Import Artifacts.
Implicit Types (s t : string) (c : ascii) (p : ascii -> bool).

(** A fact about one character, checked on each of the 256. *)
Ltac by_cases_on c :=
  destruct c as [[] [] [] [] [] [] [] []]; vm_compute; try reflexivity; try discriminate;
  intros; try discriminate; try reflexivity.

Lemma allowed_lower_slug c : allowed c = true → is_slug_char (lowerChar c) = true.
Proof. by_cases_on c. Qed.

Lemma underscore_lower c : is_underscore (lowerChar c) = is_underscore c.
Proof. by_cases_on c. Qed.

Lemma slug_allowed c : is_slug_char c = true → allowed c = true.
Proof. by_cases_on c. Qed.

Lemma slug_lower_id c : is_slug_char c = true → lowerChar c = c.
Proof. by_cases_on c. Qed.

Lemma replaced_not_underscore c :
  negb (is_underscore (if allowed c then c else "_"%char)) = is_name_char c.
Proof. by_cases_on c. Qed.

Lemma replaced_allowed c : allowed (if allowed c then c else "_"%char) = true.
Proof. by_cases_on c. Qed.

(** *** Each pass keeps the characters in their class *)

Lemma replaceDisallowed_allowed s : all_chars allowed (replaceDisallowed s) = true.
Proof. induction s as [|c s IH]; simpl; [done |]. by rewrite replaced_allowed, IH. Qed.

Lemma collapse_cons c s :
  collapseUnderscores (String c s) =
  if is_underscore c && starts_with_underscore s
  then collapseUnderscores s
  else String c (collapseUnderscores s).
Proof. destruct s as [|c' s]; simpl; [by rewrite andb_false_r | done]. Qed.

Lemma collapse_all_chars p s :
  all_chars p s = true → all_chars p (collapseUnderscores s) = true.
Proof.
  induction s as [|c s IH]; [done |]. rewrite collapse_cons. simpl.
  intros [Hc Hs]%andb_true_iff.
  destruct (is_underscore c && starts_with_underscore s); simpl; [auto |].
  by rewrite Hc, IH.
Qed.

Lemma trimLeading_all_chars p s :
  all_chars p s = true → all_chars p (trimLeading s) = true.
Proof.
  induction s as [|c s IH]; simpl; [done |].
  intros H. destruct (is_underscore c); [|done].
  apply andb_true_iff in H as [_ H]. auto.
Qed.

Lemma trimTrailing_all_chars p s :
  all_chars p s = true → all_chars p (trimTrailing s) = true.
Proof.
  induction s as [|c s IH]; simpl; [done |].
  intros [Hc Hs]%andb_true_iff. specialize (IH Hs).
  destruct (trimTrailing s) as [|c' t]; simpl in *.
  - destruct (is_underscore c); simpl; [done | by rewrite Hc].
  - by rewrite Hc, IH.
Qed.

Lemma toLowerCase_slug s :
  all_chars allowed s = true → all_chars is_slug_char (toLowerCase s) = true.
Proof.
  induction s as [|c s IH]; simpl; [done |].
  intros [Hc Hs]%andb_true_iff. by rewrite allowed_lower_slug, IH.
Qed.

(** *** No two underscores in a row *)

Lemma starts_collapse s :
  starts_with_underscore (collapseUnderscores s) = starts_with_underscore s.
Proof.
  induction s as [|c s IH]; [done |]. rewrite collapse_cons.
  destruct (is_underscore c) eqn:Ec; simpl.
  - destruct (starts_with_underscore s) eqn:Es; simpl; [by rewrite IH, Ec | by rewrite Ec].
  - by rewrite Ec.
Qed.

Lemma no_double_cons c s :
  no_double_underscore (String c s) =
  negb (is_underscore c && starts_with_underscore s) && no_double_underscore s.
Proof. destruct s as [|c' s]; simpl; [by rewrite andb_false_r | done]. Qed.

Lemma collapse_no_double s : no_double_underscore (collapseUnderscores s) = true.
Proof.
  induction s as [|c s IH]; [done |]. rewrite collapse_cons.
  destruct (is_underscore c && starts_with_underscore s) eqn:E; [done |].
  by rewrite no_double_cons, starts_collapse, E, IH.
Qed.

Lemma trimLeading_no_double s :
  no_double_underscore s = true → no_double_underscore (trimLeading s) = true.
Proof.
  induction s as [|c s IH]; [done |]. rewrite no_double_cons.
  intros [H1 H2]%andb_true_iff. simpl.
  destruct (is_underscore c) eqn:Ec; [auto |].
  by rewrite no_double_cons, Ec, H2.
Qed.

Lemma trimTrailing_cons c s :
  trimTrailing (String c s) =
  match trimTrailing s with
  | EmptyString => if is_underscore c then EmptyString else String c EmptyString
  | t => String c t
  end.
Proof. reflexivity. Qed.

Lemma starts_trimTrailing s :
  starts_with_underscore (trimTrailing s) = true → starts_with_underscore s = true.
Proof.
  destruct s as [|c s]; [done |]. rewrite trimTrailing_cons.
  destruct (trimTrailing s); simpl; [|done].
  by destruct (is_underscore c) eqn:E; simpl; rewrite ?E.
Qed.

Lemma trimTrailing_no_double s :
  no_double_underscore s = true → no_double_underscore (trimTrailing s) = true.
Proof.
  induction s as [|c s IH]; [done |]. rewrite no_double_cons, trimTrailing_cons.
  intros [H1 H2]%andb_true_iff. specialize (IH H2).
  destruct (trimTrailing s) as [|c' t] eqn:Et.
  - by destruct (is_underscore c).
  - rewrite no_double_cons, IH, andb_true_r.
    destruct (starts_with_underscore (String c' t)) eqn:Es; [|by rewrite andb_false_r].
    rewrite <- Et in Es. apply starts_trimTrailing in Es. by rewrite Es in H1.
Qed.

Lemma starts_lower s :
  starts_with_underscore (toLowerCase s) = starts_with_underscore s.
Proof. destruct s as [|c s]; simpl; [done | apply underscore_lower]. Qed.

Lemma toLowerCase_no_double s :
  no_double_underscore (toLowerCase s) = no_double_underscore s.
Proof.
  induction s as [|c s IH]; [done |].
  change (toLowerCase (String c s)) with (String (lowerChar c) (toLowerCase s)).
  by rewrite !no_double_cons, starts_lower, underscore_lower, IH.
Qed.

(** *** No underscore at either end *)

Lemma trimLeading_starts s : starts_with_underscore (trimLeading s) = false.
Proof.
  induction s as [|c s IH]; simpl; [done |].
  destruct (is_underscore c) eqn:E; [done | by simpl].
Qed.

Lemma trimTrailing_starts s :
  starts_with_underscore s = false → starts_with_underscore (trimTrailing s) = false.
Proof.
  intros H. destruct (starts_with_underscore (trimTrailing s)) eqn:E; [|done].
  apply starts_trimTrailing in E. congruence.
Qed.

Lemma ends_cons c s :
  ends_with_underscore (String c s) =
  match s with
  | EmptyString => is_underscore c
  | _ => ends_with_underscore s
  end.
Proof. reflexivity. Qed.

Lemma trimTrailing_ends s : ends_with_underscore (trimTrailing s) = false.
Proof.
  induction s as [|c s IH]; [done |]. rewrite trimTrailing_cons.
  destruct (trimTrailing s) as [|c' t].
  - destruct (is_underscore c) eqn:E; simpl; [done | by rewrite E].
  - by rewrite ends_cons.
Qed.

Lemma ends_lower s : ends_with_underscore (toLowerCase s) = ends_with_underscore s.
Proof.
  induction s as [|c s IH]; [done |].
  change (toLowerCase (String c s)) with (String (lowerChar c) (toLowerCase s)).
  rewrite !ends_cons. destruct s as [|c' s]; [apply underscore_lower | exact IH].
Qed.

(** *** A tidy name is left alone *)

Lemma replaceDisallowed_id s : all_chars allowed s = true → replaceDisallowed s = s.
Proof.
  induction s as [|c s IH]; simpl; [done |].
  intros [Hc Hs]%andb_true_iff. by rewrite Hc, IH.
Qed.

Lemma collapse_id s : no_double_underscore s = true → collapseUnderscores s = s.
Proof.
  induction s as [|c s IH]; [done |]. rewrite no_double_cons, collapse_cons.
  intros [H1 H2]%andb_true_iff. apply negb_true_iff in H1. by rewrite H1, IH.
Qed.

Lemma trimLeading_id s : starts_with_underscore s = false → trimLeading s = s.
Proof. destruct s as [|c s]; simpl; [done | by intros ->]. Qed.

Lemma trimTrailing_id s : ends_with_underscore s = false → trimTrailing s = s.
Proof.
  induction s as [|c s IH]; [done |]. rewrite ends_cons, trimTrailing_cons.
  destruct s as [|c' s]; [by intros -> |].
  intros H. by rewrite (IH H).
Qed.

Lemma toLowerCase_id s : all_chars is_slug_char s = true → toLowerCase s = s.
Proof.
  induction s as [|c s IH]; simpl; [done |].
  intros [Hc Hs]%andb_true_iff. by rewrite slug_lower_id, IH.
Qed.

Lemma all_chars_weaken p (q : ascii -> bool) s :
  (∀ c, p c = true → q c = true) → all_chars p s = true → all_chars q s = true.
Proof.
  intros Hpq. induction s as [|c s IH]; simpl; [done |].
  intros [Hc Hs]%andb_true_iff. by rewrite (Hpq c Hc), IH.
Qed.

Lemma sanitizeStepName_tidy s : tidy (sanitizeStepName s) = true.
Proof.
  unfold tidy, sanitizeStepName, trimUnderscores.
  set (r := replaceDisallowed s). set (k := collapseUnderscores r).
  rewrite toLowerCase_slug, toLowerCase_no_double, starts_lower, ends_lower.
  - rewrite trimTrailing_no_double, trimTrailing_starts, trimTrailing_ends; [done | |].
    + apply trimLeading_starts.
    + apply trimLeading_no_double, collapse_no_double.
  - apply trimTrailing_all_chars, trimLeading_all_chars, collapse_all_chars,
      replaceDisallowed_allowed.
Qed.

Lemma sanitizeStepName_of_tidy t : tidy t = true → sanitizeStepName t = t.
Proof.
  unfold tidy. intros H. repeat (apply andb_true_iff in H as [H ?]).
  unfold sanitizeStepName, trimUnderscores.
  rewrite replaceDisallowed_id by (by apply (all_chars_weaken is_slug_char), H; apply slug_allowed).
  rewrite collapse_id by done.
  rewrite trimLeading_id by (by apply negb_true_iff).
  rewrite trimTrailing_id by (by apply negb_true_iff).
  by apply toLowerCase_id.
Qed.

(** *** When the result is empty *)

Lemma any_replaceDisallowed s :
  any_char (fun c => negb (is_underscore c)) (replaceDisallowed s) = any_char is_name_char s.
Proof. induction s as [|c s IH]; simpl; [done |]. by rewrite replaced_not_underscore, IH. Qed.

Lemma any_starts s :
  starts_with_underscore s = true →
  any_char (fun c => negb (is_underscore c)) s
  = any_char (fun c => negb (is_underscore c)) (match s with String _ s' => s' | _ => s end).
Proof. destruct s as [|c s]; simpl; [done |]. by intros ->. Qed.

Lemma any_collapse s :
  any_char (fun c => negb (is_underscore c)) (collapseUnderscores s)
  = any_char (fun c => negb (is_underscore c)) s.
Proof.
  induction s as [|c s IH]; [done |]. rewrite collapse_cons.
  destruct (is_underscore c) eqn:Ec; simpl; rewrite Ec; simpl.
  - by destruct (starts_with_underscore s); simpl; rewrite ?Ec, IH.
  - done.
Qed.

Lemma any_trimLeading s :
  any_char (fun c => negb (is_underscore c)) (trimLeading s)
  = any_char (fun c => negb (is_underscore c)) s.
Proof.
  induction s as [|c s IH]; simpl; [done |].
  destruct (is_underscore c) eqn:Ec; simpl; [done | by rewrite Ec].
Qed.

Lemma trimTrailing_empty s :
  String.eqb (trimTrailing s) EmptyString
  = negb (any_char (fun c => negb (is_underscore c)) s).
Proof.
  induction s as [|c s IH]; [done |]. rewrite trimTrailing_cons. simpl.
  destruct (trimTrailing s) as [|c' t]; simpl in *.
  - rewrite <- (negb_involutive (any_char _ s)), <- IH. simpl.
    by destruct (is_underscore c).
  - rewrite <- (negb_involutive (any_char _ s)), <- IH. simpl.
    by rewrite orb_true_r.
Qed.

Lemma toLowerCase_empty s :
  String.eqb (toLowerCase s) EmptyString = String.eqb s EmptyString.
Proof. by destruct s. Qed.

(** C9, as the code has it. [sanitizeStepName] is idempotent, and its
    result is a string over [[a-z0-9_-]]; the result is empty, and so
    does not match [[a-z0-9_-]+], exactly when the name holds no letter,
    digit or hyphen. *)
Theorem sanitizeStepName_idempotent s :
  sanitizeStepName (sanitizeStepName s) = sanitizeStepName s ∧
  all_chars is_slug_char (sanitizeStepName s) = true ∧
  matches_slug (sanitizeStepName s) = any_char is_name_char s.
Proof.
  pose proof (sanitizeStepName_tidy s) as Ht. split_and!.
  - by apply sanitizeStepName_of_tidy.
  - unfold tidy in Ht. by repeat (apply andb_true_iff in Ht as [Ht ?]).
  - unfold matches_slug.
    assert (all_chars is_slug_char (sanitizeStepName s) = true) as ->.
    { unfold tidy in Ht. by repeat (apply andb_true_iff in Ht as [Ht ?]). }
    unfold sanitizeStepName, trimUnderscores.
    rewrite toLowerCase_empty, trimTrailing_empty, negb_involutive.
    by rewrite any_trimLeading, any_collapse, any_replaceDisallowed.
Qed.

End StepNames.

(** C9 as stated fails: a name without a letter, a digit or a hyphen is
    sanitized to the empty string, which does not match [[a-z0-9_-]+]. *)
Lemma sanitizeStepName_can_be_empty :
  Artifacts.sanitizeStepName "!!!" = EmptyString ∧
  Artifacts.matches_slug (Artifacts.sanitizeStepName "!!!") = false.
Proof. split; reflexivity. Qed.

Example sanitizeStepName_example :
  Artifacts.sanitizeStepName "  Build & Test (v2)__final " = "build_test_v2_final".
Proof. reflexivity. Qed.

(** ** The scheduler *)

Section SchedulerFacts.
Import Interfaces Runner.
Variable behaviour : nat -> Step -> StepEffects.
Implicit Types (step : Step) (options : ExecutionOptions) (run : Run)
  (items pre post : list PipelineItem) (results : list StepResult).

Lemma executeStep_result_consistent step options fx :
  consistent (executeStep_result step options fx).
Proof.
  unfold consistent, executeStep_result, executeStep_body.
  destruct (dryRun options); [done |].
  destruct (runStepContainer fx) as [e|cr]; simpl; [done |].
  destruct (caches step), (saveCaches fx) as [e|[]]; simpl; try done;
    destruct (artifacts step), (saveArtifacts fx) as [e'|[]]; simpl; done.
Qed.

(** *** A parallel group *)

Lemma launch_own steps index options run :
  launch behaviour steps index options run
  = (ownPromises behaviour steps (length (started run)) (clock run) options,
     mkRun (clock run) (started run ++ steps)).
Proof.
  revert index run. induction steps as [|step steps IH]; intros index run; simpl.
  - rewrite app_nil_r. by destruct run.
  - rewrite IH. simpl. rewrite length_app, Nat.add_1_r, <- app_assoc. done.
Qed.

Lemma first_rejection_own steps calls now options :
  Js.first_rejection (ownPromises behaviour steps calls now options) = None.
Proof. revert calls. induction steps as [|step steps IH]; intros calls; simpl; [done | by rewrite IH]. Qed.

Lemma values_own steps calls now options :
  Js.values (ownPromises behaviour steps calls now options)
  = ownResults behaviour steps calls options.
Proof. revert calls. induction steps as [|step steps IH]; intros calls; simpl; [done | by rewrite IH]. Qed.

Lemma fulfilledOnly_own steps calls now options :
  fulfilledOnly (map Js.outcome (ownPromises behaviour steps calls now options))
  = ownResults behaviour steps calls options.
Proof.
  revert calls. induction steps as [|step steps IH]; intros calls; simpl; [done |].
  unfold fulfilledOnly in *. simpl. by rewrite IH.
Qed.

Lemma all_own steps calls now options :
  Js.all (ownPromises behaviour steps calls now options)
  = Js.mkPromise (Js.latest (ownPromises behaviour steps calls now options))
      (Js.Fulfilled (ownResults behaviour steps calls options)).
Proof. unfold Js.all. by rewrite first_rejection_own, values_own. Qed.

(** Whatever [failFast] says, the group resolves to the results of its
    children, when the last of them has settled. *)
Lemma executeParallelSteps_own parallel options run :
  executeParallelSteps behaviour parallel options run
  = (inr (ownResults behaviour (steps parallel) (length (started run)) options),
     mkRun
       (Nat.max (clock run)
          (Js.latest (ownPromises behaviour (steps parallel) (length (started run))
                        (clock run) options)))
       (started run ++ steps parallel)).
Proof.
  unfold executeParallelSteps. rewrite launch_own. simpl.
  rewrite all_own. unfold Js.await, Js.allSettled, at_clock. simpl.
  case_bool_decide.
  - rewrite fulfilledOnly_own. by rewrite Nat.max_l by lia.
  - done.
Qed.

Lemma ownResults_lookup steps calls options i step :
  steps !! i = Some step →
  ownResults behaviour steps calls options !! i
  = Some (executeStep_result step options (behaviour (calls + i) step)).
Proof.
  revert calls i. induction steps as [|s0 steps IH]; intros calls i; [done |].
  destruct i as [|i]; simpl.
  - intros [= ->]. by rewrite Nat.add_0_r.
  - intros H. rewrite (IH (S calls) i H).
    by replace (calls + S i) with (S calls + i) by lia.
Qed.

Lemma ownResults_length steps calls options :
  length (ownResults behaviour steps calls options) = length steps.
Proof. revert calls. induction steps as [|s0 steps IH]; intros calls; simpl; [done | by rewrite IH]. Qed.

Lemma latest_own steps calls now options i step :
  steps !! i = Some step →
  (now + elapsed (behaviour (calls + i) step)
   ≤ Js.latest (ownPromises behaviour steps calls now options))%nat.
Proof.
  revert calls i. induction steps as [|s0 steps IH]; intros calls i; [done |].
  destruct i as [|i]; simpl.
  - intros [= ->]. rewrite Nat.add_0_r. lia.
  - intros H. specialize (IH (S calls) i H).
    replace (calls + S i) with (S calls + i) by lia. lia.
Qed.

Lemma ownResults_consistent steps calls options :
  Forall consistent (ownResults behaviour steps calls options).
Proof.
  revert calls. induction steps as [|s0 steps IH]; intros calls; simpl; constructor;
    [apply executeStep_result_consistent | apply IH].
Qed.

(** C1, what the code does. The comments of [executeParallelSteps]
    say that a group with [failFast = true] stops at the first failure,
    which [Promise.all] is to signal by rejecting, and its [catch] branch
    builds the synthetic failures with exit code 1 that C1 speaks of. But
    [executeStep] catches every error, so that no promise of a child
    rejects and the branch is never entered: the group returns when every
    child has settled, and not before, and no child is cancelled. Whether
    or not another child has failed in the meantime, each child
    contributes the result of its own execution, in step order, and no
    synthetic failure result takes its place; at return time each child
    has SUCCEEDED (exit code 0) or FAILED (another exit code), and none is
    still RUNNING. *)
Theorem failFast_waits_for_every_child parallel options run :
  failFast parallel = Some true →
  ∃ results run',
    executeParallelSteps behaviour parallel options run = (ret results, run') ∧
    started run' = started run ++ steps parallel ∧
    length results = length (steps parallel) ∧
    ∀ i step, steps parallel !! i = Some step →
      let fx := behaviour (length (started run) + i) step in
      results !! i = Some (executeStep_result step options fx) ∧
      (clock run + elapsed fx ≤ clock run')%nat ∧
      (success (executeStep_result step options fx) = true
         ↔ exitCode (executeStep_result step options fx) = 0%Z).
Proof.
  intros _. eexists _, _. split; [apply executeParallelSteps_own |]. simpl.
  split_and!; [done | apply ownResults_length |].
  intros i step Hi. split_and!.
  - by apply ownResults_lookup.
  - pose proof (latest_own (steps parallel) (length (started run)) (clock run) options i step Hi).
    lia.
  - rewrite executeStep_result_consistent. apply Z.eqb_eq.
Qed.

(** *** A pipeline *)

(** The results a run adds are consistent, and all successes when the run
    is one. *)
Lemma executeItems_results items options results run :
  ∃ new,
    stepResults (fst (executeItems behaviour items options results run)) = results ++ new ∧
    Forall consistent new ∧
    (progress_success (fst (executeItems behaviour items options results run)) = true →
     Forall (fun r => success r = true) new).
Proof.
  revert results run. induction items as [|item rest IH]; intros results run.
  - exists []. simpl. by rewrite app_nil_r.
  - destruct item as [step|parallel]; simpl.
    + set (r := executeStep_result step options _).
      destruct (success r) eqn:Es; simpl.
      * match goal with
        | |- context [executeItems behaviour rest options ?rs ?rn] =>
            destruct (IH rs rn) as (new & Hnew & Hcons & Hsucc)
        end.
        exists (r :: new). rewrite Hnew, <- app_assoc. split_and!; [done | |].
        -- constructor; [apply executeStep_result_consistent | done].
        -- intros H. constructor; [done | by apply Hsucc].
      * exists [r]. split_and!; [done | | done].
        constructor; [apply executeStep_result_consistent | constructor].
    + rewrite executeParallelSteps_own.
      set (group := ownResults behaviour (steps parallel) _ options).
      destruct (filter (fun r => success r = false) group) as [|failed fs] eqn:Ef.
      * match goal with
        | |- context [executeItems behaviour rest options ?rs ?rn] =>
            destruct (IH rs rn) as (new & Hnew & Hcons & Hsucc)
        end.
        exists (group ++ new). rewrite Hnew, <- app_assoc. split_and!; [done | |].
        -- apply Forall_app. split; [apply ownResults_consistent | done].
        -- intros H. apply Forall_app. split; [|by apply Hsucc].
           apply Forall_forall. intros r Hr.
           destruct (success r) eqn:Er; [done |].
           assert (r ∈ filter (fun r => success r = false) group) as Hin
             by (by apply list_elem_of_filter).
           rewrite Ef in Hin. by apply elem_of_nil in Hin.
      * exists group. split_and!; [done | apply ownResults_consistent | done].
Qed.

(** Past a failing item the loop does not look at what follows. *)
Lemma executeItems_stops pre item post options results run :
  progress_success (fst (executeItems behaviour (pre ++ [item]) options results run)) = false →
  executeItems behaviour (pre ++ item :: post) options results run
  = executeItems behaviour (pre ++ [item]) options results run.
Proof.
  revert results run. induction pre as [|x pre IH]; intros results run.
  - simpl. destruct item as [step|parallel]; simpl.
    + destruct (success (executeStep_result step options _)); simpl; [done | done].
    + rewrite executeParallelSteps_own.
      destruct (filter _ _) as [|failed fs]; simpl; done.
  - assert (∀ (tail : list PipelineItem) (a b : Run),
              tail ≠ [] → match pre ++ tail with [] => a | _ => b end = b) as Hne
      by (intros tail a b Ht; destruct pre, tail; done).
    simpl. destruct x as [step|parallel]; simpl.
    + destruct (success (executeStep_result step options _)); simpl; [|done].
      rewrite !Hne by done. apply IH.
    + rewrite executeParallelSteps_own.
      destruct (filter _ _) as [|failed fs]; simpl; [|done].
      rewrite !Hne by done. apply IH.
Qed.

Lemma started_after_item (rest : list PipelineItem) run :
  started (match rest with [] => run | _ => spacing run end) = started run.
Proof. by destruct rest. Qed.

(** The steps a run starts are those of the first items of the pipeline,
    up to the item the loop stops at. *)
Lemma executeItems_started items options results run :
  ∃ k, (k ≤ length items)%nat ∧
    started (snd (executeItems behaviour items options results run))
    = started run ++ concat (map itemSteps (take k items)).
Proof.
  revert results run. induction items as [|item rest IH]; intros results run.
  - exists 0. simpl. by rewrite app_nil_r.
  - destruct item as [step|parallel]; simpl.
    + destruct (success (executeStep_result step options _)); simpl.
      * match goal with
        | |- context [executeItems behaviour rest options ?rs ?rn] =>
            destruct (IH rs rn) as (k & Hk & Hs)
        end.
        exists (S k). split; [lia |]. rewrite Hs, started_after_item. simpl.
        by rewrite <- app_assoc.
      * exists 1. split; [lia |]. simpl. by rewrite ?take_0, ?app_nil_r.
    + rewrite executeParallelSteps_own.
      destruct (filter _ _) as [|failed fs]; simpl.
      * match goal with
        | |- context [executeItems behaviour rest options ?rs ?rn] =>
            destruct (IH rs rn) as (k & Hk & Hs)
        end.
        exists (S k). split; [lia |]. rewrite Hs, started_after_item. simpl.
        by rewrite <- app_assoc.
      * exists 1. split; [lia |]. simpl. by rewrite ?take_0, ?app_nil_r.
Qed.

Lemma executePipeline_unfold (pipeline : Pipeline) options run :
  executePipeline behaviour pipeline options run =
  ({| execution_success :=
        progress_success (fst (executeItems behaviour pipeline options [] run));
      execution_steps := stepResults (fst (executeItems behaviour pipeline options [] run));
      execution_duration :=
        clock (snd (executeItems behaviour pipeline options [] run)) - clock run;
      execution_error :=
        progress_error (fst (executeItems behaviour pipeline options [] run)) |},
   snd (executeItems behaviour pipeline options [] run)).
Proof. unfold executePipeline. by destruct (executeItems behaviour pipeline options [] run). Qed.

(** C4. When the items up to and including [item] have produced a step
    result with a non-zero exit code (a failed step, or a parallel group
    with a failed step), the run of the whole pipeline is the run of
    these items alone: no step of a later item is started, no result of a
    later item is in the list, and the pipeline result has
    [success = false]. *)
Theorem executePipeline_short_circuit pre item post options run :
  (∃ r, r ∈ execution_steps (fst (executePipeline behaviour (pre ++ [item]) options run))
        ∧ exitCode r ≠ 0%Z) →
  executePipeline behaviour (pre ++ item :: post) options run
  = executePipeline behaviour (pre ++ [item]) options run ∧
  execution_success (fst (executePipeline behaviour (pre ++ item :: post) options run)) = false ∧
  ∃ k, (k ≤ length (pre ++ [item]))%nat ∧
    started (snd (executePipeline behaviour (pre ++ item :: post) options run))
    = started run ++ concat (map itemSteps (take k (pre ++ [item]))).
Proof.
  intros (r & Hr & Hcode).
  assert (progress_success (fst (executeItems behaviour (pre ++ [item]) options [] run)) = false)
    as Hfail.
  { destruct (executeItems_results (pre ++ [item]) options [] run) as (new & Hnew & Hcons & Hsucc).
    destruct (progress_success _) eqn:Es; [|done].
    rewrite executePipeline_unfold in Hr. simpl in Hr. rewrite Hnew in Hr. simpl in Hr.
    specialize (Hsucc eq_refl).
    rewrite Forall_forall in Hcons, Hsucc.
    specialize (Hcons r Hr). specialize (Hsucc r Hr).
    unfold consistent in Hcons. rewrite Hsucc in Hcons.
    symmetry in Hcons. by apply Z.eqb_eq in Hcons. }
  assert (executePipeline behaviour (pre ++ item :: post) options run
          = executePipeline behaviour (pre ++ [item]) options run) as Heq.
  { rewrite !executePipeline_unfold. by rewrite executeItems_stops. }
  split_and!; [exact Heq | |].
  - rewrite Heq, executePipeline_unfold. exact Hfail.
  - rewrite Heq, executePipeline_unfold. simpl. apply executeItems_started.
Qed.

End SchedulerFacts.

(** S2: the first step fails, the second is not started and has no
    result, and the pipeline fails. *)
Lemma executePipeline_short_circuit_witness :
  Runner.executePipeline Scenarios.firstCallFails Scenarios.shortCircuitPipeline
    Scenarios.realRun Scenarios.freshRun
  = Runner.executePipeline Scenarios.firstCallFails
      [Interfaces.ItemStep (Scenarios.scriptStep "first" ["false"])]
      Scenarios.realRun Scenarios.freshRun.
Proof.
  apply (executePipeline_short_circuit Scenarios.firstCallFails []
           (Interfaces.ItemStep (Scenarios.scriptStep "first" ["false"]))
           [Interfaces.ItemStep (Scenarios.scriptStep "second" ["echo never"])]
           Scenarios.realRun Scenarios.freshRun).
  eexists. split; [apply list_elem_of_here | discriminate].
Defined.

Example executePipeline_S2 :
  let outcome :=
    Runner.executePipeline Scenarios.firstCallFails Scenarios.shortCircuitPipeline
      Scenarios.realRun Scenarios.freshRun in
  Interfaces.execution_success (fst outcome) = false ∧
  map Interfaces.result_name (Interfaces.execution_steps (fst outcome)) = ["first"] ∧
  map Interfaces.exitCode (Interfaces.execution_steps (fst outcome)) = [1%Z] ∧
  Runner.started (snd outcome) = [Scenarios.scriptStep "first" ["false"]].
Proof. vm_compute. done. Qed.

(** S3 as the code runs it: the quick child fails at instant 10, and the
    group still returns at instant 5000 only, when the sleeping child has
    settled, with the result of each child: the sleeping child was not
    cancelled and has succeeded. *)
Lemma failFast_waits_for_every_child_witness :
  ∃ results run',
    Runner.executeParallelSteps Scenarios.sleeperAndFailure Scenarios.twoChildren
      Scenarios.realRun Scenarios.freshRun = (ret results, run') ∧
    Runner.started run' = Interfaces.steps Scenarios.twoChildren ∧
    length results = 2 ∧ Runner.clock run' = 5000 ∧
    map Interfaces.success results = [true; false].
Proof.
  destruct (failFast_waits_for_every_child Scenarios.sleeperAndFailure Scenarios.twoChildren
              Scenarios.realRun Scenarios.freshRun eq_refl)
    as (results & run' & Hrun & Hstarted & Hlength & Hchildren).
  exists results, run'.
  assert (Runner.executeParallelSteps Scenarios.sleeperAndFailure Scenarios.twoChildren
            Scenarios.realRun Scenarios.freshRun
          = (ret (Runner.ownResults Scenarios.sleeperAndFailure
                    (Interfaces.steps Scenarios.twoChildren) 0 Scenarios.realRun),
             Runner.mkRun 5000 (Interfaces.steps Scenarios.twoChildren))) as Hval
    by reflexivity.
  rewrite Hval in Hrun. injection Hrun as <- <-.
  split_and!; done.
Defined.

(** C1 fails on the code. The quick child fails at instant 10, while the
    slow one is still running; the group nevertheless returns at instant
    5000 only, and the slow child contributes the result of its own run,
    a failure with exit code 2: it was not cancelled, its result is no
    synthetic failure with exit code 1, and it has not succeeded. *)
Lemma failFast_does_not_cancel :
  ∃ slow quick run',
    Runner.executeParallelSteps Scenarios.lateAndEarlyFailure Scenarios.twoChildren
      Scenarios.realRun Scenarios.freshRun = (ret [slow; quick], run') ∧
    Interfaces.success quick = false ∧ Interfaces.duration quick = 10 ∧
    Runner.clock run' = 5000 ∧ Interfaces.duration slow = 5000 ∧
    Interfaces.success slow = false ∧ Interfaces.exitCode slow = 2%Z ∧
    ¬ Runner.syntheticFailure slow.
Proof.
  eexists _, _, _. split; [reflexivity |].
  split_and!; try reflexivity.
  intros (_ & Hcode & _). discriminate Hcode.
Qed.

(** ** The cache *)

Example restore_during_second_save :
  let w := Cache.run "/cache" "node" Scenarios.restoreDuringSecondSave
             (Cache.start ∅ [Scenarios.firstSave; Scenarios.secondSave]) in
  Cache.restoring w = Cache.RestoreReturned true (Some [Byte.x01; Byte.x02; Byte.x03]) ∧
  Cache.files w !! "/cache/node.tar.gz" = Some [Byte.x01; Byte.x02; Byte.x03] ∧
  Cache.files w !! "/cache/node.tar.gz.tmp" = Some [Byte.x04] ∧
  Cache.saving w = Some (Scenarios.secondSave,
                         Cache.SaveWrite [Byte.x04; Byte.x05; Byte.x06; Byte.x07] 1).
Proof. vm_compute. done. Qed.

(** Outside C3: when two saves of one cache overlap, they share the
    temporary file, and the restore extracts one byte of the second
    archive, which is the archive of neither save. *)
Remark overlapping_saves_publish_a_partial_archive :
  Cache.restoring Scenarios.overlappingSaves
  = Cache.RestoreReturned true (Some [Byte.x04]) ∧
  Cache.tarball Scenarios.firstSave ≠ Some [Byte.x04] ∧
  Cache.tarball Scenarios.secondSave ≠ Some [Byte.x04].
Proof. split; [vm_compute; reflexivity | split; discriminate]. Qed.

Section CacheFacts.
Import Cache.
Variable dir : string.
Variable cacheName : string.
Implicit Types (w : World) (calls : list SaveCall) (initial : option Bytes).

(** *** The three paths differ *)

Lemma last_char_app (a b : string) :
  last_char (a +:+ b) =
  match last_char b with
  | Some c => Some c
  | None => last_char a
  end.
Proof.
  induction a as [|c a IH].
  - change (EmptyString +:+ b) with b. by destruct (last_char b).
  - change (String c a +:+ b) with (String c (a +:+ b)). simpl.
    rewrite IH. by destruct (last_char b), (last_char a).
Qed.

Lemma last_char_final : last_char (getCachePath dir cacheName) = Some "z"%char.
Proof. unfold getCachePath, path_join. by rewrite !last_char_app. Qed.

Lemma last_char_temp : last_char (tempCacheFilePath dir cacheName) = Some "p"%char.
Proof. unfold tempCacheFilePath. by rewrite last_char_app. Qed.

Lemma last_char_metadata : last_char (metadataPath dir) = Some "n"%char.
Proof. unfold metadataPath, path_join. by rewrite !last_char_app. Qed.

Lemma temp_not_final : tempCacheFilePath dir cacheName ≠ getCachePath dir cacheName.
Proof. intros H. pose proof last_char_temp as Ht. rewrite H, last_char_final in Ht. done. Qed.

Lemma metadata_not_final : metadataPath dir ≠ getCachePath dir cacheName.
Proof. intros H. pose proof last_char_metadata as Ht. rewrite H, last_char_final in Ht. done. Qed.

Lemma metadata_not_temp : metadataPath dir ≠ tempCacheFilePath dir cacheName.
Proof. intros H. pose proof last_char_metadata as Ht. rewrite H, last_char_temp in Ht. done. Qed.

(** *** The invariant *)

Lemma complete_mono initial w w' b :
  (∀ call, call ∈ published w → call ∈ published w') →
  complete initial w b → complete initial w' b.
Proof. intros Hsub [H|(call & Hin & Ht)]; [by left | right; eauto]. Qed.

Lemma consistent_restore_mono initial w w' :
  restoring w' = restoring w →
  (∀ call, call ∈ published w → call ∈ published w') →
  consistent_restore initial w → consistent_restore initial w'.
Proof.
  unfold consistent_restore. intros -> Hsub.
  destruct (restoring w) as [| | |b|[] [b|]]; eauto using complete_mono.
Qed.

Lemma invariant_start files0 calls :
  invariant dir cacheName (files0 !! getCachePath dir cacheName) calls (start files0 calls).
Proof.
  unfold invariant, start, consistent_files, consistent_restore, consistent_calls. simpl.
  split_and!; try done.
  - intros b Hb. by left.
  - intros call H. by apply elem_of_nil in H.
Qed.

Lemma invariant_stepSave initial calls w call point chunk ioError :
  saving w = Some (call, point) →
  invariant dir cacheName initial calls w →
  invariant dir cacheName initial calls (stepSave dir cacheName call point chunk ioError w).
Proof.
  intros Hsaving Hinv.
  pose proof Hinv as (Hfinal & Hfiles & Hrestore & Hpub & Hcur & Hqueue).
  assert (call ∈ calls) as Hcall by eauto.
  unfold consistent_files in Hfiles. rewrite Hsaving in Hfiles.
  assert (∀ p fs,
    (∀ b, fs !! getCachePath dir cacheName = Some b → complete initial w b) →
    consistent_files dir cacheName
      (mkWorld fs (Some (call, p)) (queue w) (restoring w) (published w)) →
    invariant dir cacheName initial calls
      (mkWorld fs (Some (call, p)) (queue w) (restoring w) (published w))) as Hsame.
  { intros p fs Hfs Hcons. unfold invariant, consistent_calls. simpl.
    split_and!; [exact Hfs | exact Hcons | exact Hrestore | exact Hpub | | exact Hqueue].
    by intros call' p' [= <- <-]. }
  destruct point as [|a|a|a n|a| | |]; simpl.
  - destruct (tarball call) as [a|] eqn:Et; by apply Hsame.
  - destruct ioError; by apply Hsame.
  - destruct ioError; [by apply Hsame |]. apply Hsame.
    + intros b. rewrite lookup_insert_ne by apply temp_not_final. apply Hfinal.
    + unfold consistent_files. simpl. by rewrite lookup_insert_eq, take_0.
  - destruct Hfiles as [Ht Htmp].
    destruct (length a <=? n)%nat eqn:El.
    + apply Hsame; [done |]. unfold consistent_files. simpl.
      apply Nat.leb_le in El. by rewrite take_ge in Htmp.
    + destruct ioError; [by apply Hsame |]. apply Hsame.
      * intros b. rewrite lookup_insert_ne by apply temp_not_final. apply Hfinal.
      * unfold consistent_files. simpl. by rewrite lookup_insert_eq.
  - destruct Hfiles as [Ht Htmp].
    destruct ioError; [by apply Hsame |]. rewrite Htmp.
    unfold invariant, consistent_calls. simpl. split_and!.
    + intros b. rewrite lookup_insert_eq. intros [= <-].
      right. exists call. split; [|done]. apply elem_of_app. right. left.
    + done.
    + apply (consistent_restore_mono initial w); [done | | done].
      intros c Hc. apply elem_of_app. by left.
    + intros c [Hc|Hc%list_elem_of_singleton]%elem_of_app; [by apply Hpub | by subst].
    + by intros call' p' [= <- <-].
    + done.
  - destruct ioError; [by apply Hsame |]. apply Hsame; [|done].
    intros b. rewrite lookup_insert_ne by apply metadata_not_final. apply Hfinal.
  - exact Hinv.
  - exact Hinv.
Qed.

Lemma invariant_stepRestore initial calls w ioError sidecar :
  invariant dir cacheName initial calls w →
  invariant dir cacheName initial calls
    (stepRestore dir cacheName (restoring w) ioError sidecar w).
Proof.
  intros (Hfinal & Hfiles & Hrestore & Hcalls).
  assert (∀ p,
    consistent_restore initial (mkWorld (files w) (saving w) (queue w) p (published w)) →
    invariant dir cacheName initial calls
      (mkWorld (files w) (saving w) (queue w) p (published w))) as Hsame.
  { intros p Hp. unfold invariant. by split_and!. }
  unfold consistent_restore in Hrestore.
  destruct (restoring w) as [| | |b|r e] eqn:Er; simpl.
  - destruct (files w !! getCachePath dir cacheName); by apply Hsame.
  - destruct ioError; by apply Hsame.
  - destruct (files w !! getCachePath dir cacheName) as [b|] eqn:Eb; [|by apply Hsame].
    destruct ioError; apply Hsame; [done |].
    unfold consistent_restore. simpl. by apply Hfinal.
  - unfold invariant. split_and!.
    + simpl. intros b'. destruct sidecar as [text|]; [|apply Hfinal].
      rewrite lookup_insert_ne by apply metadata_not_final. apply Hfinal.
    + unfold consistent_files in *. simpl.
      destruct sidecar as [text|]; [|done].
      rewrite lookup_insert_ne by apply metadata_not_temp. done.
    + done.
    + done.
  - unfold invariant. split_and!; try done.
    unfold consistent_restore. by rewrite Er.
Qed.

Lemma invariant_step initial calls w t :
  invariant dir cacheName initial calls w →
  invariant dir cacheName initial calls (step dir cacheName w t).
Proof.
  intros Hinv. destruct t as [chunk ioError|ioError sidecar]; simpl.
  - assert (invariant dir cacheName initial calls
              match queue w with
              | [] => w
              | next :: rest =>
                  mkWorld (files w) (Some (next, SaveAccess)) rest (restoring w) (published w)
              end) as Hnext.
    { pose proof Hinv as (Hfinal & Hfiles & Hrestore & Hpub & Hcur & Hqueue).
      destruct (queue w) as [|next rest] eqn:Eq.
      - exact Hinv.
      - unfold invariant, consistent_calls, consistent_files. simpl.
        split_and!; [done | done | done | done | |].
        + intros call p [= <- <-]. apply Hqueue. left.
        + intros call Hc. apply Hqueue. by right. }
    destruct (saving w) as [[call point]|] eqn:Es; [|exact Hnext].
    destruct point; try exact Hnext; by apply invariant_stepSave.
  - by apply invariant_stepRestore.
Qed.

Lemma invariant_run initial calls schedule w :
  invariant dir cacheName initial calls w →
  invariant dir cacheName initial calls (run dir cacheName schedule w).
Proof.
  unfold run. revert w. induction schedule as [|t schedule IH]; intros w Hinv; simpl; [done |].
  by apply IH, invariant_step.
Qed.

(** A rename that succeeds puts the whole tarball in place and removes
    the temporary file. *)
Lemma rename_publishes initial calls w call archive chunk :
  invariant dir cacheName initial calls w →
  saving w = Some (call, SaveRename archive) →
  tarball call = Some archive ∧
  files (step dir cacheName w (TickSave chunk false)) !! getCachePath dir cacheName
  = Some archive ∧
  files (step dir cacheName w (TickSave chunk false)) !! tempCacheFilePath dir cacheName
  = None.
Proof.
  intros (_ & Hfiles & _) Hsaving. unfold consistent_files in Hfiles.
  rewrite Hsaving in Hfiles. destruct Hfiles as [Ht Htmp].
  simpl. rewrite Hsaving. simpl. rewrite Htmp. simpl. split_and!; [done | |].
  - by rewrite lookup_insert_eq.
  - rewrite lookup_insert_ne by (intros H; by apply temp_not_final).
    by rewrite lookup_delete_eq.
Qed.

(** C3. Whatever the order in which the event loop runs the two of them,
    a sequence of [saveCache] calls for a cache and a [restoreCache] call
    for it: a save writes its archive to [<path>.tar.gz.tmp], which alone
    is ever partial, and its rename puts the whole archive at
    [<path>.tar.gz]; that file is at every instant absent or the whole
    archive of a save that has been renamed into place (or the one an
    earlier run left there); and the restore returns [false], or returns
    [true] having extracted such a whole archive. *)
Theorem restore_never_sees_partial_archive files0 calls schedule :
  let initial := files0 !! getCachePath dir cacheName in
  let w := run dir cacheName schedule (start files0 calls) in
  (∀ call archive written, saving w = Some (call, SaveWrite archive written) →
     tarball call = Some archive ∧
     files w !! tempCacheFilePath dir cacheName = Some (take written archive)) ∧
  (∀ call archive chunk, saving w = Some (call, SaveRename archive) →
     tarball call = Some archive ∧
     files (step dir cacheName w (TickSave chunk false)) !! getCachePath dir cacheName
     = Some archive) ∧
  (∀ b, files w !! getCachePath dir cacheName = Some b →
        initial = Some b ∨
        ∃ call, call ∈ calls ∧ call ∈ published w ∧ tarball call = Some b) ∧
  (∀ result extracted, restoring w = RestoreReturned result extracted →
     (result = false ∧ extracted = None) ∨
     (result = true ∧ ∃ b, extracted = Some b ∧
        (initial = Some b ∨
         ∃ call, call ∈ calls ∧ call ∈ published w ∧ tarball call = Some b))).
Proof.
  intros initial w.
  pose proof (invariant_run initial calls schedule _ (invariant_start files0 calls)) as Hinv.
  fold w in Hinv.
  pose proof Hinv as (Hfinal & Hfiles & Hrestore & Hpub & _ & _).
  assert (∀ b, complete initial w b →
            initial = Some b ∨
            ∃ call, call ∈ calls ∧ call ∈ published w ∧ tarball call = Some b) as Hc.
  { intros b [H|(call & Hin & Ht)]; [by left | right; exists call; eauto]. }
  split_and!.
  - intros call archive written Hs. unfold consistent_files in Hfiles.
    by rewrite Hs in Hfiles.
  - intros call archive chunk Hs.
    destruct (rename_publishes initial calls w call archive chunk Hinv Hs) as (? & ? & _).
    done.
  - intros b Hb. by apply Hc, Hfinal.
  - intros result extracted Hr. unfold consistent_restore in Hrestore. rewrite Hr in Hrestore.
    destruct result, extracted as [b|]; try done.
    + right. split; [done |]. exists b. split; [done | by apply Hc].
    + by left.
Qed.

End CacheFacts.

(** A restore that runs while the second save is writing its temporary
    file returns [true], having extracted the archive of the first save. *)
Lemma restore_never_sees_partial_archive_witness :
  ∃ b,
    Cache.restoring
      (Cache.run "/cache" "node" Scenarios.restoreDuringSecondSave
         (Cache.start ∅ [Scenarios.firstSave; Scenarios.secondSave]))
    = Cache.RestoreReturned true (Some b) ∧
    ∃ call, call ∈ [Scenarios.firstSave; Scenarios.secondSave] ∧
            Cache.tarball call = Some b.
Proof.
  assert (Cache.restoring
            (Cache.run "/cache" "node" Scenarios.restoreDuringSecondSave
               (Cache.start ∅ [Scenarios.firstSave; Scenarios.secondSave]))
          = Cache.RestoreReturned true (Some [Byte.x01; Byte.x02; Byte.x03])) as Hreturned
    by (vm_compute; reflexivity).
  destruct (proj2 (proj2 (proj2
              (restore_never_sees_partial_archive "/cache" "node" ∅
                 [Scenarios.firstSave; Scenarios.secondSave]
                 Scenarios.restoreDuringSecondSave)))
              true (Some [Byte.x01; Byte.x02; Byte.x03]) Hreturned)
    as [[Hfalse _]|[_ (b & Hb & [Hinitial|(call & Hcall & _ & Htar)])]].
  - discriminate Hfalse.
  - rewrite lookup_empty in Hinitial. discriminate Hinitial.
  - exists b. injection Hb as <-. split; [exact Hreturned |]. by exists call.
Defined.

(** * Further properties *)

Section SchedulerExtras.
Import Interfaces Runner Reports.
Variable behaviour : nat -> Step -> StepEffects.

(** X1. The [failFast] flag of a parallel group changes nothing that the
    caller can see: whatever it says, the group starts the same steps,
    returns the same results at the same instant. *)
Theorem failFast_flag_is_not_observed (a b : option bool) (children : list Step)
    options run :
  executeParallelSteps behaviour {| failFast := a; steps := children |} options run
  = executeParallelSteps behaviour {| failFast := b; steps := children |} options run.
Proof. by rewrite !executeParallelSteps_own. Qed.

Lemma executeStep_result_dry step options fx :
  dryRun options = true →
  is_dry (executeStep_result step options fx)
  ∧ result_name (executeStep_result step options fx) = displayName step.
Proof.
  intros Hdry. unfold executeStep_result, executeStep_body. rewrite Hdry. simpl.
  by repeat split.
Qed.

Lemma ownResults_dry children calls options :
  dryRun options = true →
  Forall is_dry (ownResults behaviour children calls options)
  ∧ map result_name (ownResults behaviour children calls options) = map displayName children.
Proof.
  intros Hdry. revert calls. induction children as [|step rest IH]; intros calls; simpl.
  - by split.
  - destruct (executeStep_result_dry step options (behaviour calls step) Hdry) as [Hd Hn].
    destruct (IH (S calls)) as [IH1 IH2]. split; [by constructor | by rewrite Hn, IH2].
Qed.

Lemma filter_failed_dry (results : list StepResult) :
  Forall is_dry results → filter (fun r => success r = false) results = [].
Proof.
  induction 1 as [|r results [Hs _] _ IH]; [done|].
  rewrite filter_cons. destruct (decide (success r = false)) as [E|_]; [congruence | done].
Qed.

Lemma executeItems_dry items options results run :
  dryRun options = true →
  ∃ new run',
    executeItems behaviour items options results run
    = ({| progress_success := true; stepResults := results ++ new;
          progress_error := None |}, run') ∧
    Forall is_dry new ∧
    map result_name new = map displayName (concat (map itemSteps items)) ∧
    started run' = started run ++ concat (map itemSteps items).
Proof.
  intros Hdry. revert results run.
  induction items as [|item rest IH]; intros results run.
  - exists [], run. simpl. by rewrite !app_nil_r.
  - destruct item as [step|parallel].
    + cbn [executeItems]. unfold executeStep. cbn [Js.await Js.outcome Js.settledAt].
      destruct (executeStep_result_dry step options
                  (behaviour (length (started run)) step) Hdry) as [Hd Hn].
      set (r := executeStep_result step options (behaviour (length (started run)) step)) in *.
      destruct Hd as (Hs & He & Hl & Herr) eqn:Hd'. rewrite Hs. cbn [negb].
      match goal with |- context [executeItems behaviour rest options ?rs ?rn] =>
        destruct (IH rs rn) as (new & run' & Heq & Hall & Hnames & Hstarted) end.
      exists (r :: new), run'. rewrite Heq. split_and!.
      * by rewrite <- app_assoc.
      * constructor; [done | done].
      * simpl. by rewrite Hn, Hnames.
      * rewrite Hstarted, started_after_item. simpl. by rewrite <- app_assoc.
    + cbn [executeItems]. rewrite executeParallelSteps_own.
      destruct (ownResults_dry (steps parallel) (length (started run)) options Hdry)
        as [Hd Hn].
      rewrite (filter_failed_dry _ Hd).
      match goal with |- context [executeItems behaviour rest options ?rs ?rn] =>
        destruct (IH rs rn) as (new & run' & Heq & Hall & Hnames & Hstarted) end.
      eexists (_ ++ new), run'. rewrite Heq. split_and!.
      * by rewrite <- app_assoc.
      * by apply Forall_app.
      * simpl. by rewrite !map_app, Hn, Hnames.
      * rewrite Hstarted, started_after_item. simpl. by rewrite <- app_assoc.
Qed.

(** X2. A dry run never fails and never asks the container runtime: every
    step of the pipeline, the children of the groups included, is
    visited in source order and reported once with exit code 0, under its
    display name, whatever the containers and the stores would do. *)
Theorem dry_run_reports_every_step (pipeline : Pipeline) options run :
  dryRun options = true →
  let result := fst (executePipeline behaviour pipeline options run) in
  let run' := snd (executePipeline behaviour pipeline options run) in
  execution_success result = true ∧
  execution_error result = None ∧
  map result_name (execution_steps result)
  = map (fun step => Js.str_or (name step) "Unnamed Step")
        (concat (map itemSteps pipeline)) ∧
  Forall (fun r => success r = true ∧ exitCode r = 0%Z
                   ∧ logs r = ["Dry run - no actual execution"])
         (execution_steps result) ∧
  started run' = started run ++ concat (map itemSteps pipeline).
Proof.
  intros Hdry. rewrite executePipeline_unfold. cbn [fst snd].
  destruct (executeItems_dry pipeline options [] run Hdry)
    as (new & run' & Heq & Hall & Hnames & Hstarted).
  rewrite Heq. cbn. split_and!; try done.
  eapply Forall_impl; [exact Hall|]. intros r (? & ? & ? & ?). done.
Qed.

(** The first failed result of a list. *)
Lemma filter_failed_head (results : list StepResult) failed others :
  filter (fun r => success r = false) results = failed :: others →
  ∃ pre post, results = pre ++ failed :: post
              ∧ Forall (fun r => success r = true) pre ∧ success failed = false.
Proof.
  induction results as [|r results IH]; [done|].
  rewrite filter_cons. destruct (decide (success r = false)) as [E|E].
  - intros [= <- _]. by exists [], results.
  - intros H. destruct (IH H) as (pre & post & -> & Hpre & Hf).
    exists (r :: pre), post. split_and!; [done | | done].
    constructor; [|done]. by destruct (success r).
Qed.

Lemma filter_failed_nil (results : list StepResult) :
  filter (fun r => success r = false) results = [] →
  Forall (fun r => success r = true) results.
Proof.
  induction results as [|r results IH]; [done|].
  rewrite filter_cons. destruct (decide (success r = false)) as [E|E]; [done|].
  intros H. constructor; [by destruct (success r) | by apply IH].
Qed.

Lemma executeItems_outcome items options results run :
  ∃ new,
    stepResults (fst (executeItems behaviour items options results run)) = results ++ new ∧
    if progress_success (fst (executeItems behaviour items options results run))
    then Forall (fun r => success r = true) new
         ∧ length new = length (concat (map itemSteps items))
         ∧ progress_error (fst (executeItems behaviour items options results run)) = None
    else ∃ pre failed post,
           new = pre ++ failed :: post
           ∧ Forall (fun r => success r = true) pre ∧ success failed = false
           ∧ progress_error (fst (executeItems behaviour items options results run))
             = error failed.
Proof.
  revert results run. induction items as [|item rest IH]; intros results run.
  - exists []. simpl. by rewrite app_nil_r.
  - destruct item as [step|parallel].
    + cbn [executeItems]. unfold executeStep. cbn [Js.await Js.outcome Js.settledAt].
      set (r := executeStep_result step options (behaviour (length (started run)) step)).
      destruct (success r) eqn:Hs; cbn [negb].
      * match goal with |- context [executeItems behaviour rest options ?rs ?rn] =>
          destruct (IH rs rn) as (new & Heq & Hrest);
          destruct (executeItems behaviour rest options rs rn) as [p run'] end.
        cbn [fst] in *. exists (r :: new). rewrite Heq, <- app_assoc. split; [done|].
        destruct (progress_success p).
        -- destruct Hrest as (Hall & Hlen & Herr). split_and!; [by constructor | | done].
           simpl. by rewrite Hlen.
        -- destruct Hrest as (pre & failed & post & -> & Hpre & Hf & Herr).
           exists (r :: pre), failed, post. split_and!; [done | by constructor | done | done].
      * exists [r]. cbn. split; [done|]. by exists [], r, [].
    + cbn [executeItems]. rewrite executeParallelSteps_own.
      set (group := ownResults behaviour (steps parallel) (length (started run)) options).
      destruct (filter (fun r => success r = false) group) as [|failed others] eqn:Hfilter.
      * apply filter_failed_nil in Hfilter.
        match goal with |- context [executeItems behaviour rest options ?rs ?rn] =>
          destruct (IH rs rn) as (new & Heq & Hrest);
          destruct (executeItems behaviour rest options rs rn) as [p run'] end.
        cbn [fst] in *. exists (group ++ new). rewrite Heq, <- app_assoc. split; [done|].
        destruct (progress_success p).
        -- destruct Hrest as (Hall & Hlen & Herr). split_and!; [by apply Forall_app | | done].
           simpl. rewrite !length_app, Hlen. unfold group. by rewrite ownResults_length.
        -- destruct Hrest as (pre & failed & post & -> & Hpre & Hf & Herr).
           exists (group ++ pre), failed, post.
           split_and!; [by rewrite <- app_assoc | by apply Forall_app | done | done].
      * apply filter_failed_head in Hfilter as (pre & post & Hg & Hpre & Hf).
        exists group. cbn. split; [done|]. by exists pre, failed, post.
Qed.

(** X3. A pipeline succeeds exactly when every result it reports
    succeeded. On success there is one result per step, the children of
    the groups included, and no error; on failure the reported error is
    that of the first failed result in the list, and every result before
    it succeeded. *)
Theorem pipeline_success_is_the_conjunction (pipeline : Pipeline) options run :
  let result := fst (executePipeline behaviour pipeline options run) in
  (execution_success result = true
   ↔ Forall (fun r => success r = true) (execution_steps result)) ∧
  (execution_success result = true →
   length (execution_steps result) = length (concat (map itemSteps pipeline))
   ∧ execution_error result = None) ∧
  (execution_success result = false →
   ∃ pre failed post,
     execution_steps result = pre ++ failed :: post
     ∧ Forall (fun r => success r = true) pre ∧ success failed = false
     ∧ execution_error result = error failed).
Proof.
  rewrite executePipeline_unfold. cbn [fst execution_success execution_steps execution_error].
  destruct (executeItems_outcome pipeline options [] run) as (new & Heq & Hcase).
  rewrite Heq. cbn [app].
  destruct (progress_success (fst (executeItems behaviour pipeline options [] run))).
  - destruct Hcase as (Hall & Hlen & Herr). split_and!; [done | done | done].
  - destruct Hcase as (pre & failed & post & -> & Hpre & Hf & Herr). split_and!.
    + split; [done|]. intros Hall. apply Forall_app in Hall as [_ Hall].
      apply Forall_cons in Hall as [Hs _]. congruence.
    + done.
    + intros _. by exists pre, failed, post.
Qed.

(** X4. When the container has run and saving the caches or the artifacts
    then throws, the step is reported as failed with exit code 1, whatever
    the exit code of the container was, and without the output the
    container produced. *)
Theorem failed_save_hides_the_container_result step options fx container e :
  dryRun options = false →
  runStepContainer fx = inr container →
  (is_Some (caches step) ∧ saveCaches fx = inl e)
  ∨ ((caches step = None ∨ saveCaches fx = inr tt)
     ∧ is_Some (artifacts step) ∧ saveArtifacts fx = inl e) →
  executeStep_result step options fx
  = {| result_name := Js.str_or (name step) "Unnamed Step";
       success := false; exitCode := 1; duration := elapsed fx; logs := [];
       error := Some (asError "Unknown error" e) |}.
Proof.
  intros Hdry Hrun Hsave. unfold executeStep_result, executeStep_body.
  rewrite Hdry, Hrun. cbn [bind].
  destruct Hsave as [[[cs Hc] Hs] | (Hc & [a Ha] & Hs)].
  - by rewrite Hc, Hs.
  - rewrite Ha, Hs. destruct Hc as [-> | Hc]; [done|].
    destruct (caches step); [by rewrite Hc | done].
Qed.

End SchedulerExtras.

(** A container that exits with code 3 followed by a cache that cannot be
    saved is reported with exit code 1 and no output. *)
Lemma failed_save_hides_the_container_result_witness :
  Interfaces.exitCode
    (Runner.executeStep_result Samples.cachedStep Scenarios.realRun Samples.saveFails) = 1%Z
  ∧ Interfaces.logs
      (Runner.executeStep_result Samples.cachedStep Scenarios.realRun Samples.saveFails) = [].
Proof.
  rewrite (failed_save_hides_the_container_result Samples.cachedStep Scenarios.realRun
             Samples.saveFails
             {| Interfaces.container_exitCode := 3;
                Interfaces.container_output := ["compiling"];
                Interfaces.container_error := Some "Container exited with code 3";
                Interfaces.container_duration := 40 |}
             (PipelineError FILE_SYSTEM_ERROR "Failed to save cache: EACCES")).
  - done.
  - reflexivity.
  - reflexivity.
  - left. split; [by eexists | reflexivity].
Defined.

(** In a dry run the failing first step of S2 succeeds, and so does the
    second. *)
Lemma dry_run_reports_every_step_witness :
  Interfaces.execution_success
    (fst (Runner.executePipeline Scenarios.firstCallFails Scenarios.shortCircuitPipeline
            Samples.dryRun Scenarios.freshRun)) = true
  ∧ length (Interfaces.execution_steps
      (fst (Runner.executePipeline Scenarios.firstCallFails Scenarios.shortCircuitPipeline
              Samples.dryRun Scenarios.freshRun))) = 2.
Proof.
  destruct (dry_run_reports_every_step Scenarios.firstCallFails
              Scenarios.shortCircuitPipeline Samples.dryRun Scenarios.freshRun eq_refl)
    as (Hs & _ & Hn & _).
  split; [exact Hs|]. by rewrite <- (length_map Interfaces.result_name), Hn.
Defined.

Section SelectionExtras.
Import Interfaces.
Context {P : Type}.
Implicit Types (pipelines : Pipelines P) (options : CLIOptions).




Lemma append_nonempty (prefix key : string) : prefix ≠ "" → prefix +:+ key ≠ "".
Proof. by destruct prefix. Qed.

(** X6. No label that [listPipelines] prints, other than [default], is
    accepted by the [pipeline] option: passing [branches/<name>],
    [custom/<name>] or [tags/<name>] as printed fails with
    [Unknown pipeline]. *)
Theorem listed_label_is_not_a_pipeline_option pipelines options label :
  label ∈ Runner.listPipelines (inr pipelines) →
  label ≠ "default" →
  Js.given (cli_custom options) = false →
  Js.given (cli_branch options) = false →
  cli_pipeline options = Some label →
  Runner.selectPipeline pipelines options
  = throw (PipelineError VALIDATION_ERROR ("Unknown pipeline: " +:+ label)).
Proof.
  intros Hin Hnd Hc Hb Hp.
  assert (label ≠ "") as Hne.
  { revert Hin. unfold Runner.listPipelines. rewrite !pushKeys_app, !elem_of_app.
    rewrite !list_elem_of_fmap.
    intros [[[Hin | (k & -> & _)] | (k & -> & _)] | (k & -> & _)];
      [|by apply append_nonempty..].
    destruct (default pipelines); simpl in Hin.
    - apply list_elem_of_singleton in Hin. by subst.
    - by apply elem_of_nil in Hin. }
  unfold Runner.selectPipeline. rewrite Hc, Hb, Hp.
  rewrite given_Some, str_or_Some by done.
  destruct (String.eqb label "default") eqn:E; [|done].
  by apply String.eqb_eq in E.
Qed.

End SelectionExtras.

(** The label [branches/main] that the listing of a document with a
    [main] branch pipeline prints is refused as a pipeline name. *)
Lemma listed_label_is_not_a_pipeline_option_witness :
  "branches/main" ∈ Runner.listPipelines (inr Scenarios.defaultAndMain)
  ∧ Runner.selectPipeline Scenarios.defaultAndMain (Samples.pipelineOption "branches/main")
    = throw (PipelineError VALIDATION_ERROR "Unknown pipeline: branches/main").
Proof.
  assert ("branches/main" ∈ Runner.listPipelines (inr Scenarios.defaultAndMain)) as Hin.
  { vm_compute. apply list_elem_of_further, list_elem_of_here. }
  split; [exact Hin|].
  apply (listed_label_is_not_a_pipeline_option Scenarios.defaultAndMain
           (Samples.pipelineOption "branches/main") "branches/main" Hin);
    [intros [=] | reflexivity | reflexivity | reflexivity].
Defined.

Section CommandFacts.
Import Commands.

(** X7. What the [clear] command removes, by its two flags: the cache is
    cleared when [cache] is [true], or when it is absent and [artifacts]
    is not [true]; symmetrically for the artifacts. So with no flag at
    all both stores are cleared, [cache: false] alone still clears the
    artifacts, and nothing is cleared only when both flags are [false]. *)
Theorem clearCache_flags options :
  (clearCache_flag options = true
   ↔ cacheFlag options = Some true
     ∨ (cacheFlag options = None ∧ artifactsFlag options ≠ Some true)) ∧
  (clearArtifacts_flag options = true
   ↔ artifactsFlag options = Some true
     ∨ (artifactsFlag options = None ∧ cacheFlag options ≠ Some true)) ∧
  (clearCache options (ret tt) (ret tt) = ret []
   ↔ cacheFlag options = Some false ∧ artifactsFlag options = Some false).
Proof.
  unfold clearCache, clearCache_flag, clearArtifacts_flag.
  destruct (cacheFlag options) as [[|]|], (artifactsFlag options) as [[|]|]; cbn;
    split_and!; split; try done; try (intros [? | [? ?]]; done); try (intros [? ?]; done);
    try (by left); try (by right).
Qed.

End CommandFacts.

Section LoaderExtras.
Import Js Loader Document.
Variable stringify : Value -> string.

(** *** The errors of the transformation *)

Lemma safe_ret {A} (a : A) : safe (ret a).
Proof. by intros e. Qed.

Lemma safe_validation {A} message : safe (@throw A (PipelineError VALIDATION_ERROR message)).
Proof. intros e [= <-]. left. by eexists. Qed.

Lemma safe_TypeError {A} message : safe (@throw A (JsError message)).
Proof. intros e [= <-]. right. by eexists. Qed.

Lemma safe_bind {A B} (m : Exc A) (k : A → Exc B) :
  safe m → (∀ a, m = inr a → safe (k a)) → safe (bind m k).
Proof.
  intros Hm Hk e. destruct m as [e'|a]; simpl.
  - intros [= <-]. by apply Hm.
  - by apply Hk.
Qed.

Lemma safe_prop v k : safe (prop v k).
Proof. destruct v; simpl; try apply safe_ret; apply safe_TypeError. Qed.

Lemma safe_mapM {A} (f : Value → Exc A) items :
  (∀ x, safe (f x)) → safe (mapM f items).
Proof.
  intros Hf. induction items as [|x items IH]; simpl; [apply safe_ret|].
  apply safe_bind; [apply Hf|]. intros b _.
  apply safe_bind; [apply IH|]. intros bs _. apply safe_ret.
Qed.

Lemma safe_mapArray {A} what (f : Value → Exc A) xs :
  (∀ x, safe (f x)) → safe (mapArray what f xs).
Proof.
  intros Hf. destruct xs; simpl; try apply safe_TypeError. by apply safe_mapM.
Qed.

Lemma safe_whenTruthy {A} v (f : Value → Exc A) :
  (∀ x, safe (f x)) → safe (whenTruthy v f).
Proof.
  intros Hf. unfold whenTruthy. destruct (truthy v); [|apply safe_ret].
  apply safe_bind; [apply Hf|]. intros a _. apply safe_ret.
Qed.

Lemma safe_forEntries {A} (f : Value → Exc A) v :
  (∀ x, safe (f x)) → safe (forEntries f v).
Proof.
  intros Hf. unfold forEntries.
  assert (∀ kxs (acc : Exc (list (string * A))), safe acc →
            safe (foldl (fun acc kx =>
                           let! result := acc in
                           let! y := f (snd kx) in
                           ret (set result (fst kx) y)) acc kxs)) as H.
  { induction kxs as [|kx kxs IH]; intros acc Hacc; simpl; [done|].
    apply IH. apply safe_bind; [done|]. intros result _.
    apply safe_bind; [apply Hf|]. intros y _. apply safe_ret. }
  apply H, safe_ret.
Qed.

Ltac settle_safe :=
  repeat first
    [ apply safe_ret | apply safe_validation | apply safe_TypeError | apply safe_prop
    | apply safe_bind; [|intros ? _]
    | match goal with |- safe (if ?b then _ else _) => destruct b end
    | match goal with |- safe (match ?v with _ => _ end) => destruct v end ].

Lemma safe_transformImage image : safe (transformImage image).
Proof. unfold transformImage. settle_safe. Qed.

Lemma safe_transformOptions options : safe (transformOptions options).
Proof. unfold transformOptions. settle_safe. Qed.

Lemma safe_transformClone clone : safe (transformClone clone).
Proof. unfold transformClone. settle_safe. Qed.

Lemma safe_transformArtifacts artifacts : safe (transformArtifacts artifacts).
Proof. unfold transformArtifacts. settle_safe. Qed.

Lemma safe_transformCondition condition : safe (transformCondition condition).
Proof.
  unfold transformCondition. apply safe_bind; [apply safe_prop|]. intros cs _.
  apply safe_bind; [|intros; apply safe_ret].
  apply safe_whenTruthy. intros x. settle_safe.
Qed.

Lemma safe_transformStep step : safe (transformStep stringify step).
Proof.
  unfold transformStep. apply safe_bind; [apply safe_prop|]. intros script _.
  destruct (negb (truthy script)); [apply safe_validation|].
  repeat (apply safe_bind;
          [first [ apply safe_prop
                 | apply safe_whenTruthy; intros ?;
                   first [apply safe_transformImage | apply safe_transformArtifacts
                         | apply safe_transformCondition] ]
          | intros ? _]).
  apply safe_ret.
Qed.

Lemma safe_transformItem item : safe (transformItem stringify item).
Proof.
  unfold transformItem.
  apply safe_bind; [apply safe_prop|]. intros script _.
  apply safe_bind; [apply safe_prop|]. intros name _.
  destruct (truthy (or script name)).
  { apply safe_bind; [apply safe_transformStep | intros; apply safe_ret]. }
  apply safe_bind; [apply safe_prop|]. intros inner _.
  destruct (truthy inner).
  { apply safe_bind; [apply safe_transformStep | intros; apply safe_ret]. }
  apply safe_bind; [apply safe_prop|]. intros parallel _.
  destruct (truthy parallel); [|apply safe_validation].
  apply safe_bind; [apply safe_prop|]. intros ff _.
  apply safe_bind; [apply safe_prop|]. intros steps _.
  apply safe_bind; [|intros; apply safe_ret].
  apply safe_mapArray. intros step.
  apply safe_bind; [apply safe_prop|]. intros x _.
  destruct (truthy x); apply safe_transformStep.
Qed.

Lemma safe_transformPipeline pipeline : safe (transformPipeline stringify pipeline).
Proof. apply safe_mapArray, safe_transformItem. Qed.

Lemma safe_transformPipelines pipelines : safe (transformPipelines stringify pipelines).
Proof.
  unfold transformPipelines.
  repeat (apply safe_bind;
          [first [ apply safe_prop
                 | apply safe_whenTruthy; intros ?;
                   first [apply safe_transformPipeline
                         | apply safe_forEntries, safe_transformPipeline] ]
          | intros ? _]).
  apply safe_ret.
Qed.

Lemma safe_transformDefinitions definitions :
  safe (transformDefinitions stringify definitions).
Proof.
  unfold transformDefinitions.
  apply safe_bind; [apply safe_prop|]. intros c _.
  apply safe_bind; [apply safe_prop|]. intros sv _.
  apply safe_bind.
  { apply safe_whenTruthy. intros x. apply safe_forEntries. intros service. settle_safe. }
  intros services _.
  apply safe_bind; [apply safe_prop|]. intros st _.
  apply safe_bind.
  { apply safe_whenTruthy. intros x. apply safe_forEntries, safe_transformStep. }
  intros; apply safe_ret.
Qed.

Lemma safe_transformConfig parsed : safe (transformConfig stringify parsed).
Proof.
  unfold transformConfig.
  repeat (apply safe_bind;
          [first [ apply safe_prop
                 | apply safe_transformPipelines
                 | apply safe_whenTruthy; intros ?;
                   first [apply safe_transformImage | apply safe_transformOptions
                         | apply safe_transformClone | apply safe_transformDefinitions] ]
          | intros ? _]).
  apply safe_ret.
Qed.

Lemma truthy_field_of parsed k :
  truthy (field_of parsed k) = true →
  ∃ fields, parsed = Object fields ∧ prop parsed k = inr (field fields k)
            ∧ field_of parsed k = field fields k.
Proof. destruct parsed; try done. intros _. by eexists. Qed.

(** X8. Whatever goes wrong in [parse], the caller sees a
    [PipelineError]. An error of the YAML library is wrapped as a YAML
    parse error that carries its message. Of a document that was read, a
    failure is a YAML parse error or a validation error; when the
    document has its [pipelines] section, [parse] returns what the
    transformation returns, a [PipelineError] that the transformation
    throws is a validation error and passes through as it is, and a
    [TypeError] raised while the document is read is wrapped as a YAML
    parse error that carries its message. *)
Theorem parse_throws_only_PipelineError yaml :
  (∀ e, parse stringify yaml = inl e → ∃ type message, e = PipelineError type message)
  ∧ (∀ message, yaml = inl (JsError message) →
       parse stringify yaml
       = inl (PipelineError YAML_PARSE_ERROR ("YAML parse error: " +:+ message)))
  ∧ (∀ parsed, yaml = inr parsed →
       (∀ e, parse stringify yaml = inl e →
          ∃ message, e = PipelineError YAML_PARSE_ERROR message
                     ∨ e = PipelineError VALIDATION_ERROR message)
       ∧ (truthy (field_of parsed "pipelines") = true →
          match transformConfig stringify parsed with
          | inr config => parse stringify yaml = inr config
          | inl (PipelineError type message) =>
              type = VALIDATION_ERROR
              ∧ parse stringify yaml = inl (PipelineError type message)
          | inl (JsError message) =>
              parse stringify yaml
              = inl (PipelineError YAML_PARSE_ERROR ("YAML parse error: " +:+ message))
          | inl NotAnError => False
          end)).
Proof.
  assert (∀ parsed, truthy (field_of parsed "pipelines") = true →
            parse stringify (inr parsed)
            = try_catch (transformConfig stringify parsed)
                (fun error =>
                   match error with
                   | PipelineError _ _ => throw error
                   | JsError message =>
                       throw (PipelineError YAML_PARSE_ERROR
                                ("YAML parse error: " +:+ message))
                   | NotAnError =>
                       throw (PipelineError YAML_PARSE_ERROR "Unknown YAML parse error")
                   end)) as Hgiven.
  { intros parsed Ht. destruct (truthy_field_of _ _ Ht) as (fields & -> & Hp & Hf).
    unfold parse. simpl bind. rewrite Hf in Ht. simpl in Ht. cbn [truthy typeof_object negb].
    simpl. by rewrite Ht. }
  split_and!.
  - unfold parse, try_catch. intros e.
    match goal with |- context [match ?b with inl _ => _ | inr _ => _ end] =>
      destruct b as [[type message|message|]|config] end; intros [= <-]; by eexists _, _.
  - by intros message ->.
  - intros parsed ->.
    assert (truthy (field_of parsed "pipelines") = true →
            match transformConfig stringify parsed with
            | inr config => parse stringify (inr parsed) = inr config
            | inl (PipelineError type message) =>
                type = VALIDATION_ERROR
                ∧ parse stringify (inr parsed) = inl (PipelineError type message)
            | inl (JsError message) =>
                parse stringify (inr parsed)
                = inl (PipelineError YAML_PARSE_ERROR ("YAML parse error: " +:+ message))
            | inl NotAnError => False
            end) as Htransform.
    { intros Ht. rewrite (Hgiven parsed Ht).
      pose proof (safe_transformConfig parsed) as Hsafe.
      destruct (transformConfig stringify parsed) as [e|config]; [|done].
      destruct (Hsafe e eq_refl) as [[message ->] | [message ->]]; done. }
    split; [|exact Htransform].
    intros e. destruct (truthy (field_of parsed "pipelines")) eqn:Ht.
    + specialize (Htransform eq_refl).
      destruct (transformConfig stringify parsed) as [[type message|message|]|config].
      * destruct Htransform as [-> ->]. intros [= <-]. eexists. by right.
      * rewrite Htransform. intros [= <-]. eexists. by left.
      * done.
      * by rewrite Htransform.
    + unfold parse. simpl bind.
      destruct (negb (truthy parsed)) eqn:Hp; [intros [= <-]; eexists; by left|].
      destruct (negb (typeof_object parsed)) eqn:Ho; [intros [= <-]; eexists; by left|].
      destruct parsed; try done.
      * simpl. intros [= <-]. eexists. by right.
      * simpl. unfold field_of in Ht. simpl in Ht. rewrite Ht. simpl.
        intros [= <-]. eexists. by right.
Qed.

Ltac split_bind H :=
  repeat match type of H with
         | bind ?m _ = inr _ =>
             let E := fresh "E" in
             destruct m eqn:E; simpl in H; [discriminate H |]
         | (if ?b then _ else _) = inr _ =>
             let E := fresh "E" in
             destruct b eqn:E; simpl in H; try discriminate H
         end.

(** X9. Whether a parallel group fails fast is read from the key
    [fail-fast] of the document and from nothing else: the flag is
    [false] only when [fail-fast] is literally [false], so a camelCase
    [failFast: false] leaves it [true]. *)
Theorem failFast_is_read_from_the_hyphenated_key item p :
  transformItem stringify item = inr (ItemParallel p) →
  ∃ parallel flag,
    prop item "parallel" = inr parallel ∧
    prop parallel "fail-fast" = inr flag ∧
    failFast p = not_false flag.
Proof.
  intros H. unfold transformItem in H.
  destruct (prop item "script") as [|script]; simpl in H; [done|].
  destruct (prop item "name") as [|name]; simpl in H; [done|].
  destruct (truthy (or script name)).
  { destruct (transformStep stringify item); simpl in H; done. }
  destruct (prop item "step") as [|inner]; simpl in H; [done|].
  destruct (truthy inner).
  { destruct (transformStep stringify inner); simpl in H; done. }
  destruct (prop item "parallel") as [|parallel] eqn:Hp; simpl in H; [done|].
  destruct (truthy parallel); [|done].
  destruct (prop parallel "fail-fast") as [|flag] eqn:Hf; simpl in H; [done|].
  destruct (prop parallel "steps") as [|children]; simpl in H; [done|].
  destruct (mapArray _ _ children); simpl in H; [done|].
  injection H as <-. by exists parallel, flag.
Qed.






End LoaderExtras.

(** A group whose document says [failFast: false] in camelCase is loaded
    with [failFast] set. *)
Lemma failFast_is_read_from_the_hyphenated_key_witness :
  ∃ p, Loader.transformItem Scenarios.noStringify Samples.camelFailFast
       = inr (Loader.ItemParallel p)
       ∧ Loader.failFast p = true.
Proof.
  eexists. split; [reflexivity|].
  destruct (failFast_is_read_from_the_hyphenated_key Scenarios.noStringify
              Samples.camelFailFast _ eq_refl) as (parallel & flag & Hp & Hf & ->).
  injection Hp as <-. by injection Hf as <-.
Defined.

(** The validation error of a step without a script passes through
    [parse] as it is, and the [TypeError] of a default pipeline that is
    not a list is wrapped. *)
Example parse_errors :
  Loader.parse Scenarios.noStringify (inr Samples.scriptlessDocument)
  = throw (PipelineError VALIDATION_ERROR "Step must contain script. Got: ")
  ∧ Loader.parse Scenarios.noStringify (inr Samples.scalarPipelineDocument)
    = throw (PipelineError YAML_PARSE_ERROR "YAML parse error: pipeline.map is not a function").
Proof. split; reflexivity. Qed.


Section ValidatorFacts.
Import Js Loader Validator.
Variable toString : Value -> string.
Variable exceeds : Value -> Z -> bool.

Ltac settle :=
  simpl; split; intros;
  repeat match goal with
         | H : ?a = ?a → _ |- _ => specialize (H eq_refl)
         | H : _ ∧ _ |- _ => destruct H
         end;
  try done; try tauto.

Lemma checks_iff (c : Check) P Q : checks c P → (P ↔ Q) → checks c Q.
Proof.
  intros H HPQ r r' Hc. destruct (H r r' Hc) as (more & Heq & Hiff).
  exists more. split; [done|]. by rewrite Hiff.
Qed.

Lemma checks_skip : checks skip True.
Proof. intros r r' [= <-]. exists []. by rewrite app_nil_r. Qed.

Lemma checks_pushError path message type : checks (pushError path message type) False.
Proof. intros r r' [= <-]. eexists. split; [done|]. split; [done|done]. Qed.

Lemma checks_pushWarning path message type : checks (pushWarning path message type) True.
Proof. intros r r' [= <-]. exists []. simpl. by rewrite app_nil_r. Qed.

Lemma checks_when (b : bool) c P : checks c P → checks (when b c) (b = true → P).
Proof.
  intros H. destruct b; simpl.
  - eapply checks_iff; [exact H|]. split; [done | by intros HP; apply HP].
  - eapply checks_iff; [apply checks_skip|]. done.
Qed.

Lemma checks_cons c cs P Q :
  checks c P → checks (allOf cs) Q → checks (allOf (c :: cs)) (P ∧ Q).
Proof.
  intros Hc Hcs r r' H. simpl in H.
  destruct (c r) as [|r1] eqn:E1; simpl in H; [done|].
  destruct (Hc r r1 E1) as (m1 & Heq1 & Hiff1).
  destruct (Hcs r1 r' H) as (m2 & Heq2 & Hiff2).
  exists (m1 ++ m2). split; [by rewrite Heq2, Heq1, app_assoc|].
  rewrite <- Hiff1, <- Hiff2. split.
  - by intros [-> ->]%app_eq_nil.
  - by intros [-> ->].
Qed.

Lemma checks_nil : checks (allOf []) True.
Proof. apply checks_skip. Qed.

Lemma checks_forEachFrom {A} (f : A → nat → Check) (P : A → Prop) xs index :
  (∀ x i, checks (f x i) (P x)) → checks (forEachFrom f xs index) (Forall P xs).
Proof.
  intros Hf. revert index. induction xs as [|x xs IH]; intros index.
  - eapply checks_iff; [apply checks_skip|]. done.
  - intros r r' H. simpl in H.
    destruct (f x index r) as [|r1] eqn:E1; simpl in H; [done|].
    destruct (Hf x index r r1 E1) as (m1 & Heq1 & Hiff1).
    destruct (IH (S index) r1 r' H) as (m2 & Heq2 & Hiff2).
    exists (m1 ++ m2). split; [by rewrite Heq2, Heq1, app_assoc|].
    rewrite Forall_cons, <- Hiff1, <- Hiff2. split.
    + by intros [-> ->]%app_eq_nil.
    + by intros [-> ->].
Qed.

Lemma checks_forEach {A} (f : A → nat → Check) (P : A → Prop) xs :
  (∀ x i, checks (f x i) (P x)) → checks (forEach f xs) (Forall P xs).
Proof. apply checks_forEachFrom. Qed.

Lemma checks_forEachOf what (f : Value → nat → Check) (P : Value → Prop) v :
  (∀ x i, checks (f x i) (P x)) →
  checks (forEachOf what f v) (∃ items, v = Arr items ∧ Forall P items).
Proof.
  intros Hf. destruct v; try (intros r r' H; discriminate H).
  eapply checks_iff; [by apply checks_forEach|].
  split; [by eexists | by intros (? & [= <-] & ?)].
Qed.

Lemma checks_forEntriesOf {A} (f : string → A → Check) (P : A → Prop) record :
  (∀ k x, checks (f k x) (P x)) →
  checks (forEntriesOf f record) (Forall P (map snd record)).
Proof.
  intros Hf. induction record as [|[k x] record IH].
  - eapply checks_iff; [apply checks_skip|]. done.
  - intros r r' H. simpl in H.
    destruct (f k x r) as [|r1] eqn:E1; simpl in H; [done|].
    destruct (Hf k x r r1 E1) as (m1 & Heq1 & Hiff1).
    destruct (IH r1 r' H) as (m2 & Heq2 & Hiff2).
    exists (m1 ++ m2). split; [by rewrite Heq2, Heq1, app_assoc|].
    simpl. rewrite Forall_cons, <- Hiff1, <- Hiff2. split.
    + by intros [-> ->]%app_eq_nil.
    + by intros [-> ->].
Qed.

Lemma checks_grows c P : checks c P → grows c.
Proof. intros H r r' Hc. destruct (H r r' Hc) as (more & Heq & _). by exists more. Qed.

Lemma checks_ensures c P : checks c P → ensures c P.
Proof.
  intros H r r' Hc Hnil. destruct (H r r' Hc) as (more & Heq & Hiff).
  rewrite Heq in Hnil. apply app_eq_nil in Hnil as [? ?]. split; [done | by apply Hiff].
Qed.

Lemma grows_ensures c : grows c → ensures c True.
Proof.
  intros H r r' Hc Hnil. destruct (H r r' Hc) as (more & Heq).
  rewrite Heq in Hnil. by apply app_eq_nil in Hnil as [? ?].
Qed.

Lemma ensures_cons c cs P Q :
  ensures c P → ensures (allOf cs) Q → ensures (allOf (c :: cs)) (P ∧ Q).
Proof.
  intros Hc Hcs r r' H Hnil. simpl in H.
  destruct (c r) as [|r1] eqn:E1; simpl in H; [done|].
  destruct (Hcs r1 r' H Hnil) as [Hnil1 HQ].
  destruct (Hc r r1 E1 Hnil1) as [Hnil0 HP]. done.
Qed.

Lemma ensures_nil : ensures (allOf []) True.
Proof. by intros r r' [= <-]. Qed.

Lemma ensures_impl c (P Q : Prop) : ensures c P → (P → Q) → ensures c Q.
Proof. intros H HPQ r r' Hc Hnil. destruct (H r r' Hc Hnil). auto. Qed.

Lemma ensures_forEntriesOf {A} (f : string → A → Check) (P : A → Prop) record :
  (∀ k x, ensures (f k x) (P x)) →
  ensures (forEntriesOf f record) (Forall P (map snd record)).
Proof.
  intros Hf. induction record as [|[k x] record IH].
  - by intros r r' [= <-].
  - intros r r' H Hnil. simpl in H.
    destruct (f k x r) as [|r1] eqn:E1; simpl in H; [done|].
    destruct (IH r1 r' H Hnil) as [Hnil1 HQ].
    destruct (Hf k x r r1 E1 Hnil1) as [Hnil0 HP].
    split; [done | by constructor].
Qed.

Lemma grows_skip : grows skip.
Proof. intros r r' [= <-]. exists []. by rewrite app_nil_r. Qed.

Lemma grows_pushError path message type : grows (pushError path message type).
Proof. intros r r' [= <-]. by eexists. Qed.

Lemma grows_pushWarning path message type : grows (pushWarning path message type).
Proof. intros r r' [= <-]. exists []. simpl. by rewrite app_nil_r. Qed.

Lemma grows_when (b : bool) c : grows c → grows (when b c).
Proof. intros H. destruct b; [done | apply grows_skip]. Qed.

Lemma grows_cons c cs : grows c → grows (allOf cs) → grows (allOf (c :: cs)).
Proof.
  intros Hc Hcs r r' H. simpl in H.
  destruct (c r) as [|r1] eqn:E1; simpl in H; [done|].
  destruct (Hc r r1 E1) as (m1 & Heq1). destruct (Hcs r1 r' H) as (m2 & Heq2).
  exists (m1 ++ m2). by rewrite Heq2, Heq1, app_assoc.
Qed.

Lemma grows_nil : grows (allOf []).
Proof. apply grows_skip. Qed.

Lemma grows_forEachFrom {A} (f : A → nat → Check) xs index :
  (∀ x i, grows (f x i)) → grows (forEachFrom f xs index).
Proof.
  intros Hf. revert index. induction xs as [|x xs IH]; intros index; [apply grows_skip|].
  intros r r' H. simpl in H.
  destruct (f x index r) as [|r1] eqn:E1; simpl in H; [done|].
  destruct (Hf x index r r1 E1) as (m1 & Heq1). destruct (IH (S index) r1 r' H) as (m2 & Heq2).
  exists (m1 ++ m2). by rewrite Heq2, Heq1, app_assoc.
Qed.

Lemma grows_forEach {A} (f : A → nat → Check) xs :
  (∀ x i, grows (f x i)) → grows (forEach f xs).
Proof. apply grows_forEachFrom. Qed.

Lemma grows_forEntriesOf {A} (f : string → A → Check) record :
  (∀ k x, grows (f k x)) → grows (forEntriesOf f record).
Proof.
  intros Hf. induction record as [|[k x] record IH]; [apply grows_skip|].
  intros r r' H. simpl in H.
  destruct (f k x r) as [|r1] eqn:E1; simpl in H; [done|].
  destruct (Hf k x r r1 E1) as (m1 & Heq1). destruct (IH r1 r' H) as (m2 & Heq2).
  exists (m1 ++ m2). by rewrite Heq2, Heq1, app_assoc.
Qed.

Lemma includes_spec names v :
  includes names v = true ↔ ∃ s, v = Str s ∧ s ∈ names.
Proof.
  destruct v; simpl; try (split; [done | by intros (? & ? & ?)]).
  rewrite bool_decide_eq_true. split; [by eexists | by intros (? & [= <-] & ?)].
Qed.

Lemma checks_member names v path message type :
  checks (when (truthy v && negb (includes names v)) (pushError path message type))
         (truthy v = true → ∃ s, v = Str s ∧ s ∈ names).
Proof.
  eapply checks_iff; [apply checks_when, checks_pushError|].
  rewrite <- includes_spec. destruct (truthy v), (includes names v); settle.
Qed.

Lemma checks_maxTime v path message (c : Z → Check) :
  (∀ n r r', c n r = inr r' → errors r' = errors r) →
  checks (match v with
          | Undefined => skip
          | Num n => if (n <=? 0)%Z then pushError path message "type" else c n
          | NaN => skip
          | _ => pushError path message "type"
          end)
         (v = Undefined ∨ v = NaN ∨ ∃ n, v = Num n ∧ (0 < n)%Z).
Proof.
  intros Hc. destruct v as [| |b|n| |s|items|fields];
    try (eapply checks_iff; [apply checks_pushError|];
         split; [done | by intros [? | [? | (? & ? & ?)]]]).
  - eapply checks_iff; [apply checks_skip|]. split; [by left | done].
  - destruct (n <=? 0)%Z eqn:E.
    + eapply checks_iff; [apply checks_pushError|].
      split; [done |]. intros [? | [? | (? & [= <-] & ?)]]; [done | done | lia].
    + intros r r' H. exists []. rewrite app_nil_r. split; [by apply (Hc n)|].
      split; [|done]. intros _. right. right. exists n. split; [done | lia].
  - eapply checks_iff; [apply checks_skip|]. split; [by right; left | done].
Qed.

Lemma checks_strings what v path message :
  checks (when (truthy v)
            (forEachOf what
               (fun x index =>
                  when (negb (typeof_string x))
                    (pushError (path index) message "type")) v))
         (truthy v = true → stringArray v).
Proof.
  eapply checks_iff.
  { apply checks_when.
    apply (checks_forEachOf what _ (fun x => typeof_string x = true)).
    intros x i. eapply checks_iff; [apply checks_when, checks_pushError|].
    destruct (typeof_string x); settle. }
  done.
Qed.

Lemma checks_validateArtifacts a path :
  checks (validateArtifacts a path) (stringArray (paths a)).
Proof.
  unfold validateArtifacts. destruct (truthy (paths a)) eqn:Ht; simpl.
  - destruct (paths a) as [| | | | | |items|] eqn:Hp;
      try (eapply checks_iff; [apply checks_pushError|];
           split; [done | by intros (? & ? & ?)]).
    eapply checks_iff.
    { apply (checks_forEach _ (fun x => typeof_string x = true)).
      intros x i. eapply checks_iff; [apply checks_when, checks_pushError|].
      destruct (typeof_string x); settle. }
    split; [by eexists | by intros (? & [= <-] & ?)].
  - eapply checks_iff; [apply checks_pushError|].
    split; [done|]. intros (items & Hp & _). by rewrite Hp in Ht.
Qed.

Lemma checks_validateImage (image : Image) path :
  checks (validateImage image path)
         (match image with
          | ImageString s => blank s = false
          | ImageOf o => truthy (image_name o) = true
          end).
Proof.
  destruct image as [s|o]; unfold validateImage.
  - eapply checks_iff; [apply checks_when, checks_pushError|].
    destruct (blank s); settle.
  - eapply checks_iff.
    { apply checks_cons; [apply checks_when, checks_pushError|].
      apply checks_cons; [apply checks_when, checks_pushWarning | apply checks_nil]. }
    destruct (truthy (image_name o)); settle.
Qed.

Lemma checks_script (lines : list Value) path :
  checks
    (if (length lines =? 0)%nat then
       pushError (path +:+ ".script") "script is required and cannot be empty" "required"
     else
       allOf
         [ when (MAX_SCRIPT_LINES <? length lines)%nat
             (pushWarning (path +:+ ".script")
                ("Script has " +:+ pretty (length lines)
                 +:+ " lines. Consider breaking long scripts into smaller functions.")
                "best-practice");
           forEach
             (fun line index =>
                match line with
                | Str text =>
                    when (blank text)
                      (pushWarning (path +:+ ".script[" +:+ pretty index +:+ "]")
                         "Empty script line" "best-practice")
                | _ =>
                    pushError (path +:+ ".script[" +:+ pretty index +:+ "]")
                      "Script line must be a string" "type"
                end)
             lines ])
    (lines ≠ [] ∧ Forall (fun line => typeof_string line = true) lines).
Proof.
  destruct lines as [|line lines]; simpl length; cbn [Nat.eqb].
  - eapply checks_iff; [apply checks_pushError|]. split; [done | by intros [? _]].
  - eapply checks_iff.
    { apply checks_cons; [apply checks_when, checks_pushWarning|].
      apply checks_cons; [|apply checks_nil].
      apply (checks_forEach _ (fun x => typeof_string x = true)).
      intros x i. destruct x; simpl;
        try (eapply checks_iff; [apply checks_pushError|]; done).
      eapply checks_iff; [apply checks_when, checks_pushWarning|]. done. }
    split; [by intros (_ & H & _) | by intros [_ H]].
Qed.

(** Whatever the step, [validateSingleStep] adds no error exactly when
    the step is well formed. *)
Lemma checks_validateSingleStep step path :
  checks (validateSingleStep toString exceeds step path) (wellFormed step).
Proof.
  unfold validateSingleStep, wellFormed.
  eapply checks_iff.
  { apply checks_cons; [apply checks_script|].
    apply checks_cons; [apply checks_member|].
    apply checks_cons.
    { apply (checks_maxTime (maxTime step) _ _
               (fun n => when (MAX_STEP_TIME <? n)%Z (pushWarning _ _ _))).
      intros n r r'. destruct (MAX_STEP_TIME <? n)%Z; simpl; by intros [= <-]. }
    apply checks_cons; [apply checks_member|].
    apply checks_cons;
      [apply (checks_strings "step.caches" (caches step)
                (fun index => path +:+ ".caches[" +:+ pretty index +:+ "]"))|].
    apply checks_cons.
    { instantiate (1 := ∀ a, artifacts step = Some a → stringArray (paths a)).
      destruct (artifacts step) as [a|].
      - eapply checks_iff; [apply checks_validateArtifacts|].
        split; [by intros H ? [= <-] | by intros H; apply H].
      - eapply checks_iff; [apply checks_skip|]. done. }
    apply checks_cons;
      [apply (checks_strings "step.services" (services step)
                (fun index => path +:+ ".services[" +:+ pretty index +:+ "]"))|].
    apply checks_cons.
    { instantiate (1 := (∀ s, image step = Some (ImageString s) → s ≠ "" → blank s = false)
                        ∧ (∀ o, image step = Some (ImageOf o) → truthy (image_name o) = true)).
      destruct (image step) as [[s|o]|].
      - eapply checks_iff; [apply checks_when, checks_validateImage|].
        simpl. split.
        + intros H. split; [|done]. intros ? [= <-] Hne. apply H.
          destruct (String.eqb s "") eqn:E; [|done]. by apply String.eqb_eq in E.
        + intros [H _] Hne. apply (H s eq_refl).
          intros ->. by rewrite String.eqb_refl in Hne.
      - eapply checks_iff; [apply checks_when, checks_validateImage|].
        simpl. split.
        + intros H. split; [done|]. intros ? [= <-]. by apply H.
        + intros [_ H] _. by apply H.
      - eapply checks_iff; [apply checks_skip|]. done. }
    apply checks_cons; [|apply checks_nil].
    apply checks_when, checks_when, checks_pushWarning. }
  split.
  - intros ([? ?] & ? & ? & ? & ? & ? & ? & [? ?] & _). done.
  - intros (? & ? & ? & ? & ? & ? & ? & ? & ? & ?). split_and!; done.
Qed.

Lemma checks_validateParallelSteps parallel path :
  checks (validateParallelSteps toString exceeds parallel path)
         (Forall wellFormed (steps parallel)).
Proof.
  unfold validateParallelSteps. destruct (steps parallel) as [|step rest] eqn:Hs.
  - eapply checks_iff; [apply checks_pushWarning|]. done.
  - cbn [length Nat.eqb]. eapply checks_iff.
    { apply checks_cons; [apply checks_when, checks_pushWarning|].
      apply checks_cons; [|apply checks_cons; [apply checks_when, checks_pushWarning
                                              | apply checks_nil]].
      apply (checks_forEach _ wellFormed). intros x i. apply checks_validateSingleStep. }
    settle.
Qed.

Lemma checks_validatePipeline pipeline path :
  checks (validatePipeline toString exceeds pipeline path)
         (Forall wellFormed (stepsOf pipeline)).
Proof.
  unfold validatePipeline. destruct pipeline as [|item rest] eqn:Hp.
  - eapply checks_iff; [apply checks_pushWarning|]. done.
  - rewrite <- Hp. assert ((length pipeline =? 0)%nat = false) as -> by by subst.
    eapply checks_iff.
    { apply checks_cons; [|apply checks_cons; [apply checks_when, checks_pushWarning
                                              | apply checks_nil]].
      apply (checks_forEach _
               (fun item => Forall wellFormed
                              match item with
                              | ItemStep step => [step]
                              | ItemParallel parallel => steps parallel
                              end)).
      intros [step|parallel] i.
      - eapply checks_iff; [apply checks_validateSingleStep|].
        split; [by intros H; constructor | by intros [H _]%Forall_cons].
      - apply checks_validateParallelSteps. }
    unfold stepsOf. clear Hp. split.
    + intros (H & _ & _). induction H as [|x xs Hx _ IH]; [done|].
      simpl. by apply Forall_app.
    + intros H. split_and!; [|done..].
      induction pipeline as [|x xs IH]; [done|]. simpl in H.
      apply Forall_app in H as [? ?]. constructor; [done | by apply IH].
Qed.

Lemma ensures_validateSection prefix section :
  ensures (validateSection toString exceeds prefix section)
          (Forall (fun pipeline => Forall wellFormed (stepsOf pipeline))
                  (sectionPipelines section)).
Proof.
  destruct section as [record|]; simpl.
  - apply ensures_forEntriesOf. intros k x. apply checks_ensures, checks_validatePipeline.
  - intros r r' [= <-]. done.
Qed.

Lemma ensures_validatePipelines pipelines :
  ensures (validatePipelines toString exceeds pipelines)
          (Forall (fun pipeline => Forall wellFormed (stepsOf pipeline))
                  (visited pipelines)).
Proof.
  unfold validatePipelines, visited. eapply ensures_impl.
  { apply ensures_cons.
    { instantiate (1 := Forall (fun pipeline => Forall wellFormed (stepsOf pipeline))
                          match default pipelines with Some p => [p] | None => [] end).
      destruct (default pipelines) as [p|].
      - eapply ensures_impl; [apply checks_ensures, checks_validatePipeline|].
        intros H. by constructor.
      - intros r r' [= <-]. done. }
    apply ensures_cons; [apply ensures_validateSection|].
    apply ensures_cons; [apply ensures_validateSection|].
    apply ensures_cons; [apply ensures_validateSection|].
    apply ensures_cons; [|apply ensures_nil].
    instantiate (1 := Forall (fun pipeline => Forall wellFormed (stepsOf pipeline))
                        (sectionPipelines (custom pipelines))).
    destruct (custom pipelines) as [record|]; cbn [sectionPipelines].
    - apply ensures_forEntriesOf. intros k x. eapply ensures_impl.
      { apply ensures_cons; [apply checks_ensures, checks_validatePipeline|].
        apply ensures_cons; [apply grows_ensures, grows_when, grows_pushWarning
                            | apply ensures_nil]. }
      by intros [? _].
    - intros r r' [= <-]. done. }
  intros (? & ? & ? & ? & ? & _). by rewrite !Forall_app.
Qed.

Ltac grow :=
  repeat first
    [ apply grows_nil | apply grows_skip | apply grows_pushError | apply grows_pushWarning
    | apply grows_when | apply grows_cons
    | apply grows_forEach; intros ? ?
    | apply grows_forEntriesOf; intros ? ?
    | eapply checks_grows; apply checks_validateImage ].

Lemma grows_validateDefinitions definitions :
  grows (validateDefinitions definitions).
Proof.
  unfold validateDefinitions, validateServiceDefinition.
  apply grows_cons; [destruct (definitions_services definitions); grow|].
  - destruct (service_ports _); grow.
  - destruct (definitions_caches definitions); grow.
Qed.

Lemma grows_validateGlobalOptions options :
  grows (validateGlobalOptions toString options).
Proof.
  unfold validateGlobalOptions. grow.
  destruct (options_maxTime options); grow.
Qed.


















(** X11. [validateStep] accepts a step exactly when it is well formed:
    at least one script line and only strings as lines, a supported
    [size] and [trigger] when given, as [maxTime] when given a number
    that is not [<= 0] (a positive number, or [NaN]), lists of strings
    for [caches], [services] and the artifact paths, and an image with a
    name. Warnings never make a step invalid. *)
Theorem validateStep_accepts_the_well_formed_steps step result :
  validateStep toString exceeds step = inr result →
  (valid result = true ↔ wellFormed step)
  ∧ (result_errors result = [] ↔ wellFormed step).
Proof.
  unfold validateStep. intros H.
  destruct (validateSingleStep toString exceeds step "step" (mkReport [] [])) as [|r] eqn:E;
    [done|].
  injection H as <-. destruct (checks_validateSingleStep step "step" _ _ E) as (more & Heq & Hiff).
  simpl in Heq. unfold resultOf. cbn [valid result_errors]. rewrite Heq, <- Hiff.
  split; [|done]. destruct more; simpl; split; done.
Qed.


(** X13. In a configuration that [validate] accepts, every step of every
    pipeline under [default], [branches], [tags], [pullrequests] and
    [custom], the children of the parallel groups included, is well
    formed; in particular it has at least one script line, its lines
    are strings, and its [maxTime] when given is a number that is not
    [<= 0] (a positive number, or [NaN]). *)
Theorem validated_pipelines_have_well_formed_steps config result :
  validate toString exceeds config = inr result →
  valid result = true →
  ∀ pipeline step,
    pipeline ∈ visited (config_pipelines config) →
    step ∈ stepsOf pipeline →
    wellFormed step ∧ script step ≠ [].
Proof.
  unfold validate. intros H Hvalid.
  match type of H with bind (?c ?r0) _ = _ => destruct (c r0) as [|r] eqn:E end; [done|].
  injection H as <-. unfold resultOf in Hvalid. cbn [valid] in Hvalid.
  assert (errors r = []) as Hnil by (by destruct (errors r)).
  revert E.
  match goal with |- allOf (?c1 :: ?c2 :: ?rest) _ = _ → _ =>
    intros E;
    assert (ensures (allOf (c1 :: c2 :: rest))
              (True ∧ Forall (fun pipeline => Forall wellFormed (stepsOf pipeline))
                             (visited (config_pipelines config)) ∧ True)) as Hens
  end.
  { apply ensures_cons; [apply grows_ensures, grows_when, grows_pushWarning|].
    apply ensures_cons; [apply ensures_validatePipelines|].
    apply grows_ensures.
    apply grows_cons;
      [destruct (config_definitions config); [apply grows_validateDefinitions | grow]|].
    apply grows_cons;
      [destruct (config_options config); [apply grows_validateGlobalOptions | grow]|].
    apply grows_cons; [destruct (config_image config); grow | grow]. }
  destruct (Hens _ _ E Hnil) as (_ & _ & Hall & _).
  intros pipeline step Hp Hs.
  rewrite Forall_forall in Hall. specialize (Hall pipeline Hp).
  rewrite Forall_forall in Hall. specialize (Hall step Hs).
  split; [done | by destruct Hall].
Qed.

End ValidatorFacts.

Section StepNameCase.
Import Artifacts.

Ltac by_cases c :=
  destruct c as [[] [] [] [] [] [] [] []]; vm_compute; try reflexivity; try discriminate;
  intros; try discriminate; try reflexivity.

Lemma lowerChar_replaced c :
  (if allowed (lowerChar c) then lowerChar c else "_"%char)
  = lowerChar (if allowed c then c else "_"%char).
Proof. by_cases c. Qed.

Lemma lowerChar_underscore c : is_underscore (lowerChar c) = is_underscore c.
Proof. by_cases c. Qed.

Lemma lowerChar_twice c : lowerChar (lowerChar c) = lowerChar c.
Proof. by_cases c. Qed.

Lemma replaceDisallowed_lower s :
  replaceDisallowed (toLowerCase s) = toLowerCase (replaceDisallowed s).
Proof. induction s as [|c s IH]; simpl; [done|]. by rewrite lowerChar_replaced, IH. Qed.

Lemma starts_with_underscore_lower s :
  starts_with_underscore (toLowerCase s) = starts_with_underscore s.
Proof. destruct s as [|c s]; [done|]. simpl. apply lowerChar_underscore. Qed.

Lemma collapseUnderscores_lower s :
  collapseUnderscores (toLowerCase s) = toLowerCase (collapseUnderscores s).
Proof.
  induction s as [|c s IH]; [done|].
  change (toLowerCase (String c s)) with (String (lowerChar c) (toLowerCase s)).
  rewrite !collapse_cons, starts_with_underscore_lower, lowerChar_underscore.
  destruct (is_underscore c && starts_with_underscore s); [exact IH|].
  simpl. by rewrite IH.
Qed.

Lemma trimLeading_lower s : trimLeading (toLowerCase s) = toLowerCase (trimLeading s).
Proof.
  induction s as [|c s IH]; simpl; [done|]. rewrite lowerChar_underscore.
  by destruct (is_underscore c).
Qed.

Lemma trimTrailing_lower s : trimTrailing (toLowerCase s) = toLowerCase (trimTrailing s).
Proof.
  induction s as [|c s IH]; simpl; [done|]. rewrite IH, lowerChar_underscore.
  destruct (trimTrailing s); simpl; [by destruct (is_underscore c) | done].
Qed.

Lemma toLowerCase_twice s : toLowerCase (toLowerCase s) = toLowerCase s.
Proof. induction s as [|c s IH]; simpl; [done|]. by rewrite lowerChar_twice, IH. Qed.

Lemma sanitizeStepName_lower s : sanitizeStepName (toLowerCase s) = sanitizeStepName s.
Proof.
  unfold sanitizeStepName, trimUnderscores.
  by rewrite replaceDisallowed_lower, collapseUnderscores_lower, trimLeading_lower,
    trimTrailing_lower, toLowerCase_twice.
Qed.

(** X14. Step names that differ only in the case of their ASCII letters
    are stored under the same directory name: [Build App] and [build app]
    share their artifacts. *)
Theorem sanitizeStepName_ignores_case a b :
  toLowerCase a = toLowerCase b → sanitizeStepName a = sanitizeStepName b.
Proof. intros H. by rewrite <- (sanitizeStepName_lower a), H, sanitizeStepName_lower. Qed.

End StepNameCase.

Lemma sanitizeStepName_ignores_case_witness :
  Artifacts.sanitizeStepName "Build App" = Artifacts.sanitizeStepName "build app".
Proof. apply sanitizeStepName_ignores_case. reflexivity. Defined.

Section TextFacts.
Import Text.

Lemma append_cons c (a b : string) : String c a +:+ b = String c (a +:+ b).
Proof. done. Qed.

Lemma append_assoc (a b c : string) : (a +:+ b) +:+ c = a +:+ (b +:+ c).
Proof. induction a as [|x a IH]; [done|]. rewrite !append_cons. by rewrite IH. Qed.

Lemma length_append (a b : string) :
  String.length (a +:+ b) = String.length a + String.length b.
Proof. induction a as [|c a IH]; [done|]. rewrite append_cons. simpl. by rewrite IH. Qed.

Lemma slice_append (a b : string) k :
  slice (String.length a + k) (a +:+ b) = slice k b.
Proof. induction a as [|c a IH]; [done|]. rewrite append_cons. exact IH. Qed.

Lemma endsWith_append (s suffix : string) : endsWith suffix (s +:+ suffix) = true.
Proof.
  unfold endsWith. rewrite length_append.
  replace (String.length s + String.length suffix - String.length suffix)
    with (String.length s + 0) by lia.
  rewrite slice_append. simpl. rewrite String.eqb_refl, andb_true_r.
  apply Nat.leb_le. lia.
Qed.

Lemma endsWith_temporary (s : string) : endsWith ".tar.gz" (s +:+ ".tar.gz.tmp") = false.
Proof.
  unfold endsWith. rewrite length_append.
  replace (String.length s + String.length ".tar.gz.tmp" - String.length ".tar.gz")
    with (String.length s + 4) by (simpl; lia).
  rewrite slice_append. simpl. by rewrite andb_false_r.
Qed.

Lemma startsWith_cons c c' (p s : string) :
  startsWith (String c p) (String c' s) = bool_decide (c = c') && startsWith p s.
Proof.
  unfold startsWith. simpl. destruct (ascii_dec c c') as [->|Hne].
  - by rewrite bool_decide_eq_true_2.
  - by rewrite bool_decide_eq_false_2.
Qed.

Ltac walk :=
  repeat match goal with
         | |- context [ascii_dec ?a ?b] =>
             let E := fresh "E" in
             destruct (ascii_dec a b) as [E|E];
             [try discriminate E; subst | try done]; cbv beta iota
         end.

(** The suffix [.tar.gz] does not overlap itself: it starts inside
    [s.tar.gz] only where [s] starts with it. *)
Lemma startsWith_archive (s : string) :
  s ≠ "" → startsWith ".tar.gz" (s +:+ ".tar.gz") = true → startsWith ".tar.gz" s = true.
Proof.
  intros Hne. unfold startsWith.
  destruct s as [|c1 s]; [done|]. clear Hne.
  do 6 (destruct s as [|? s]; [cbv [String.append String.prefix]; walk; done |]).
  cbv [String.append String.prefix]. walk. intros _. by destruct s.
Qed.

Lemma replace_archive (cacheName : string) :
  includes ".tar.gz" cacheName = false →
  replace ".tar.gz" "" (cacheName +:+ ".tar.gz") = cacheName.
Proof.
  induction cacheName as [|c s IH]; [done|].
  intros H. cbn [includes] in H. apply orb_false_iff in H as [Hstart Hrest].
  rewrite append_cons. cbn [replace]. rewrite <- append_cons.
  destruct (startsWith ".tar.gz" (String c s +:+ ".tar.gz")) eqn:E.
  - apply startsWith_archive in E; [congruence | done].
  - by rewrite IH.
Qed.

End TextFacts.

Section CacheDirectoryFacts.
Import Text CacheDirectory.

(** X15. [listCaches] gives back the names under which caches were saved:
    in a directory that holds the archives of some caches, the temporary
    files of unfinished saves and the metadata sidecar, it lists exactly
    the names of the archives, in directory order, provided no name
    contains [.tar.gz] itself. *)
Theorem listCaches_lists_the_saved_names (saved unfinished : list string)
    (withSidecar : bool) :
  Forall (fun cacheName => includes ".tar.gz" cacheName = false) saved →
  listCaches (Entries (map temporaryName unfinished
                       ++ (if withSidecar then [metadataName] else [])
                       ++ map archiveName saved)) = ret saved.
Proof.
  intros Hsaved. unfold listCaches. f_equal.
  rewrite !List.filter_app, !map_app.
  assert (List.filter (endsWith ".tar.gz") (map temporaryName unfinished) = []) as ->.
  { induction unfinished as [|u us IH]; [done|]. simpl.
    unfold temporaryName at 1, archiveName.
    by rewrite append_assoc, endsWith_temporary. }
  assert (List.filter (endsWith ".tar.gz") (if withSidecar then [metadataName] else []) = [])
    as -> by by destruct withSidecar.
  simpl. induction Hsaved as [|cacheName saved Hname _ IH]; [done|].
  simpl. unfold archiveName at 1. rewrite endsWith_append. simpl.
  unfold archiveName at 1. by rewrite replace_archive, IH.
Qed.

Lemma unlinkAll_removed unlink files :
  (∀ file, unlink file = Removed) →
  unlinkAll unlink files
  = (List.filter (fun file => negb (endsWith ".tar.gz" file)) files, None).
Proof.
  intros Hun. induction files as [|file rest IH]; [done|]. simpl.
  destruct (endsWith ".tar.gz" file); simpl.
  - by rewrite Hun.
  - by rewrite IH.
Qed.

Lemma filter_archives_none (files : list string) :
  List.filter (endsWith ".tar.gz")
    (List.filter (fun file => negb (endsWith ".tar.gz" file)) files) = [].
Proof.
  induction files as [|file rest IH]; [done|]. simpl.
  destruct (endsWith ".tar.gz" file) eqn:E; simpl; [done|]. by rewrite E.
Qed.

(** X16. After [clearCache()] has removed every archive, [listCaches]
    finds no cache, and every other file of the directory is still
    there: the temporary file of an unfinished save is not cleared. *)
Theorem clearCache_then_listCaches files unlink metadataSaved :
  (∀ file, unlink file = Removed) →
  ∃ remaining,
    clearCache (Entries files) unlink metadataSaved = ret remaining ∧
    listCaches (Entries remaining) = ret [] ∧
    ∀ file, file ∈ files → endsWith ".tar.gz" file = false → file ∈ remaining.
Proof.
  intros Hun. unfold clearCache. rewrite (unlinkAll_removed unlink files Hun).
  eexists. split; [done|]. split.
  - unfold listCaches. f_equal.
    destruct (metadataSaved && _); [|by rewrite filter_archives_none].
    by rewrite List.filter_app, filter_archives_none.
  - intros file Hin Hends.
    assert (file ∈ List.filter (fun file => negb (endsWith ".tar.gz" file)) files) as Hkept.
    { apply list_elem_of_In, List.filter_In. split; [by apply list_elem_of_In|].
      by rewrite Hends. }
    destruct (metadataSaved && _); [apply elem_of_app; by left | done].
Qed.

End CacheDirectoryFacts.

Section EnvironmentCheckFacts.
Import Text Environment EnvironmentChecks.

Lemma prefixes_exclusive (key : string) :
  (startsWith "BITBUCKET_" key = true →
   startsWith "BBPL_" key = false ∧ startsWith "PATH" key = false)
  ∧ (startsWith "BBPL_" key = true → startsWith "PATH" key = false).
Proof.
  destruct key as [|a [|b key]]; [done | |].
  - rewrite !startsWith_cons. by case_bool_decide.
  - rewrite !startsWith_cons. repeat case_bool_decide; subst; simpl; try done.
Qed.

(** X17. The three groups that [getEnvironmentStats] counts never
    overlap, and together they miss exactly the variables whose name
    starts with [PATH]: the total is the sum of the three counts and of
    the number of those names. *)
Theorem getEnvironmentStats_partition (env : Env) :
  totalVariables (getEnvironmentStats env)
  = bitbucketVariables (getEnvironmentStats env)
    + systemVariables (getEnvironmentStats env)
    + customVariables (getEnvironmentStats env)
    + length (List.filter (startsWith "PATH") (Js.keys env)).
Proof.
  unfold getEnvironmentStats. cbn [totalVariables bitbucketVariables systemVariables
                                   customVariables].
  induction (Js.keys env) as [|key keys IH]; [done|]. simpl.
  destruct (prefixes_exclusive key) as [Hb Hs].
  destruct (startsWith "BITBUCKET_" key) eqn:Eb.
  - destruct (Hb eq_refl) as [-> ->]. simpl. lia.
  - destruct (startsWith "BBPL_" key) eqn:Es.
    + rewrite (Hs eq_refl). simpl. lia.
    + destruct (startsWith "PATH" key); simpl; lia.
Qed.

Lemma foldl_errors {A} (bad : A → bool) (message : A → string) (xs : list A)
    (errors : list string) :
  foldl (fun errors x => if bad x then errors ++ [message x] else errors) errors xs
  = errors ++ map message (List.filter bad xs).
Proof.
  revert errors. induction xs as [|x xs IH]; intros errors; simpl.
  - by rewrite app_nil_r.
  - rewrite IH. destruct (bad x); simpl; [by rewrite <- app_assoc | done].
Qed.

Lemma validateEnvironmentVariables_unfold env :
  validateEnvironmentVariables env
  = map (fun varName => "Required variable " +:+ varName +:+ " is missing")
        (List.filter (missing env) requiredVars)
    ++ map (fun varName => "Invalid variable name: " +:+ varName)
         (List.filter (fun varName => negb (isValidVariableName varName)) (Js.keys env)).
Proof.
  unfold validateEnvironmentVariables.
  by rewrite (foldl_errors (fun varName => negb (isValidVariableName varName))),
    (foldl_errors (missing env)).
Qed.

Lemma filter_nil_Forall {A} (p : A → bool) (xs : list A) :
  List.filter p xs = [] ↔ Forall (fun x => p x = false) xs.
Proof.
  induction xs as [|x xs IH]; simpl; [done|]. rewrite Forall_cons.
  destruct (p x); [split; [done | by intros [? _]] |].
  rewrite IH. split; [done | by intros [_ ?]].
Qed.

(** [validateEnvironmentVariables] reports nothing exactly when the three
    required variables have a non-empty value and every name of the
    environment is a letter or an underscore followed by letters, digits
    and underscores. *)
Lemma validateEnvironmentVariables_accepts env :
  validateEnvironmentVariables env = []
  ↔ (∀ varName, varName ∈ requiredVars →
       ∃ value, Js.get env varName = Some value ∧ bindable value = true)
    ∧ Forall (fun varName => isValidVariableName varName = true) (Js.keys env).
Proof.
  rewrite validateEnvironmentVariables_unfold. split.
  - intros [H1 H2]%app_eq_nil.
    apply fmap_nil_inv, filter_nil_Forall in H1. apply fmap_nil_inv, filter_nil_Forall in H2.
    split.
    + intros varName Hin. rewrite Forall_forall in H1. specialize (H1 varName Hin).
      unfold missing in H1. destruct (Js.get env varName) as [value|]; [|done].
      exists value. split; [done|]. by destruct (bindable value).
    + eapply Forall_impl; [exact H2|]. intros x Hx. simpl in Hx.
      by destruct (isValidVariableName x).
  - intros [H1 H2].
    assert (List.filter (missing env) requiredVars = []) as ->.
    { apply filter_nil_Forall, Forall_forall. intros varName Hin.
      destruct (H1 varName Hin) as (value & Hget & Hb). unfold missing. by rewrite Hget, Hb. }
    assert (List.filter (fun varName => negb (isValidVariableName varName)) (Js.keys env) = [])
      as ->; [|done].
    apply filter_nil_Forall. eapply Forall_impl; [exact H2|]. by intros x ->.
Qed.

Lemma pretty_N_go_length (x : N) (s : string) :
  (String.length s ≤ String.length (pretty_N_go x s))%nat.
Proof.
  revert s. induction (N.lt_wf_0 x) as [x _ IH]; intros s.
  destruct (decide (x = 0)%N) as [->|Hne]; [by rewrite pretty_N_go_0|].
  rewrite pretty_N_go_step by lia.
  etransitivity; [|apply IH; apply N.div_lt; lia]. simpl. lia.
Qed.

Lemma pretty_Z_nonempty (x : Z) : pretty x ≠ "".
Proof.
  assert (∀ p, pretty (Npos p) ≠ "") as Hpos.
  { intros p H. unfold pretty, pretty_N in H. simpl in H.
    pose proof (pretty_N_go_length (N.pos p / 10)
                  (String (pretty_N_char (N.pos p `mod` 10)) "")) as Hlen.
    rewrite pretty_N_go_step in H by lia. rewrite H in Hlen. simpl in Hlen. lia. }
  destruct x as [|p|p]; [done | apply Hpos |].
  unfold pretty, pretty_Z. by destruct (pretty (N.pos p)).
Qed.

Lemma keys_set_subset {A} (o : list (string * A)) key v k :
  k ∈ Js.keys (Js.set o key v) ↔ k ∈ Js.keys o ∨ k = key.
Proof.
  induction o as [|[k' v'] o IH]; simpl.
  - rewrite list_elem_of_singleton. split; [by right | by intros [?%elem_of_nil | ?]].
  - destruct (String.eqb k' key) eqn:E; simpl.
    + apply String.eqb_eq in E as ->. rewrite !elem_of_cons.
      split; [by left | intros [? | ->]; [done | by left]].
    + rewrite !elem_of_cons, IH. tauto.
Qed.

Lemma entries_set {A} (o : list (string * A)) key v k x :
  (k, x) ∈ Js.set o key v → (k, x) ∈ o ∨ (k = key ∧ x = v).
Proof.
  induction o as [|[k' v'] o IH]; simpl.
  - intros [= -> ->]%list_elem_of_singleton. by right.
  - destruct (String.eqb k' key) eqn:E; simpl.
    + apply String.eqb_eq in E as ->. rewrite !elem_of_cons.
      intros [[= -> ->] | ?]; [by right | left; by right].
    + rewrite !elem_of_cons. intros [? | H]; [left; by left|].
      destruct (IH H) as [? | ?]; [left; by right | by right].
Qed.

Lemma assign_keys {A} (target source : list (string * A)) k :
  k ∈ Js.keys (Js.assign target source) ↔ k ∈ Js.keys target ∨ k ∈ Js.keys source.
Proof.
  unfold Js.assign, Js.entries. revert target.
  induction source as [|[k' v'] source IH]; intros target; simpl.
  - rewrite elem_of_nil. tauto.
  - rewrite IH, keys_set_subset, elem_of_cons. simpl.
    split; [intros [[? | ->] | ?] | intros [? | [-> | ?]]]; tauto.
Qed.

Lemma assign_entries {A} (target source : list (string * A)) k x :
  (k, x) ∈ Js.assign target source → (k, x) ∈ target ∨ (k, x) ∈ source.
Proof.
  unfold Js.assign, Js.entries. revert target.
  induction source as [|[k' v'] source IH]; intros target; simpl; [by left|].
  intros H. destruct (IH _ H) as [Hset | ?]; [|right; by right].
  destruct (entries_set _ _ _ _ _ Hset) as [? | [-> ->]]; [by left | right; left].
Qed.

Lemma get_of_entry {A} (o : list (string * A)) k x :
  NoDup (Js.keys o) → (k, x) ∈ o → Js.get o k = Some x.
Proof.
  induction o as [|[k' v'] o IH]; simpl; [by intros _ ?%elem_of_nil|].
  intros [Hk Hnd]%NoDup_cons. rewrite elem_of_cons. intros [[= -> ->] | Hin].
  - by rewrite String.eqb_refl.
  - destruct (String.eqb k' k) eqn:E; [|by apply IH].
    apply String.eqb_eq in E as ->. destruct Hk.
    apply list_elem_of_fmap. by exists (k, x).
Qed.

(** X18. The variables that [getBitbucketVariables] produces pass the
    manager's own [validateEnvironmentVariables], for a context with a
    workspace and a repository slug: every name is well formed and the
    three required variables have a value. Configured default variables
    keep this so as long as their names are well formed and they give no
    empty value to a required variable. *)
Theorem generated_variables_pass_validation config gen context :
  workspace context ≠ "" →
  repoSlug context ≠ "" →
  (∀ defaults, Environment.bitbucketVariables config = Some defaults →
     Forall (fun varName => isValidVariableName varName = true) (Js.keys defaults)
     ∧ ∀ varName value, varName ∈ requiredVars → (varName, value) ∈ defaults →
         bindable value = true) →
  validateEnvironmentVariables (getBitbucketVariables config gen context) = [].
Proof.
  intros Hw Hs Hdefaults. apply validateEnvironmentVariables_accepts.
  unfold getBitbucketVariables.
  set (variables := (_ :: _ : Env)).
  assert (Forall (fun varName => isValidVariableName varName = true) (Js.keys variables))
    as Hnames by (by repeat constructor).
  assert (NoDup (Js.keys variables)) as Hnd.
  { apply (bool_decide_unpack _). by vm_compute. }
  assert (∀ varName value, varName ∈ requiredVars → (varName, value) ∈ variables →
            bindable value = true) as Hbound.
  { intros varName value Hin Hentry. apply (get_of_entry _ _ _ Hnd) in Hentry.
    unfold requiredVars in Hin. rewrite !elem_of_cons, elem_of_nil in Hin.
    destruct Hin as [-> | [-> | [-> | []]]]; injection Hentry as <-; simpl.
    - destruct (String.eqb (workspace context) "") eqn:E; [|done].
      by apply String.eqb_eq in E.
    - destruct (String.eqb (repoSlug context) "") eqn:E; [|done].
      by apply String.eqb_eq in E.
    - destruct (String.eqb (pretty (buildNumber context)) "") eqn:E; [|done].
      apply String.eqb_eq in E. by destruct (pretty_Z_nonempty (buildNumber context)). }
  assert (∀ varName, varName ∈ requiredVars → varName ∈ Js.keys variables) as Hkeys.
  { intros varName Hin. unfold requiredVars in Hin.
    rewrite !elem_of_cons, elem_of_nil in Hin.
    destruct Hin as [-> | [-> | [-> | []]]]; apply (bool_decide_unpack _); by vm_compute. }
  assert (∀ env : Env,
            (∀ varName, varName ∈ requiredVars → varName ∈ Js.keys env) →
            (∀ varName value, varName ∈ requiredVars → (varName, value) ∈ env →
               bindable value = true) →
            ∀ varName, varName ∈ requiredVars →
              ∃ value, Js.get env varName = Some value ∧ bindable value = true) as Hget.
  { intros env Hk Hb varName Hin.
    destruct (Js.get env varName) as [value|] eqn:E.
    - exists value. split; [done|]. eapply Hb; [done|]. by apply get_Some_entry.
    - apply get_None_not_key in E. exfalso. apply E. by apply Hk. }
  destruct (Environment.bitbucketVariables config) as [defaults|] eqn:Hconfig.
  - destruct (Hdefaults defaults eq_refl) as [Hdn Hdb]. split.
    + apply Hget.
      * intros varName Hin. rewrite !assign_keys. left. left. by apply Hkeys.
      * intros varName value Hin Hentry.
        assert ((varName, value) ∈ Js.assign variables defaults) as Hentry'.
        { by destruct (assign_entries _ _ _ _ Hentry). }
        destruct (assign_entries _ _ _ _ Hentry'); [by eapply Hbound | by eapply Hdb].
    + apply Forall_forall. intros k Hk. rewrite !assign_keys in Hk.
      rewrite Forall_forall in Hnames, Hdn.
      destruct Hk as [[? | ?] | [? | ?]]; auto.
  - split; [by apply Hget | done].
Qed.

End EnvironmentCheckFacts.

Section ContainerEnvironment.
Import Interfaces Environment Docker.

(** X19. The container of a step gets one [NAME=value] line per variable
    of the execution context, each with a non-empty value and no name
    twice: a variable that is unset, [null] or empty in its last source
    is never handed over as [NAME=], [NAME=undefined] or [NAME=null]. *)
Theorem container_environment_lines config host gen buildNumber basename options step :
  let context :=
    Runner.createExecutionContext config host gen buildNumber basename options in
  let environment := Runner.containerEnvironment step context in
  NoDup (Js.keys environment)
  ∧ length (containerEnv environment) = length (Js.keys environment)
  ∧ ∀ line, line ∈ containerEnv environment →
      ∃ name value,
        line = name +:+ "=" +:+ value ∧ value ≠ ""
        ∧ Js.get environment name = Some (EnvStr value).
Proof.
  intros context environment.
  assert (merged_shape environment) as [Hnd Hall] by apply mergeEnvironments_shape.
  split; [done|]. split.
  - unfold containerEnv, Js.entries, Js.keys. by rewrite !length_map.
  - intros line Hin. unfold containerEnv, Js.entries in Hin.
    apply list_elem_of_fmap in Hin as ([name v] & -> & Hentry).
    rewrite Forall_forall in Hall. pose proof (Hall _ Hentry) as Hb. simpl in Hb.
    destruct v as [| |value]; try done. exists name, value. split_and!; [done | |].
    + intros ->. done.
    + by apply get_of_entry.
Qed.

End ContainerEnvironment.

Section MemoryLimits.
Import Artifacts Docker Limits.

Ltac by_cases c :=
  destruct c as [[] [] [] [] [] [] [] []]; vm_compute; try reflexivity; try discriminate;
  intros; try discriminate; try reflexivity.

Lemma unit_not_digit c : is_unit c = true → is_digit c = false.
Proof. by_cases c. Qed.

Lemma all_chars_app p (a b : string) :
  all_chars p (a +:+ b) = all_chars p a && all_chars p b.
Proof.
  induction a as [|c a IH]; [done|].
  change (String c a +:+ b) with (String c (a +:+ b)). simpl. by rewrite IH, andb_assoc.
Qed.

Lemma append_empty (s : string) : s +:+ "" = s.
Proof.
  induction s as [|c s IH]; [done|].
  change (String c s +:+ "") with (String c (s +:+ "")). by rewrite IH.
Qed.

Lemma splitLast_last (s : string) c : splitLast (s +:+ String c "") = (s, String c "").
Proof.
  induction s as [|a s IH]; [done|].
  change (String a s +:+ String c "") with (String a (s +:+ String c "")).
  cbn [splitLast]. rewrite IH. by destruct s.
Qed.

Lemma splitLast_spec (s body last : string) :
  splitLast s = (body, last) → s = body +:+ last.
Proof.
  revert body. induction s as [|a s IH]; intros body.
  - by intros [= <- <-].
  - cbn [splitLast]. destruct s as [|b s]; [by intros [= <- <-]|].
    destruct (splitLast (String b s)) as [body' last'] eqn:E.
    intros [= <- <-]. by rewrite (IH body' eq_refl).
Qed.

Lemma afterDigit_spec (s : string) :
  afterDigit s = true
  ↔ all_chars is_digit s = true
    ∨ ∃ body c, s = body +:+ String c "" ∧ all_chars is_digit body = true
                ∧ is_unit c = true.
Proof.
  induction s as [|a s IH]; simpl; [by split; [left|]|].
  destruct (is_digit a) eqn:Ea; simpl.
  - rewrite IH. split.
    + intros [? | (body & c & -> & Hb & Hc)]; [by left|].
      right. exists (String a body), c. simpl. by rewrite Ea.
    + intros [? | (body & c & Heq & Hb & Hc)]; [by left|].
      destruct body as [|b body].
      * injection Heq as -> ->. rewrite (unit_not_digit _ Hc) in Ea. done.
      * injection Heq as -> ->. simpl in Hb. apply andb_true_iff in Hb as [_ Hb].
        right. by exists body, c.
  - split.
    + intros [Hu Hs]%andb_true_iff. apply String.eqb_eq in Hs as ->.
      right. by exists "", a.
    + intros [? | (body & c & Heq & Hb & Hc)]; [done|].
      destruct body as [|b body].
      * injection Heq as -> ->. by rewrite Hc.
      * injection Heq as -> ->. simpl in Hb. by rewrite Ea in Hb.
Qed.

Lemma limitGroups_digits (number : string) :
  digits number = true → limitGroups number = Some (number, "").
Proof. intros H. unfold limitGroups. by rewrite H. Qed.

Lemma limitGroups_unit (number : string) c :
  digits number = true → is_unit c = true →
  limitGroups (number +:+ String c "") = Some (number, String c "").
Proof.
  intros Hn Hc. unfold limitGroups.
  assert (digits (number +:+ String c "") = false) as ->.
  { unfold digits. rewrite all_chars_app. simpl. rewrite (unit_not_digit _ Hc).
    by rewrite andb_false_r. }
  by rewrite splitLast_last, Hn, Hc.
Qed.

Lemma limitGroups_spec (limit number unit : string) :
  limitGroups limit = Some (number, unit) →
  limit = number +:+ unit ∧ digits number = true
  ∧ (unit = "" ∨ ∃ c, unit = String c "" ∧ is_unit c = true).
Proof.
  unfold limitGroups. destruct (digits limit) eqn:Ed.
  - intros [= <- <-]. split; [by rewrite append_empty | by split; [|left]].
  - destruct (splitLast limit) as [body last] eqn:Es.
    destruct last as [|c [|? ?]]; try done.
    destruct (digits body) eqn:Eb; [|done]. destruct (is_unit c) eqn:Ec; [|done].
    intros [= <- <-]. split; [by apply splitLast_spec|]. split; [done|].
    right. by exists c.
Qed.

Lemma isValidMemoryLimit_groups (limit : string) :
  isValidMemoryLimit limit = true ↔ is_Some (limitGroups limit).
Proof.
  split.
  - destruct limit as [|a rest]; [done|]. simpl.
    intros [Ha Hrest]%andb_true_iff.
    apply afterDigit_spec in Hrest as [Hd | (body & c & -> & Hb & Hc)].
    + rewrite limitGroups_digits; [by eexists|]. unfold digits. simpl. by rewrite Ha, Hd.
    + change (String a (body +:+ String c "")) with (String a body +:+ String c "").
      rewrite limitGroups_unit; [by eexists | | done].
      unfold digits. simpl. by rewrite Ha, Hb.
  - intros [[number unit] H]. apply limitGroups_spec in H as (-> & Hn & Hu).
    unfold digits in Hn. apply andb_true_iff in Hn as [Hall Hne].
    destruct number as [|a number]; [done|]. simpl in Hall.
    apply andb_true_iff in Hall as [Ha Hall].
    change (String a number +:+ unit) with (String a (number +:+ unit)). simpl.
    rewrite Ha. simpl. apply afterDigit_spec.
    destruct Hu as [-> | (c & -> & Hc)].
    + left. rewrite all_chars_app. by rewrite Hall.
    + right. by exists number, c.
Qed.

(** X20. The configuration check and the Docker manager agree on memory
    limits. A limit that [isValidMemoryLimit] refuses is read by
    [parseMemoryLimit] as 0, which Docker takes as no limit; a limit it
    accepts is a number followed by at most one of [k], [m] and [g] in
    either case, and is read as that number of bytes, of KiB, of MiB or of
    GiB. *)
Theorem memory_limits_agree (limit : string) :
  (isValidMemoryLimit limit = false → parseMemoryLimit limit = 0%Z)
  ∧ (isValidMemoryLimit limit = true →
     ∃ number unit,
       limit = number +:+ unit ∧ digits number = true
       ∧ ((unit = "" ∧ parseMemoryLimit limit = parseInt number)
          ∨ (unit ∈ ["k"; "K"] ∧ parseMemoryLimit limit = (parseInt number * 1024)%Z)
          ∨ (unit ∈ ["m"; "M"]
             ∧ parseMemoryLimit limit = (parseInt number * 1024 * 1024)%Z)
          ∨ (unit ∈ ["g"; "G"]
             ∧ parseMemoryLimit limit = (parseInt number * 1024 * 1024 * 1024)%Z))).
Proof.
  split.
  - intros Hinvalid. unfold parseMemoryLimit.
    destruct (limitGroups limit) as [[number unit]|] eqn:E; [|done].
    assert (isValidMemoryLimit limit = true) as Hvalid
      by (apply isValidMemoryLimit_groups; by eexists).
    congruence.
  - intros [[number unit] E]%isValidMemoryLimit_groups.
    exists number, unit. unfold parseMemoryLimit. rewrite E.
    apply limitGroups_spec in E as (-> & Hn & Hu). split; [done|]. split; [done|].
    destruct Hu as [-> | (c & -> & Hc)]; [by left|]. right.
    unfold is_unit in Hc. apply bool_decide_eq_true in Hc.
    rewrite !elem_of_cons, elem_of_nil in Hc.
    destruct Hc as [-> | [-> | [-> | [-> | [-> | [-> | []]]]]]]; simpl.
    + left. split; [left | done].
    + right. left. split; [left | done].
    + right. right. split; [left | done].
    + left. split; [right; left | done].
    + right. left. split; [right; left | done].
    + right. right. split; [right; left | done].
Qed.

End MemoryLimits.

Section ConfigFacts.
Import Js Config.

Lemma mergeEntries_total (entries : list (string * Value)) :
  (∀ key value target, (key, value) ∈ entries → (∃ inner, value = Object inner) →
     ∃ merged, deepMerge target value = inr merged) →
  ∀ result, ∃ r, mergeEntries deepMerge entries result = inr r.
Proof.
  induction entries as [|[key value] rest IH]; intros Hrec result; [by eexists|].
  cbn [mergeEntries].
  assert (∃ r1, mergeKey deepMerge result key value = inr r1) as [r1 ->].
  { unfold mergeKey. destruct value; try by eexists.
    destruct (Hrec key (Object fields) (or (field result key) (Object []))) as [m ->];
      [left | by eexists | by eexists]. }
  cbn [bind]. apply IH. intros k v t Hin. apply (Hrec k). by right.
Qed.

Lemma mergeItems_total (items : list Value) :
  (∀ value target, value ∈ items → (∃ inner, value = Object inner) →
     ∃ merged, deepMerge target value = inr merged) →
  ∀ index result, ∃ r, mergeItems deepMerge items index result = inr r.
Proof.
  induction items as [|value rest IH]; intros Hrec index result; [by eexists|].
  cbn [mergeItems].
  assert (∃ r1, mergeKey deepMerge result (pretty index) value = inr r1) as [r1 ->].
  { unfold mergeKey. destruct value; try by eexists.
    destruct (Hrec (Object fields) (or (field result (pretty index)) (Object [])))
      as [m ->]; [left | by eexists | by eexists]. }
  cbn [bind]. apply IH. intros v t Hin. apply Hrec. by right.
Qed.

(** [deepMerge] only throws for a source that is [undefined] or [null]. *)
Lemma deepMerge_total (source target : Value) :
  source ≠ Undefined → source ≠ Null →
  ∃ result, deepMerge target source = inr (Object result).
Proof.
  revert source target. fix IH 1.
  intros [| |b|n| |s|items|fields] target Hu Hn; try done; try (by eexists).
  - cbn [deepMerge].
    assert (∀ value t, value ∈ items → (∃ inner, value = Object inner) →
              ∃ merged, deepMerge t value = inr merged) as Hrec.
    { clear -IH. induction items as [|value rest IHitems]; intros v t Hin Hobj.
      - by apply elem_of_nil in Hin.
      - apply elem_of_cons in Hin as [Heq | Hin]; [|by apply IHitems].
        destruct (IH value t) as [m Hm];
          [destruct Hobj as [inner Hobj]; congruence..|].
        rewrite Heq. by eexists. }
    destruct (mergeItems_total items Hrec 0 (spread target)) as [r ->]. by eexists.
  - cbn [deepMerge].
    assert (∀ key value t, (key, value) ∈ fields → (∃ inner, value = Object inner) →
              ∃ merged, deepMerge t value = inr merged) as Hrec.
    { clear -IH. induction fields as [|[k value] rest IHfields]; intros key v t Hin Hobj.
      - by apply elem_of_nil in Hin.
      - apply elem_of_cons in Hin as [Heq | Hin]; [|by eapply IHfields].
        injection Heq as Hk Hv.
        destruct (IH value t) as [m Hm];
          [destruct Hobj as [inner Hobj]; congruence..|].
        rewrite Hv. by eexists. }
    destruct (mergeEntries_total fields Hrec (spread target)) as [r ->]. by eexists.
Qed.

Lemma get_set {A} (o : list (string * A)) k x key :
  get (set o k x) key = if String.eqb k key then Some x else get o key.
Proof.
  destruct (String.eqb k key) eqn:E.
  - apply String.eqb_eq in E as ->. apply get_set_same.
  - apply String.eqb_neq in E. by apply get_set_other.
Qed.

Lemma field_set o k x key : k ≠ key → field (set o k x) key = field o key.
Proof. intros Hne. unfold field. by rewrite get_set_other. Qed.

(** What a key holds after the loop of [deepMerge] over an object. *)
Lemma mergeEntries_get (entries result r : list (string * Value)) :
  NoDup (keys entries) →
  mergeEntries deepMerge entries result = inr r →
  ∀ key,
    match get entries key with
    | None => get r key = get result key
    | Some (Object inner) =>
        ∃ merged,
          deepMerge (or (field result key) (Object [])) (Object inner) = inr merged
          ∧ get r key = Some merged
    | Some value => get r key = Some value
    end.
Proof.
  revert result. induction entries as [|[k value] rest IH]; intros result Hnd H key.
  - injection H as <-. done.
  - simpl in Hnd. apply NoDup_cons in Hnd as [Hk Hnd]. cbn [mergeEntries] in H.
    destruct (mergeKey deepMerge result k value) as [|r1] eqn:E; [done|].
    cbn [bind] in H. specialize (IH r1 Hnd H key). simpl.
    destruct (String.eqb k key) eqn:Ek.
    + apply String.eqb_eq in Ek as <-.
      apply get_None_not_key in Hk. rewrite Hk in IH. rewrite IH.
      unfold mergeKey in E.
      destruct value; try (injection E as <-; apply get_set_same).
      destruct (deepMerge (or (field result k) (Object [])) (Object fields))
        as [|merged] eqn:Em; [done|].
      injection E as <-. exists merged. split; [done | apply get_set_same].
    + apply String.eqb_neq in Ek.
      assert (get r1 key = get result key ∧ field r1 key = field result key) as [Hg Hf].
      { unfold mergeKey in E.
        destruct value;
          try (injection E as <-; split; [by apply get_set_other | by apply field_set]).
        destruct (deepMerge (or (field result k) (Object [])) (Object fields))
          as [|merged]; [done|].
        injection E as <-. split; [by apply get_set_other | by apply field_set]. }
      by rewrite Hg, Hf in IH.
Qed.

(** What [deepMerge] with an object gives, key by key. *)
Lemma deepMerge_object (target : Value) (source : list (string * Value)) :
  NoDup (keys source) →
  ∃ result,
    deepMerge target (Object source) = inr (Object result)
    ∧ ∀ key,
        (get source key = None → get result key = get (spread target) key)
        ∧ (∀ value, get source key = Some value → (∀ inner, value ≠ Object inner) →
             get result key = Some value)
        ∧ (∀ inner, get source key = Some (Object inner) →
             ∃ merged,
               deepMerge (or (field (spread target) key) (Object [])) (Object inner)
               = inr merged
               ∧ get result key = Some merged).
Proof.
  intros Hnd.
  destruct (deepMerge_total (Object source) target) as [result Hresult]; [done..|].
  exists result. split; [done|]. intros key.
  cbn [deepMerge] in Hresult.
  destruct (mergeEntries deepMerge source (spread target)) as [|r] eqn:E; [done|].
  injection Hresult as <-.
  pose proof (mergeEntries_get source (spread target) r Hnd E key) as H.
  split_and!.
  - intros Hnone. by rewrite Hnone in H.
  - intros value Hsome Hplain. rewrite Hsome in H.
    destruct value; try done. by destruct (Hplain fields).
  - intros inner Hsome. by rewrite Hsome in H.
Qed.


Lemma mergeConfigs_snoc homedir configs config :
  mergeConfigs homedir (configs ++ [config])
  = let! merged := mergeConfigs homedir configs in deepMerge merged config.
Proof. unfold mergeConfigs. by rewrite foldl_app. Qed.

Lemma truthy_defined v : truthy v = true → v ≠ Undefined ∧ v ≠ Null.
Proof. by destruct v. Qed.

Lemma mergeConfigs_total homedir configs :
  Forall (fun config => truthy config = true) configs →
  ∃ merged, mergeConfigs homedir configs = inr (Object merged).
Proof.
  induction configs as [|config configs IH] using rev_ind; intros Hall.
  - by eexists.
  - apply Forall_app in Hall as [Hall [Hconfig _]%Forall_cons].
    destruct (IH Hall) as [merged Hmerged].
    rewrite mergeConfigs_snoc, Hmerged. cbn [bind].
    apply truthy_defined in Hconfig as [? ?]. by apply deepMerge_total.
Qed.

Lemma readVariable_docker config key value :
  get (readVariable config key value) "docker" = get config "docker"
  ∨ ∃ image, get (readVariable config key value) "docker" = Some (dockerFor image).
Proof.
  unfold readVariable. destruct value as [| |value]; try by left.
  destruct (negb _ || _); [by left|]. cbv zeta.
  destruct (String.eqb _ "log_level").
  { destruct (bool_decide _); [|by left]. left. by apply get_set_other. }
  destruct (String.eqb _ "docker_image").
  { right. exists value. apply get_set_same. }
  destruct (String.eqb _ "verbose"); [|by left].
  destruct (String.eqb _ "true"); [|by left]. left. by apply get_set_other.
Qed.

Lemma loadConfigFromEnv_docker_kept (entries : Environment.Env) config :
  (∃ image, get config "docker" = Some (dockerFor image)) →
  ∃ image,
    get (foldl (fun config kv => readVariable config (fst kv) (snd kv)) config entries)
        "docker" = Some (dockerFor image).
Proof.
  revert config. induction entries as [|[key value] rest IH]; intros config H; [done|].
  simpl. apply IH.
  destruct (readVariable_docker config key value) as [-> | ?]; done.
Qed.

Lemma loadConfigFromEnv_docker (processEnv : Environment.Env) image :
  ("BBPL_DOCKER_IMAGE", Environment.EnvStr image) ∈ processEnv → image ≠ "" →
  ∃ image', get (loadConfigFromEnv processEnv) "docker" = Some (dockerFor image').
Proof.
  intros Hin Hne. unfold loadConfigFromEnv, entries.
  generalize (@nil (string * Value)).
  induction processEnv as [|[key value] rest IH]; intros config.
  - by apply elem_of_nil in Hin.
  - apply elem_of_cons in Hin as [[= <- <-] | Hin]; [|by apply IH].
    simpl. apply loadConfigFromEnv_docker_kept. exists image.
    unfold readVariable.
    assert (String.eqb image "" = false) as -> by by apply String.eqb_neq.
    apply get_set_same.
Qed.

Lemma keys_set_any {A} (o : list (string * A)) key v :
  keys (set o key v) = if bool_decide (key ∈ keys o) then keys o else keys o ++ [key].
Proof.
  induction o as [|[k v'] o IH]; simpl; [done|].
  destruct (String.eqb k key) eqn:E; simpl.
  - apply String.eqb_eq in E as ->. rewrite bool_decide_eq_true_2; [done | left].
  - apply String.eqb_neq in E. rewrite IH.
    destruct (bool_decide (key ∈ keys o)) eqn:D.
    + apply bool_decide_eq_true in D. rewrite bool_decide_eq_true_2; [done | by right].
    + apply bool_decide_eq_false in D.
      rewrite bool_decide_eq_false_2; [done|]. by intros [?|?]%elem_of_cons.
Qed.

Lemma NoDup_keys_set {A} (o : list (string * A)) key v :
  NoDup (keys o) → NoDup (keys (set o key v)).
Proof.
  intros Hnd. rewrite keys_set_any. case_bool_decide as D; [done|].
  apply NoDup_app. split_and!; [done | | apply NoDup_singleton].
  intros x Hx Hx'. apply list_elem_of_singleton in Hx' as ->. done.
Qed.

Lemma readVariable_NoDup config key value :
  NoDup (keys config) → NoDup (keys (readVariable config key value)).
Proof.
  intros Hnd. unfold readVariable. destruct value as [| |value]; try done.
  repeat case_match; try done; by apply NoDup_keys_set.
Qed.

Lemma loadConfigFromEnv_NoDup (processEnv : Environment.Env) :
  NoDup (keys (loadConfigFromEnv processEnv)).
Proof.
  unfold loadConfigFromEnv, entries.
  assert (NoDup (keys (@nil (string * Value)))) as H0 by apply NoDup_nil_2.
  revert H0. generalize (@nil (string * Value)).
  induction processEnv as [|[key value] rest IH]; intros config Hnd; [done|].
  simpl. apply IH. by apply readVariable_NoDup.
Qed.

(** X22. Setting [BBPL_DOCKER_IMAGE] in the process environment does more
    than choose the image: in the merged configuration the network name,
    the volume prefix and the socket path are the built-in defaults
    again, whatever the global and the project configuration file say,
    because the variable is turned into a whole [docker] section built
    from the defaults and merged last. *)
Theorem docker_image_variable_resets_docker_settings homedir globalConfig projectConfig
    (processEnv : Environment.Env) image :
  get processEnv "BBPL_DOCKER_IMAGE" = Some (Environment.EnvStr image) →
  image ≠ "" →
  ∃ merged,
    mergedConfig homedir globalConfig projectConfig processEnv = inr merged
    ∧ setting merged "docker" "networkName" = Str "bbpl-network"
    ∧ setting merged "docker" "volumePrefix" = Str "bbpl"
    ∧ setting merged "docker" "socketPath" = Str "/var/run/docker.sock"
    ∧ ∃ image', setting merged "docker" "defaultImage" = Str image'.
Proof.
  intros Hget Hne. apply get_Some_entry in Hget.
  destruct (loadConfigFromEnv_docker processEnv image Hget Hne) as [image' Hdocker].
  unfold mergedConfig.
  assert ((0 <? length (keys (loadConfigFromEnv processEnv)))%nat = true) as ->.
  { destruct (loadConfigFromEnv processEnv); [done | done]. }
  set (configs :=
         let configs := [getDefaultConfig homedir] in
         let configs := if truthy globalConfig then configs ++ [globalConfig] else configs in
         if truthy projectConfig then configs ++ [projectConfig] else configs).
  assert (Forall (fun config => truthy config = true) configs) as Hall.
  { unfold configs. cbv zeta.
    destruct (truthy globalConfig) eqn:Eg, (truthy projectConfig) eqn:Ep;
      repeat (apply Forall_app; split); repeat constructor; done. }
  fold configs. rewrite mergeConfigs_snoc.
  destruct (mergeConfigs_total homedir configs Hall) as [before ->]. cbn [bind].
  destruct (deepMerge_object (Object before) (loadConfigFromEnv processEnv)
              (loadConfigFromEnv_NoDup processEnv)) as (result & -> & Hkeys).
  destruct (Hkeys "docker") as (_ & _ & Hobject).
  destruct (Hobject _ Hdocker) as (merged & Hmerged & Hresult).
  assert (NoDup (keys (set defaultDocker "defaultImage" (Str image')))) as Hnd.
  { apply NoDup_keys_set, (bool_decide_unpack _). by vm_compute. }
  destruct (deepMerge_object
              (or (field (spread (Object before)) "docker") (Object []))
              (set defaultDocker "defaultImage" (Str image')) Hnd)
    as (inner & Hinner & Hsettings).
  rewrite Hinner in Hmerged. injection Hmerged as <-.
  exists (Object result). split; [done|].
  unfold setting, field. rewrite Hresult. cbn [from_option id].
  assert (∀ key value, get (set defaultDocker "defaultImage" (Str image')) key
                       = Some (Str value) → get inner key = Some (Str value)) as Hplain.
  { intros key value Hv. destruct (Hsettings key) as (_ & H & _). by apply H. }
  rewrite (Hplain "networkName" "bbpl-network"), (Hplain "volumePrefix" "bbpl"),
    (Hplain "socketPath" "/var/run/docker.sock"), (Hplain "defaultImage" image') by done.
  split_and!; try done. by exists image'.
Qed.

End ConfigFacts.

(** The step [checkedStep] is accepted, so it is well formed. *)
Lemma validateStep_accepts_the_well_formed_steps_witness :
  Validator.wellFormed Samples.checkedStep.
Proof.
  destruct (validateStep_accepts_the_well_formed_steps Samples.noToString
              Samples.neverExceeds Samples.checkedStep _ eq_refl) as [Hvalid _].
  apply Hvalid. reflexivity.
Defined.

(** The document of S3 is accepted, so its two parallel steps are well
    formed. *)
(** A step with [maxTime: .nan] is loaded with that value and passes the
    validation without an error or a warning: no comparison holds of
    [NaN]. *)
Example validate_accepts_NaN :
  ∃ config step result,
    Loader.parse Scenarios.noStringify (inr Samples.nanDocument) = inr config
    ∧ default (Loader.config_pipelines config) = Some [Loader.ItemStep step]
    ∧ Loader.maxTime step = Js.NaN
    ∧ Validator.validate Samples.noToString Samples.neverExceeds config = inr result
    ∧ Validator.valid result = true
    ∧ Validator.result_warnings result = [].
Proof. eexists _, _, _. split_and!; reflexivity. Qed.

Lemma validated_pipelines_have_well_formed_steps_witness :
  ∃ config result,
    Loader.parse Scenarios.noStringify (inr Scenarios.parallelDocument) = inr config
    ∧ Validator.validate Samples.noToString Samples.neverExceeds config = inr result
    ∧ Validator.valid result = true
    ∧ ∀ pipeline step,
        pipeline ∈ Validator.visited (Loader.config_pipelines config) →
        step ∈ Validator.stepsOf pipeline →
        Validator.wellFormed step ∧ Loader.script step ≠ [].
Proof.
  eexists _, _. split; [reflexivity|]. split; [reflexivity|]. split; [reflexivity|].
  eapply (validated_pipelines_have_well_formed_steps Samples.noToString
            Samples.neverExceeds); reflexivity.
Defined.

(** Two archives, the temporary file of an unfinished save and the
    sidecar: the listing holds the two names. *)
Lemma listCaches_lists_the_saved_names_witness :
  CacheDirectory.listCaches
    (CacheDirectory.Entries
       (map CacheDirectory.temporaryName Samples.unfinishedSaves
        ++ [CacheDirectory.metadataName]
        ++ map CacheDirectory.archiveName Samples.savedCaches))
  = ret ["node"; "pip-cache"].
Proof.
  apply (listCaches_lists_the_saved_names Samples.savedCaches Samples.unfinishedSaves true).
  repeat constructor.
Defined.

(** Clearing that directory leaves the temporary file and the sidecar. *)
Lemma clearCache_then_listCaches_witness :
  ∃ remaining,
    CacheDirectory.clearCache
      (CacheDirectory.Entries ["node.tar.gz.tmp"; ".metadata.json"; "node.tar.gz"])
      (fun _ => CacheDirectory.Removed) true = ret remaining
    ∧ CacheDirectory.listCaches (CacheDirectory.Entries remaining) = ret []
    ∧ "node.tar.gz.tmp" ∈ remaining.
Proof.
  destruct (clearCache_then_listCaches
              ["node.tar.gz.tmp"; ".metadata.json"; "node.tar.gz"]
              (fun _ => CacheDirectory.Removed) true (fun _ => eq_refl))
    as (remaining & Hclear & Hlist & Hkept).
  exists remaining. split; [exact Hclear|]. split; [exact Hlist|].
  apply Hkept; [apply list_elem_of_here | reflexivity].
Defined.

(** The variables generated for a run in [/repo], without configured
    defaults, pass the validation. *)
Lemma generated_variables_pass_validation_witness :
  EnvironmentChecks.validateEnvironmentVariables
    (Environment.getBitbucketVariables
       (Interfaces.environmentConfig Scenarios.plainConfig) Scenarios.someGenerated
       Samples.repoContext) = [].
Proof.
  apply generated_variables_pass_validation;
    [discriminate | discriminate | intros defaults [=]].
Defined.


(** With [docker.networkName: ci-net] in the project file and
    [BBPL_DOCKER_IMAGE=node:18] in the process environment, the merged
    network name is the default one. *)
Lemma docker_image_variable_resets_docker_settings_witness :
  ∃ merged,
    Config.mergedConfig "/home/dev" Js.Null Samples.projectNetwork Samples.imageVariable
    = inr merged
    ∧ Config.setting merged "docker" "networkName" = Js.Str "bbpl-network".
Proof.
  destruct (docker_image_variable_resets_docker_settings "/home/dev" Js.Null
              Samples.projectNetwork Samples.imageVariable "node:18" eq_refl)
    as (merged & Hmerged & Hnetwork & _); [discriminate|].
  by exists merged.
Defined.
